(** * io_scene_psk_psa: bone mapping, sequence extraction, selection lists

    A shallow embedding of parts of the PSK/PSA add-on and the theorems
    about them.

    - [psa/importer.py]: [_get_armature_bone_index_for_psa_bone] and the
      bone-mapping loop of [import_psa];
    - [psa/export/operators.py]: [is_action_for_armature],
      [update_actions_and_timeline_markers], [get_sequence_fps],
      [get_animation_data_object],
      [get_timeline_marker_sequence_frame_ranges],
      [get_sequences_from_action], [get_sequences_from_action_pose_marker];
    - [psa/import_/properties.py]: [filter_sequences],
      [get_visible_sequences];
    - [psa/import_/operators.py]: the selection operators,
      [load_psa_file], [PSA_OT_import.execute];
    - [psk/data.py]: [Psk] and its [has_*] properties;
    - [psk/export/operators.py]: [populate_material_list] and the
      operators that move a material.

    The numbers of [_calculate_fcurve_data] are floats inside the
    vector library of the host; it is not embedded. *)

From Stdlib Require Import Ascii String QArith Qround Psatz.
From stdpp Require Import gmap strings list fin_maps pretty.

Local Open Scope string_scope.

(** ** Python values shared by the modules *)

(** What a Python call does: it returns a value or raises. *)
Inductive outcome (E A : Type) : Type :=
  | Returned (a : A)
  | Raised (e : E).
Arguments Returned {E A} a.
Arguments Raised {E A} e.

#[global] Instance outcome_ret {E} : MRet (outcome E) := fun A a => Returned a.
#[global] Instance outcome_bind {E} : MBind (outcome E) := fun A B k m =>
  match m with
  | Returned a => k a
  | Raised e => Raised e
  end.

(** The exceptions that the modelled code can meet; [ReaderError] stands
    for whatever the PSA reader raises on a file it cannot read. *)
Inductive py_exn : Type :=
  | ValueError
  | KeyError (key : string)
  | IndexError
  | RuntimeError (msg : string)
  | ReaderError (msg : string).

(** [l.index(x)]: the first position holding [x], [ValueError] when
    there is none. *)
Fixpoint list_index (x : string) (l : list string) : option nat :=
  match l with
  | [] => None
  | y :: l' => if String.eqb y x then Some 0 else S <$> list_index x l'
  end.

Definition py_index (x : string) (l : list string) : outcome py_exn nat :=
  match list_index x l with
  | Some i => Returned i
  | None => Raised ValueError
  end.

(** [l[i]] for an index that is not negative. *)
Definition py_getitem {A} (l : list A) (i : nat) : outcome py_exn A :=
  match l !! i with
  | Some a => Returned a
  | None => Raised IndexError
  end.

(** ** psa/importer.py: the bone mapper *)

Module Importer.

Section BoneMapper.

(** [str.lower]. The mapper only ever compares the lowered names, so it
    is kept as a parameter; [ascii_lower] below is the instance used to
    run the mapper on ASCII names. *)
Variable lower : string → string.

(** The loop of [_get_armature_bone_index_for_psa_bone], continued from
    position [armature_bone_index] of the enumeration. *)
Fixpoint bone_index_from (armature_bone_index : nat) (psa_bone_name : string)
    (armature_bone_names : list string) (bone_mapping_mode : string) : option nat :=
  match armature_bone_names with
  | [] => None
  | armature_bone_name :: rest =>
      if String.eqb bone_mapping_mode "CASE_INSENSITIVE" then
        if String.eqb (lower armature_bone_name) (lower psa_bone_name)
        then Some armature_bone_index
        else bone_index_from (S armature_bone_index) psa_bone_name rest bone_mapping_mode
      else
        if String.eqb armature_bone_name psa_bone_name
        then Some armature_bone_index
        else bone_index_from (S armature_bone_index) psa_bone_name rest bone_mapping_mode
  end.

Definition _get_armature_bone_index_for_psa_bone (psa_bone_name : string)
    (armature_bone_names : list string) (bone_mapping_mode : string) : option nat :=
  bone_index_from 0 psa_bone_name armature_bone_names bone_mapping_mode.

(** The equality policy of a mapping mode, on an armature bone name
    and a PSA bone name. *)
Definition names_equal (bone_mapping_mode armature_bone_name psa_bone_name : string) : Prop :=
  if decide (bone_mapping_mode = "CASE_INSENSITIVE")
  then lower armature_bone_name = lower psa_bone_name
  else armature_bone_name = psa_bone_name.

(** The four collections the mapping loop of [import_psa] fills. *)
Record bone_mapping : Type := {
  psa_to_armature_bone_indices : gmap nat nat;
  armature_to_psa_bone_indices : gmap nat nat;
  psa_bone_names : list string;
  duplicate_mappings : list (nat * nat * nat)
}.

Definition empty_mapping : bone_mapping :=
  {| psa_to_armature_bone_indices := ∅;
     armature_to_psa_bone_indices := ∅;
     psa_bone_names := [];
     duplicate_mappings := [] |}.

(** One iteration of the loop over [enumerate(psa_reader.bones)]; the
    bone is given by its decoded name. *)
Definition map_psa_bone (armature_bone_names : list string) (bone_mapping_mode : string)
    (st : bone_mapping) (psa_bone_index : nat) (psa_bone_name : string)
    : outcome py_exn bone_mapping :=
  match _get_armature_bone_index_for_psa_bone psa_bone_name armature_bone_names
          bone_mapping_mode with
  | Some armature_bone_index =>
      st' ← match armature_to_psa_bone_indices st !! armature_bone_index with
            | None =>
                i ← py_index psa_bone_name armature_bone_names;
                mret {| psa_to_armature_bone_indices :=
                          <[psa_bone_index := i]> (psa_to_armature_bone_indices st);
                        armature_to_psa_bone_indices :=
                          <[armature_bone_index := psa_bone_index]>
                            (armature_to_psa_bone_indices st);
                        psa_bone_names := psa_bone_names st;
                        duplicate_mappings := duplicate_mappings st |}
            | Some mapped_psa_bone_index =>
                mret {| psa_to_armature_bone_indices := psa_to_armature_bone_indices st;
                        armature_to_psa_bone_indices := armature_to_psa_bone_indices st;
                        psa_bone_names := psa_bone_names st;
                        duplicate_mappings :=
                          duplicate_mappings st ++
                            [(psa_bone_index, armature_bone_index, mapped_psa_bone_index)] |}
            end;
      armature_bone_name ← py_getitem armature_bone_names armature_bone_index;
      mret {| psa_to_armature_bone_indices := psa_to_armature_bone_indices st';
              armature_to_psa_bone_indices := armature_to_psa_bone_indices st';
              psa_bone_names := psa_bone_names st' ++ [armature_bone_name];
              duplicate_mappings := duplicate_mappings st' |}
  | None =>
      mret {| psa_to_armature_bone_indices := psa_to_armature_bone_indices st;
              armature_to_psa_bone_indices := armature_to_psa_bone_indices st;
              psa_bone_names := psa_bone_names st ++ [psa_bone_name];
              duplicate_mappings := duplicate_mappings st |}
  end.

Fixpoint map_psa_bones_from (armature_bone_names : list string) (bone_mapping_mode : string)
    (st : bone_mapping) (psa_bone_index : nat) (psa_bones : list string)
    : outcome py_exn bone_mapping :=
  match psa_bones with
  | [] => mret st
  | psa_bone_name :: rest =>
      st' ← map_psa_bone armature_bone_names bone_mapping_mode st psa_bone_index psa_bone_name;
      map_psa_bones_from armature_bone_names bone_mapping_mode st' (S psa_bone_index) rest
  end.

(** The state of the mapping loop after the bones [done] have been
    processed: no later bone is mapped yet, the claimed armature bones
    are the first matches of the bones in [done], and a bone in [done]
    whose first match no earlier bone had is mapped to it. *)
Definition mapped_so_far (names : list string) (mode : string)
    (done : list string) (st : bone_mapping) : Prop :=
  (∀ p : nat, (length done ≤ p)%nat → psa_to_armature_bone_indices st !! p = None) ∧
  (∀ i : nat, is_Some (armature_to_psa_bone_indices st !! i) ↔
        ∃ (p : nat) name, done !! p = Some name ∧
                  _get_armature_bone_index_for_psa_bone name names mode = Some i) ∧
  (∀ (p : nat) name (i : nat),
     done !! p = Some name →
     _get_armature_bone_index_for_psa_bone name names mode = Some i →
     (∀ (p' : nat) name', (p' < p)%nat → done !! p' = Some name' →
                  _get_armature_bone_index_for_psa_bone name' names mode ≠ Some i) →
     psa_to_armature_bone_indices st !! p = Some i).

(** The warnings of [import_psa], as the arguments of their f-strings. *)
Inductive warning : Type :=
  | DuplicateMapping (psa_bone_index : nat) (psa_bone_name : string)
      (armature_bone_index : nat) (armature_bone_name : string)
      (mapped_psa_bone_index : nat) (mapped_psa_bone_name : string)
  | MissingBones (armature_object_name : string) (missing_bone_names : gset string).

Fixpoint duplicate_warnings (psa_bone_names armature_bone_names : list string)
    (dups : list (nat * nat * nat)) : outcome py_exn (list warning) :=
  match dups with
  | [] => mret []
  | (psa_bone_index, armature_bone_index, mapped_psa_bone_index) :: rest =>
      psa_bone_name ← py_getitem psa_bone_names psa_bone_index;
      armature_bone_name ← py_getitem armature_bone_names armature_bone_index;
      mapped_psa_bone_name ← py_getitem psa_bone_names mapped_psa_bone_index;
      ws ← duplicate_warnings psa_bone_names armature_bone_names rest;
      mret (DuplicateMapping psa_bone_index psa_bone_name armature_bone_index
              armature_bone_name mapped_psa_bone_index mapped_psa_bone_name :: ws)
  end.

Record mapping_result : Type := {
  mapping : bone_mapping;
  missing_bone_names : gset string;
  warnings : list warning
}.

(** Lines 84-120 of [import_psa]: the index mapping, the duplicate
    warnings and the missing-bone report. *)
Definition import_psa_bone_mapping (armature_object_name : string)
    (psa_bones armature_bone_names : list string) (bone_mapping_mode : string)
    : outcome py_exn mapping_result :=
  st ← map_psa_bones_from armature_bone_names bone_mapping_mode empty_mapping 0 psa_bones;
  dup_ws ← duplicate_warnings (psa_bone_names st) armature_bone_names (duplicate_mappings st);
  let missing : gset string :=
    list_to_set (psa_bone_names st) ∖ list_to_set armature_bone_names in
  mret {| mapping := st;
          missing_bone_names := missing;
          warnings := dup_ws ++
            (if decide (0 < size missing)
             then [MissingBones armature_object_name missing] else []) |}.

End BoneMapper.

(** [str.lower] on ASCII text: the letters A-Z are lowered, every other
    character is kept. *)
Definition ascii_lower_char (c : ascii) : ascii :=
  let n := nat_of_ascii c in
  if ((65 <=? n)%nat && (n <=? 90)%nat)%bool then ascii_of_nat (n + 32) else c.

Fixpoint ascii_lower (s : string) : string :=
  match s with
  | EmptyString => EmptyString
  | String c s' => String (ascii_lower_char c) (ascii_lower s')
  end.

End Importer.

(** ** psa/export/operators.py: sequences and sample rates *)

Module PsaExport.

(** Python numbers: [marker.frame] and [render.fps] are ints, the frames
    of an action range and of an NLA strip are floats. Floats are taken
    as the rationals they denote. *)
Definition Qltb (a b : Q) : bool := negb (Qle_bool b a).

(** [max(a, b)] and [min(a, b)] return [a] unless [b] is strictly beyond it. *)
Definition py_max (a b : Q) : Q := if Qltb a b then b else a.
Definition py_min (a b : Q) : Q := if Qltb b a then b else a.

(** [max(xs)] and [min(xs)] of a sequence whose first element is [x]. *)
Definition py_max_seq (x : Q) (xs : list Q) : Q := fold_left py_max xs x.
Definition py_min_seq (x : Q) (xs : list Q) : Q := fold_left py_min xs x.

(** [int(x)] truncates towards zero. *)
Definition py_int (x : Q) : Z := if Qle_bool 0 x then Qfloor x else Qceiling x.

(** The values a custom property of an action can hold. *)
Inductive py_value : Type :=
  | PyInt (z : Z)
  | PyFloat (q : Q)
  | PyBool (b : bool)
  | PyStr (s : string).




Record TimelineMarker : Type := {
  marker_name : string;
  marker_frame : Z
}.

Record Action : Type := {
  action_name : string;
  frame_range : Q * Q;
  custom_properties : gmap string py_value;
  pose_markers : list TimelineMarker
}.

Record NlaStrip : Type := {
  strip_frame_start : Q;
  strip_frame_end : Q
}.

Record NlaTrack : Type := {
  mute : bool;
  strips : list NlaStrip
}.

Record AnimData : Type := {
  nla_tracks : list NlaTrack
}.

(** The parts of [context.scene] the functions read. *)
Record Context : Type := {
  scene_render_fps : Z;
  scene_timeline_markers : list TimelineMarker
}.





(** [sorted(markers, key=lambda x: x.frame)]: a stable sort. *)
Fixpoint insert_by_frame (m : TimelineMarker) (l : list TimelineMarker) : list TimelineMarker :=
  match l with
  | [] => [m]
  | x :: l' =>
      if (marker_frame m <=? marker_frame x)%Z then m :: l else x :: insert_by_frame m l'
  end.

Definition sorted_by_frame (l : list TimelineMarker) : list TimelineMarker :=
  foldr insert_by_frame [] l.

(** [timeline_markers[marker_name]]: the first marker of that name. *)
Definition marker_by_name (markers : list TimelineMarker) (name : string)
    : outcome py_exn TimelineMarker :=
  match List.find (fun m => String.eqb (marker_name m) name) markers with
  | Some m => Returned m
  | None => Raised (KeyError name)
  end.

(** The loop over the tracks when there is no next marker: [frame_end]
    starts at 0 and is raised to the end of every strip of a track that
    is not muted. *)
Definition nla_final_frame (animation_data : AnimData) : Q :=
  fold_left (fun frame_end nla_track =>
               if mute nla_track then frame_end
               else fold_left (fun frame_end strip => py_max frame_end (strip_frame_end strip))
                      (strips nla_track) frame_end)
    (nla_tracks animation_data) 0%Q.

(** The strips of the tracks that are not muted, in order. *)
Definition unmuted_strips (animation_data : AnimData) : list NlaStrip :=
  List.flat_map (fun nla_track => if mute nla_track then [] else strips nla_track)
    (nla_tracks animation_data).

Section TimelineMarkers.

(** [get_nla_strips_in_timeframe] of [helpers.py], taken as it is
    called: the strips of the animation data that lie in the frames from
    [frame_min] to [frame_max]. *)
Variable get_nla_strips_in_timeframe : AnimData → Z → Z → list NlaStrip.

(** The body of the loop of [get_timeline_marker_sequence_frame_ranges]
    for one marker name: [None] when the marker is skipped. *)
Definition marker_sequence_frame_range (animation_data : AnimData) (context : Context)
    (marker_name : string) : outcome py_exn (option (Z * Z)) :=
  let sorted_timeline_markers := sorted_by_frame (scene_timeline_markers context) in
  let sorted_timeline_marker_names := PsaExport.marker_name <$> sorted_timeline_markers in
  marker ← marker_by_name (scene_timeline_markers context) marker_name;
  let frame_start := inject_Z (marker_frame marker) in
  marker_index ← py_index marker_name sorted_timeline_marker_names;
  let next_marker_index := marker_index + 1 in
  let '(frame_start, frame_end) :=
    (* [if next_marker_index < len(sorted_timeline_markers)] *)
    match sorted_timeline_markers !! next_marker_index with
    | Some next_marker =>
        let frame_end := marker_frame next_marker in
        let nla_strips :=
          get_nla_strips_in_timeframe animation_data (marker_frame marker) frame_end in
        match nla_strips with
        | nla_strip :: rest =>
            (py_max frame_start
               (py_min_seq (strip_frame_start nla_strip) (strip_frame_start <$> rest)),
             py_min (inject_Z frame_end)
               (py_max_seq (strip_frame_end nla_strip) (strip_frame_end <$> rest)))
        | [] => (frame_start, frame_start)
        end
    | None => (frame_start, nla_final_frame animation_data)
    end in
  if Qltb frame_end frame_start then mret None
  else mret (Some (py_int frame_start, py_int frame_end)).

Fixpoint marker_ranges_loop (animation_data : AnimData) (context : Context)
    (marker_names : list string) (sequence_frame_ranges : gmap string (Z * Z))
    : outcome py_exn (gmap string (Z * Z)) :=
  match marker_names with
  | [] => mret sequence_frame_ranges
  | marker_name :: rest =>
      r ← marker_sequence_frame_range animation_data context marker_name;
      marker_ranges_loop animation_data context rest
        (match r with
         | Some range => <[marker_name := range]> sequence_frame_ranges
         | None => sequence_frame_ranges
         end)
  end.

Definition get_timeline_marker_sequence_frame_ranges (animation_data : AnimData)
    (context : Context) (marker_names : list string)
    : outcome py_exn (gmap string (Z * Z)) :=
  marker_ranges_loop animation_data context marker_names ∅.

End TimelineMarkers.

(** Modelled from the spec: [get_nla_strips_in_timeframe], whose source
    ([helpers.py]) is missing: the authored segments overlapping the
    window from [frame_min] to [frame_max], over the tracks in order. *)
Definition strip_overlaps (frame_min frame_max : Z) (strip : NlaStrip) : bool :=
  Qle_bool (strip_frame_start strip) (inject_Z frame_max)
  && Qle_bool (inject_Z frame_min) (strip_frame_end strip).

Definition overlapping_nla_strips (animation_data : AnimData) (frame_min frame_max : Z)
    : list NlaStrip :=
  List.flat_map (fun nla_track => List.filter (strip_overlaps frame_min frame_max) (strips nla_track))
    (nla_tracks animation_data).

(** *** The reversed-name pattern

    [re.match(r'(.+)/(.+)', name)]: [.] is any character but the line
    feed, [+] is greedy, the match starts at the first character and may
    end before the last. *)
Definition is_line_feed (c : ascii) : bool := Ascii.eqb c (ascii_of_nat 10).
Definition is_slash (c : ascii) : bool := Ascii.eqb c (ascii_of_nat 47).

(** Whether some character of [s] satisfies [p]. *)
Fixpoint string_exists (p : ascii → bool) (s : string) : bool :=
  match s with
  | EmptyString => false
  | String c s' => p c || string_exists p s'
  end.

(** What a greedy [.+] takes when nothing follows it in the pattern: the
    characters up to the first line feed. *)
Fixpoint dot_star (s : string) : string :=
  match s with
  | EmptyString => EmptyString
  | String c s' => if is_line_feed c then EmptyString else String c (dot_star s')
  end.

(** The pattern with a first group that may be empty (a star for its
    plus), matched at the start of [s] by backtracking: the first group
    first tries to take one more character, and gives it back when the
    rest does not match. *)
Fixpoint match_star_slash_plus (s : string) : option (string * string) :=
  match s with
  | EmptyString => None
  | String c s' =>
      if is_line_feed c then None
      else
        match match_star_slash_plus s' with
        | Some (group1, group2) => Some (String c group1, group2)
        | None =>
            if is_slash c then
              match dot_star s' with
              | EmptyString => None
              | group2 => Some (EmptyString, group2)
              end
            else None
        end
  end.

(** [(.+)/(.+)]: the first group takes at least one character. *)
Definition reversed_match (name : string) : option (string * string) :=
  match name with
  | EmptyString => None
  | String c s' =>
      if is_line_feed c then None
      else
        match match_star_slash_plus s' with
        | Some (group1, group2) => Some (String c group1, group2)
        | None => None
        end
  end.

(** The tail shared by the two extractors, from [reversed_pattern] on. *)
Definition sequences_of_name (name : string) (frame_start frame_end : Z)
    : list (string * Z * Z) :=
  match reversed_match name with
  | Some (forward_name, backwards_name) =>
      [(forward_name, frame_start, frame_end); (backwards_name, frame_end, frame_start)]
  | None => [(name, frame_start, frame_end)]
  end.

Definition get_sequences_from_action (action : Action) : list (string * Z * Z) :=
  let frame_start := py_int (fst (frame_range action)) in
  let frame_end := py_int (snd (frame_range action)) in
  sequences_of_name (action_name action) frame_start frame_end.

Definition get_sequences_from_action_pose_marker (action : Action)
    (pose_markers : list TimelineMarker) (pose_marker : TimelineMarker)
    (pose_marker_index : nat) : list (string * Z * Z) :=
  let frame_start := marker_frame pose_marker in
  let frame_end :=
    (* [if pose_marker_index + 1 < len(pose_markers)] *)
    match pose_markers !! (pose_marker_index + 1) with
    | Some next_pose_marker => marker_frame next_pose_marker
    | None => py_int (snd (frame_range action))
    end in
  sequences_of_name (marker_name pose_marker) frame_start frame_end.

End PsaExport.

(** ** psa/import_/operators.py: the import operator *)

Module PsaImport.

Record PSA_PG_import_action_list_item : Type := {
  item_action_name : string;
  is_selected : bool
}.

(** The property group [context.scene.psa_import], as [execute] reads it. *)
Record PSA_PG_import : Type := {
  sequence_list : list PSA_PG_import_action_list_item;
  pg_should_use_fake_user : bool;
  pg_should_stash : bool;
  pg_action_name_prefix : string;
  pg_should_use_action_name_prefix : bool;
  pg_should_overwrite : bool;
  pg_should_write_metadata : bool;
  pg_should_write_keyframes : bool;
  pg_should_convert_to_samples : bool;
  pg_bone_mapping_mode : string
}.

Record PsaImportOptions : Type := {
  should_use_fake_user : bool;
  should_stash : bool;
  sequence_names : list string;
  should_overwrite : bool;
  should_write_keyframes : bool;
  should_write_metadata : bool;
  action_name_prefix : string;
  should_convert_to_samples : bool;
  bone_mapping_mode : string
}.

Inductive operator_status : Type := CANCELLED | FINISHED.

Section Operator.

(** The collaborators of [execute]: the reader of [psa/reader.py], the
    host data ([bpy.data] and the scene, where actions live) and
    [import_psa] as a transformer of the host data. Constructing the
    reader opens and parses the file and can raise ([load_psa_file]
    catches it); [import_psa] can raise too, and what it did to the host
    data before stays done. *)
Variable PsaReader : Type.
Variable PsaReader_init : string → outcome py_exn PsaReader.
Variable BlendData : Type.
Variable import_psa :
  BlendData → PsaReader → PsaImportOptions → outcome py_exn (list string) * BlendData.

(** What the operator can change: the messages passed to [self.report]
    and the host data. *)
Record world : Type := {
  reports : list (string * string);
  blend_data : BlendData
}.

Definition report (kind message : string) (w : world) : world :=
  {| reports := reports w ++ [(kind, message)]; blend_data := blend_data w |}.

Definition line_feed : string := String (ascii_of_nat 10) EmptyString.

(** [PSA_OT_import.execute]. *)
Definition execute (filepath : string) (pg : PSA_PG_import) (w : world)
    : outcome py_exn operator_status * world :=
  match PsaReader_init filepath with
  | Raised e => (Raised e, w)
  | Returned psa_reader =>
      let sequence_names :=
        item_action_name <$> List.filter is_selected (sequence_list pg) in
      let options :=
        {| sequence_names := sequence_names;
           should_use_fake_user := pg_should_use_fake_user pg;
           should_stash := pg_should_stash pg;
           action_name_prefix :=
             if pg_should_use_action_name_prefix pg then pg_action_name_prefix pg else "";
           should_overwrite := pg_should_overwrite pg;
           should_write_metadata := pg_should_write_metadata pg;
           should_write_keyframes := pg_should_write_keyframes pg;
           should_convert_to_samples := pg_should_convert_to_samples pg;
           bone_mapping_mode := pg_bone_mapping_mode pg |} in
      if decide (length sequence_names = 0) then
        (Returned CANCELLED, report "ERROR_INVALID_CONTEXT" "No sequences selected" w)
      else
        match import_psa (blend_data w) psa_reader options with
        | (Raised e, data) => (Raised e, {| reports := reports w; blend_data := data |})
        | (Returned warnings, data) =>
            let w := {| reports := reports w; blend_data := data |} in
            let w :=
              if decide (0 < length warnings) then
                let message :=
                  "Imported " ++ pretty (length sequence_names) ++ " action(s) with "
                    ++ pretty (length warnings) ++ " warning(s)" ++ line_feed in
                foldl (fun w warning => report "WARNING" warning w)
                  (report "WARNING" message w) warnings
              else
                report "INFO" ("Imported " ++ pretty (length sequence_names) ++ " action(s)") w in
            (Returned FINISHED, w)
        end
  end.

End Operator.

End PsaImport.

(** ** psk/data.py: the PSK document *)

Module PskData.

Section Psk.

(** The ctypes and vector types that [psk/data.py] imports from
    [io_scene_psk_psa/data.py]. *)
Variables c_float Vector3 Vector2 Color Quaternion : Type.

Record Wedge : Type := {
  wedge_point_index : Z;
  wedge_u : c_float;
  wedge_v : c_float;
  wedge_material_index : Z
}.

Record Face : Type := {
  face_wedge_indices : Z * Z * Z;
  face_material_index : Z;
  face_aux_material_index : Z;
  face_smoothing_groups : Z
}.

Record Material : Type := {
  material_name : string;
  texture_index : Z;
  poly_flags : Z;
  aux_material : Z;
  aux_flags : Z;
  lod_bias : Z;
  lod_style : Z
}.

Record Bone : Type := {
  bone_name : string;
  bone_flags : Z;
  children_count : Z;
  parent_index : Z;
  bone_rotation : Quaternion;
  bone_location : Vector3;
  bone_length : c_float;
  bone_size : Vector3
}.

Record Weight : Type := {
  weight : c_float;
  weight_point_index : Z;
  weight_bone_index : Z
}.

Record MorphInfo : Type := {
  morph_name : string;
  vertex_count : Z
}.

Record MorphData : Type := {
  position_delta : Vector3;
  tangent_z_delta : Vector3;
  morph_point_index : Z
}.

Record Psk : Type := {
  points : list Vector3;
  wedges : list Wedge;
  faces : list Face;
  materials : list Material;
  weights : list Weight;
  bones : list Bone;
  extra_uvs : list Vector2;
  vertex_colors : list Color;
  vertex_normals : list Vector3;
  morph_infos : list MorphInfo;
  morph_data : list MorphData;
  material_references : list string
}.

(** [Psk.__init__]. *)
Definition Psk_init : Psk :=
  {| points := []; wedges := []; faces := []; materials := []; weights := [];
     bones := []; extra_uvs := []; vertex_colors := []; vertex_normals := [];
     morph_infos := []; morph_data := []; material_references := [] |}.

Definition has_extra_uvs (self : Psk) : bool := (0 <? length (extra_uvs self))%nat.
Definition has_vertex_colors (self : Psk) : bool := (0 <? length (vertex_colors self))%nat.
Definition has_vertex_normals (self : Psk) : bool := (0 <? length (vertex_normals self))%nat.
Definition has_material_references (self : Psk) : bool :=
  (0 <? length (material_references self))%nat.
Definition has_morph_data (self : Psk) : bool := (0 <? length (morph_infos self))%nat.

End Psk.

End PskData.

(** ** psa/importer.py: what the mapping loop is meant to leave behind *)

Module BoneMapping.

Import Importer.

Section Claimants.

Variable lower : string → string.
Variable armature_bone_names : list string.
Variable bone_mapping_mode : string.

(** The PSA bone at [psa_bone_index] of [psa_bones] has the armature bone
    [armature_bone_index] as its first match. *)
Definition first_match_of (psa_bones : list string) (psa_bone_index armature_bone_index : nat)
    : Prop :=
  ∃ psa_bone_name,
    psa_bones !! psa_bone_index = Some psa_bone_name ∧
    _get_armature_bone_index_for_psa_bone lower psa_bone_name armature_bone_names
      bone_mapping_mode = Some armature_bone_index.

(** It is the earliest such bone. *)
Definition earliest_claimant (psa_bones : list string) (psa_bone_index armature_bone_index : nat)
    : Prop :=
  first_match_of psa_bones psa_bone_index armature_bone_index ∧
  ∀ earlier : nat, (earlier < psa_bone_index)%nat →
                   ¬ first_match_of psa_bones earlier armature_bone_index.

(** The name the loop appends to [psa_bone_names] for a PSA bone. *)
Definition resolved_bone_name (psa_bone_name : string) : string :=
  match _get_armature_bone_index_for_psa_bone lower psa_bone_name armature_bone_names
          bone_mapping_mode with
  | Some armature_bone_index =>
      default psa_bone_name (armature_bone_names !! armature_bone_index)
  | None => psa_bone_name
  end.

(** The state of the loop after the bones [done]. *)
Definition claims_so_far (done : list string) (st : bone_mapping) : Prop :=
  (∀ i p : nat, armature_to_psa_bone_indices st !! i = Some p ↔ earliest_claimant done p i) ∧
  (∀ p k : nat, psa_to_armature_bone_indices st !! p = Some k ↔
                ∃ i name, earliest_claimant done p i ∧ done !! p = Some name ∧
                          py_index name armature_bone_names = Returned k) ∧
  (∀ p i c : nat, (p, i, c) ∈ duplicate_mappings st ↔
                  first_match_of done p i ∧ earliest_claimant done c i ∧ (c < p)%nat) ∧
  psa_bone_names st = resolved_bone_name <$> done.

End Claimants.


End BoneMapping.

(** ** psa/export/operators.py: the action and marker lists *)

Module PsaExportLists.

Import PsaExport.

(** [s.startswith('#')]. *)
Definition starts_with_hash (s : string) : bool :=
  match s with
  | String c _ => Ascii.eqb c (ascii_of_nat 35)
  | EmptyString => false
  end.

(** *** The data path pattern

    The pattern of [is_action_for_armature] is the text pose.bones[,
    a double quote, a first group of one or more characters that are not
    double quotes, a double quote and ], and then an optional group. No
    character of the first group can be given back, since what follows
    it is a double quote. *)
Definition is_double_quote (c : ascii) : bool := Ascii.eqb c (ascii_of_nat 34).
Definition is_closing_bracket (c : ascii) : bool := Ascii.eqb c (ascii_of_nat 93).

Definition double_quote_string : string := String (ascii_of_nat 34) "".

(** [s] without the prefix [p], when it starts with [p]. *)
Fixpoint strip_prefix (p s : string) : option string :=
  match p, s with
  | EmptyString, _ => Some s
  | String a p', String b s' => if Ascii.eqb a b then strip_prefix p' s' else None
  | String _ _, EmptyString => None
  end.

(** The characters before the first double quote, and the rest. *)
Fixpoint until_double_quote (s : string) : string * string :=
  match s with
  | EmptyString => (EmptyString, EmptyString)
  | String c s' =>
      if is_double_quote c then (EmptyString, s)
      else let '(name, rest) := until_double_quote s' in (String c name, rest)
  end.

(** [match.group(1)] of [re.match] of the pattern on [data_path], [None]
    when there is no match. *)
Definition data_path_bone_name (data_path : string) : option string :=
  match strip_prefix "pose.bones[" data_path with
  | Some (String c rest) =>
      if is_double_quote c then
        match until_double_quote rest with
        | (String n name, String c1 (String c2 _)) =>
            if is_double_quote c1 && is_closing_bracket c2 then Some (String n name) else None
        | _ => None
        end
      else None
  | _ => None
  end.

(** An action of [bpy.data.actions]: what [PsaExport.Action] holds and
    the data paths of its f-curves, in order. *)
Record ActionData : Type := {
  action : Action;
  fcurve_data_paths : list string
}.

(** The loop over the f-curves. *)
Fixpoint any_fcurve_for (bone_names : list string) (data_paths : list string) : bool :=
  match data_paths with
  | [] => false
  | data_path :: rest =>
      match data_path_bone_name data_path with
      | None => any_fcurve_for bone_names rest
      | Some bone_name =>
          if bool_decide (bone_name ∈ bone_names) then true
          else any_fcurve_for bone_names rest
      end
  end.

(** [is_action_for_armature], with the armature given by its bone names. *)
Definition is_action_for_armature (bone_names : list string) (a : ActionData) : bool :=
  if decide (length (fcurve_data_paths a) = 0) then false
  else any_fcurve_for bone_names (fcurve_data_paths a).

(** An object of the scene, as far as the export reads it. *)
Record Object : Type := {
  object_type : string;
  animation_data : option AnimData
}.

(** The items of [pg.action_list] and [pg.marker_list]. *)
Record PSA_PG_export_action_list_item : Type := {
  item_action : ActionData;
  item_name : string;
  item_is_selected : bool;
  item_is_pose_marker : bool;
  item_frame_start : Z;
  item_frame_end : Z
}.

Record PSA_PG_export_timeline_markers : Type := {
  marker_item_name : string;
  marker_item_is_selected : bool;
  marker_item_frame_start : Z;
  marker_item_frame_end : Z
}.

(** [get_animation_data_object], on the active object and the two
    override fields of the property group. *)
Definition get_animation_data_object (active_object : Object)
    (should_override_animation_data : bool) (animation_data_override : option Object)
    : outcome py_exn (option Object) :=
  if negb (String.eqb (object_type active_object) "ARMATURE") then
    Raised (RuntimeError "Selected object must be an Armature")
  else if should_override_animation_data then mret animation_data_override
  else mret (Some active_object).

(** The items an action adds to [pg.action_list]: those of the action
    itself unless its name starts with #, then those of its pose markers
    in frame order, without the markers whose name starts with #. *)
Definition action_item (a : ActionData) (is_pose_marker : bool) (sequence : string * Z * Z)
    : PSA_PG_export_action_list_item :=
  let '(name, frame_start, frame_end) := sequence in
  {| item_action := a; item_name := name; item_is_selected := false;
     item_is_pose_marker := is_pose_marker;
     item_frame_start := frame_start; item_frame_end := frame_end |}.

Fixpoint pose_marker_items_from (a : ActionData) (pose_markers : list TimelineMarker)
    (pose_marker_index : nat) (remaining : list TimelineMarker)
    : list PSA_PG_export_action_list_item :=
  match remaining with
  | [] => []
  | pose_marker :: rest =>
      (if starts_with_hash (marker_name pose_marker) then []
       else action_item a true <$>
              get_sequences_from_action_pose_marker (action a) pose_markers pose_marker
                pose_marker_index)
      ++ pose_marker_items_from a pose_markers (S pose_marker_index) rest
  end.

Definition items_of_action (a : ActionData) : list PSA_PG_export_action_list_item :=
  (if starts_with_hash (action_name (action a)) then []
   else action_item a false <$> get_sequences_from_action (action a))
  ++ (let pose_markers := sorted_by_frame (pose_markers (action a)) in
      pose_marker_items_from a pose_markers 0 pose_markers).

(** The loop that fills [pg.marker_list] from the frame ranges. *)
Fixpoint marker_items (sequence_frame_ranges : gmap string (Z * Z)) (marker_names : list string)
    : list PSA_PG_export_timeline_markers :=
  match marker_names with
  | [] => []
  | marker_name :: rest =>
      match sequence_frame_ranges !! marker_name with
      | None => marker_items sequence_frame_ranges rest
      | Some (frame_start, frame_end) =>
          if starts_with_hash marker_name then marker_items sequence_frame_ranges rest
          else {| marker_item_name := marker_name; marker_item_is_selected := false;
                  marker_item_frame_start := frame_start;
                  marker_item_frame_end := frame_end |}
               :: marker_items sequence_frame_ranges rest
      end
  end.

Section UpdateLists.

Variable get_nla_strips_in_timeframe : AnimData → Z → Z → list NlaStrip.

(** [update_actions_and_timeline_markers]: what it raises or returns, and
    the two lists as it leaves them. They are cleared first, so what they
    held before does not matter. *)
Definition update_actions_and_timeline_markers
    (context : Context) (active_object : Object)
    (should_override_animation_data : bool) (animation_data_override : option Object)
    (actions : list ActionData) (armature_bone_names : list string)
    : outcome py_exn ()
      * (list PSA_PG_export_action_list_item * list PSA_PG_export_timeline_markers) :=
  match get_animation_data_object active_object should_override_animation_data
          animation_data_override with
  | Raised e => (Raised e, ([], []))
  | Returned animation_data_object =>
      match animation_data_object ≫= animation_data with
      | None => (Returned (), ([], []))
      | Some animation_data =>
          let action_list :=
            List.flat_map items_of_action
              (List.filter (is_action_for_armature armature_bone_names) actions) in
          let marker_names := marker_name <$> scene_timeline_markers context in
          match get_timeline_marker_sequence_frame_ranges get_nla_strips_in_timeframe
                  animation_data context marker_names with
          | Raised e => (Raised e, (action_list, []))
          | Returned sequence_frame_ranges =>
              (Returned (), (action_list, marker_items sequence_frame_ranges marker_names))
          end
      end
  end.

End UpdateLists.

End PsaExportLists.

(** ** psa/import_/properties.py and the selection operators *)

Module PsaImportSelection.

Import PsaImport.

Definition bitflag_filter_item : Z := Z.shiftl 1 30.

(** The filter fields of [PSA_PG_import]. The code tests
    [sequence_filter_name] against [None], so it is an option here. *)
Record sequence_filter : Type := {
  sequence_filter_name : option string;
  sequence_use_filter_regex : bool;
  sequence_filter_is_selected : bool;
  sequence_use_filter_invert : bool
}.

(** [flt_flags[i] &= ~bitflag_filter_item] and
    [flt_flags[i] ^= bitflag_filter_item]. *)
Definition clear_filter_flag (flag : Z) : Z := Z.land flag (Z.lnot bitflag_filter_item).
Definition invert_filter_flag (flag : Z) : Z := Z.lxor flag bitflag_filter_item.

(** The loops over [enumerate(sequences)], entered at position [i]: the
    flag at the position of a sequence that is not kept is cleared, or
    every flag is inverted. *)
Fixpoint clear_flags_from (keep : PSA_PG_import_action_list_item → bool) (i : nat)
    (sequences : list PSA_PG_import_action_list_item) (flt_flags : list Z) : list Z :=
  match sequences with
  | [] => flt_flags
  | sequence :: rest =>
      clear_flags_from keep (S i) rest
        (if keep sequence then flt_flags else alter clear_filter_flag i flt_flags)
  end.

Fixpoint invert_flags_from (i : nat) (sequences : list PSA_PG_import_action_list_item)
    (flt_flags : list Z) : list Z :=
  match sequences with
  | [] => flt_flags
  | sequence :: rest => invert_flags_from (S i) rest (alter invert_filter_flag i flt_flags)
  end.

Section Filter.

(** [re.compile(pattern)], [None] when it raises [re.error], with
    [regex.match(name)] as a test; and [fnmatch(name, pattern)]. *)
Variable re_compile : string → option (string → bool).
Variable fnmatch : string → string → bool.

Definition filter_sequences (pg : sequence_filter)
    (sequences : list PSA_PG_import_action_list_item) : list Z :=
  let flt_flags := replicate (length sequences) bitflag_filter_item in
  let flt_flags :=
    match sequence_filter_name pg with
    | Some filter_name =>
        if sequence_use_filter_regex pg then
          match re_compile filter_name with
          | Some regex_match =>
              clear_flags_from (fun sequence => regex_match (item_action_name sequence))
                0 sequences flt_flags
          | None => flt_flags
          end
        else
          clear_flags_from
            (fun sequence => fnmatch (item_action_name sequence) ("*" ++ filter_name ++ "*"))
            0 sequences flt_flags
    | None => flt_flags
    end in
  let flt_flags :=
    if sequence_filter_is_selected pg
    then clear_flags_from is_selected 0 sequences flt_flags
    else flt_flags in
  if sequence_use_filter_invert pg then invert_flags_from 0 sequences flt_flags
  else flt_flags.

(** The loop of [get_visible_sequences] over [enumerate(flags)]. A
    sequence of the collection is given by its position in it, so that
    what an operator does to a visible sequence is done to the
    collection. *)
Fixpoint visible_from (i : nat) (flags : list Z) : list nat :=
  match flags with
  | [] => []
  | flag :: rest =>
      if Z.eqb (Z.land flag bitflag_filter_item) 0 then visible_from (S i) rest
      else i :: visible_from (S i) rest
  end.

Definition get_visible_sequences (pg : sequence_filter)
    (sequences : list PSA_PG_import_action_list_item) : list nat :=
  visible_from 0 (filter_sequences pg sequences).

(** Whether the filter shows a sequence. *)
Definition name_passes (pg : sequence_filter) (sequence : PSA_PG_import_action_list_item)
    : bool :=
  match sequence_filter_name pg with
  | Some filter_name =>
      if sequence_use_filter_regex pg then
        match re_compile filter_name with
        | Some regex_match => regex_match (item_action_name sequence)
        | None => true
        end
      else fnmatch (item_action_name sequence) ("*" ++ filter_name ++ "*")
  | None => true
  end.

Definition is_visible (pg : sequence_filter) (sequence : PSA_PG_import_action_list_item)
    : bool :=
  xorb (name_passes pg sequence
        && (negb (sequence_filter_is_selected pg) || is_selected sequence))
       (sequence_use_filter_invert pg).

(** [sequence.is_selected = value] for the sequence at position [i]. *)
Definition set_is_selected (value : bool) (sequences : list PSA_PG_import_action_list_item)
    (i : nat) : list PSA_PG_import_action_list_item :=
  alter (fun sequence => {| item_action_name := item_action_name sequence;
                            is_selected := value |}) i sequences.

(** [any(map(test, visible_sequences))]. *)
Definition any_visible (test : PSA_PG_import_action_list_item → bool)
    (sequences : list PSA_PG_import_action_list_item) (visible_sequences : list nat) : bool :=
  existsb (fun i => match sequences !! i with Some sequence => test sequence | None => false end)
    visible_sequences.

(** [PSA_OT_import_sequences_select_all]. *)
Definition select_all_poll (pg : sequence_filter)
    (sequences : list PSA_PG_import_action_list_item) : bool :=
  let visible_sequences := get_visible_sequences pg sequences in
  let has_unselected_actions :=
    any_visible (fun action => negb (is_selected action)) sequences visible_sequences in
  (0 <? length visible_sequences)%nat && has_unselected_actions.

Definition select_all_execute (pg : sequence_filter)
    (sequences : list PSA_PG_import_action_list_item) : list PSA_PG_import_action_list_item :=
  foldl (set_is_selected true) sequences (get_visible_sequences pg sequences).

(** [PSA_OT_import_sequences_deselect_all]. *)
Definition deselect_all_poll (pg : sequence_filter)
    (sequences : list PSA_PG_import_action_list_item) : bool :=
  let visible_sequences := get_visible_sequences pg sequences in
  let has_selected_sequences := any_visible is_selected sequences visible_sequences in
  (0 <? length visible_sequences)%nat && has_selected_sequences.

Definition deselect_all_execute (pg : sequence_filter)
    (sequences : list PSA_PG_import_action_list_item) : list PSA_PG_import_action_list_item :=
  foldl (set_is_selected false) sequences (get_visible_sequences pg sequences).

End Filter.

(** Instances to run the filter on: [fnmatch] for a pattern [*text*]
    whose text has no wildcard, which tests that the name contains the
    text, and [re.compile] for a pattern without special characters,
    which matches the names that start with it, and for the unbalanced
    pattern of one opening parenthesis, which does not compile. *)
Fixpoint contains (text name : string) : bool :=
  String.prefix text name
  || match name with
     | EmptyString => false
     | String _ rest => contains text rest
     end.

Fixpoint without_last (s : string) : string :=
  match s with
  | EmptyString => EmptyString
  | String c EmptyString => EmptyString
  | String c rest => String c (without_last rest)
  end.

Definition fnmatch_contains (name pattern : string) : bool :=
  match pattern with
  | EmptyString => false
  | String _ rest => contains (without_last rest) name
  end.

Definition re_compile_literal (pattern : string) : option (string → bool) :=
  if String.eqb pattern "(" then None else Some (String.prefix pattern).

(** [contents.split('\n')]. *)
Definition is_line_feed (c : ascii) : bool := Ascii.eqb c (ascii_of_nat 10).

Fixpoint split_lines (contents : string) : list string :=
  match contents with
  | EmptyString => [EmptyString]
  | String c rest =>
      if is_line_feed c then EmptyString :: split_lines rest
      else match split_lines rest with
           | line :: lines => String c line :: lines
           | [] => [String c EmptyString]
           end
  end.

(** The inner loop of [PSA_OT_import_sequences_from_text.execute]: every
    sequence named [line] is selected and counted. *)
Fixpoint select_named (line : string) (sequences : list PSA_PG_import_action_list_item)
    (count : nat) : list PSA_PG_import_action_list_item * nat :=
  match sequences with
  | [] => ([], count)
  | sequence :: rest =>
      if String.eqb (item_action_name sequence) line then
        let '(rest', count') := select_named line rest (count + 1) in
        ({| item_action_name := item_action_name sequence; is_selected := true |} :: rest',
         count')
      else
        let '(rest', count') := select_named line rest count in
        (sequence :: rest', count')
  end.

Fixpoint select_lines (lines : list string) (sequences : list PSA_PG_import_action_list_item)
    (count : nat) : list PSA_PG_import_action_list_item * nat :=
  match lines with
  | [] => (sequences, count)
  | line :: rest =>
      let '(sequences', count') := select_named line sequences count in
      select_lines rest sequences' count'
  end.

(** [PSA_OT_import_sequences_from_text.execute]: the status, the report
    and the sequence list as it leaves it. [select_text] is the text of
    the selected text block, if one is selected. *)
Definition select_from_text_execute (select_text : option string)
    (sequences : list PSA_PG_import_action_list_item)
    : operator_status * (string * string) * list PSA_PG_import_action_list_item :=
  match select_text with
  | None => (CANCELLED, ("ERROR_INVALID_CONTEXT", "No text block selected"), sequences)
  | Some contents =>
      let '(sequences', count) := select_lines (split_lines contents) sequences 0 in
      (FINISHED, ("INFO", "Selected " ++ pretty count ++ " sequence(s)"), sequences')
  end.

(** [load_psa_file]: what it leaves in [pg.sequence_list], [pg.psa.bones]
    and [pg.psa_error]. *)
Record psa_import_lists : Type := {
  loaded_sequence_list : list PSA_PG_import_action_list_item;
  loaded_bones : list string;
  psa_error : string
}.

(** The two loops: an item is added to the collection (selected, with an
    empty name, as the properties are declared) before the name is
    decoded, so it stays when the decoding raises. *)
Fixpoint add_sequences (decode : string → outcome py_exn string) (names : list string)
    (sequence_list : list PSA_PG_import_action_list_item)
    : outcome py_exn () * list PSA_PG_import_action_list_item :=
  match names with
  | [] => (Returned (), sequence_list)
  | name :: rest =>
      match decode name with
      | Raised e =>
          (Raised e, (sequence_list ++ [{| item_action_name := EmptyString; is_selected := true |}])%list)
      | Returned action_name =>
          add_sequences decode rest
            (sequence_list ++ [{| item_action_name := action_name; is_selected := true |}])%list
      end
  end.

Fixpoint add_bones (decode : string → outcome py_exn string) (names : list string)
    (bones : list string) : outcome py_exn () * list string :=
  match names with
  | [] => (Returned (), bones)
  | name :: rest =>
      match decode name with
      | Raised e => (Raised e, (bones ++ [EmptyString])%list)
      | Returned bone_name => add_bones decode rest (bones ++ [bone_name])%list
      end
  end.

Section Load.

(** The reader of [psa/reader.py] with the names of its sequences and
    bones as bytes, [bytes.decode('windows-1252')], [os.path.abspath] and
    [str] of an exception. *)
Variable PsaReader : Type.
Variable PsaReader_init : string → outcome py_exn PsaReader.
Variable reader_sequence_names : PsaReader → list string.
Variable reader_bone_names : PsaReader → list string.
Variable decode : string → outcome py_exn string.
Variable abspath : string → string.
Variable str_of_exception : py_exn → string.

Definition load_psa_file (filepath : string) : psa_import_lists :=
  match PsaReader_init (abspath filepath) with
  | Raised e =>
      {| loaded_sequence_list := []; loaded_bones := []; psa_error := str_of_exception e |}
  | Returned psa_reader =>
      match add_sequences decode (reader_sequence_names psa_reader) [] with
      | (Raised e, sequence_list) =>
          {| loaded_sequence_list := sequence_list; loaded_bones := [];
             psa_error := str_of_exception e |}
      | (Returned _, sequence_list) =>
          match add_bones decode (reader_bone_names psa_reader) [] with
          | (Raised e, bones) =>
              {| loaded_sequence_list := sequence_list; loaded_bones := bones;
                 psa_error := str_of_exception e |}
          | (Returned _, bones) =>
              {| loaded_sequence_list := sequence_list; loaded_bones := bones;
                 psa_error := EmptyString |}
          end
      end
  end.

End Load.

(** The items of a list of decoded names, as [load_psa_file] adds them. *)
Definition items_of_names (names : list string) : list PSA_PG_import_action_list_item :=
  (fun name => {| item_action_name := name; is_selected := true |}) <$> names.

(** Instances to run [load_psa_file] on. Decoding, for names of ASCII
    bytes and of the bytes that windows-1252 leaves undefined (129, 141,
    143, 144 and 157): a name with an undefined byte raises
    [UnicodeDecodeError], which is a [ValueError]. A reader, given by the
    names of its sequences and of its bones, for three files. *)
Definition undefined_in_windows_1252 (c : ascii) : bool :=
  existsb (Nat.eqb (nat_of_ascii c)) [129; 141; 143; 144; 157]%nat.

Fixpoint has_undefined_byte (s : string) : bool :=
  match s with
  | EmptyString => false
  | String c rest => undefined_in_windows_1252 c || has_undefined_byte rest
  end.

Definition decode_names (raw : string) : outcome py_exn string :=
  if has_undefined_byte raw then Raised ValueError else Returned raw.

Definition undecodable_name : string := String (ascii_of_nat 129) "Jump".

Definition example_reader (path : string) : outcome py_exn (list string * list string) :=
  if String.eqb path "walk.psa" then Returned (["Walk"; "Run"], ["Root"; "Spine"])
  else if String.eqb path "sequence.psa"
  then Returned (["Walk"; undecodable_name; "Run"], ["Root"; "Spine"])
  else if String.eqb path "bone.psa"
  then Returned (["Walk"; "Run"], ["Root"; undecodable_name; "Spine"])
  else Raised (ReaderError "no such file").

End PsaImportSelection.

(** ** psk/export/operators.py: the material list *)

Module PskExport.

(** A mesh object as [populate_material_list] reads it: the material
    slots of its mesh, each with the name of its material, or empty. *)
Record MeshObject : Type := {
  materials : list (option string)
}.

Record PSK_PG_material_list_item : Type := {
  material_name : string;
  index : nat
}.

(** [name in material_names]. *)
Definition name_in (name : string) (material_names : list string) : bool :=
  existsb (String.eqb name) material_names.

(** The inner loop over [enumerate(mesh_object.data.materials)], entered
    at slot [i]. *)
Fixpoint collect_materials (i : nat) (slots : list (option string))
    (material_names : list string) : outcome py_exn (list string) :=
  match slots with
  | [] => Returned material_names
  | None :: _ =>
      Raised (RuntimeError ("Material cannot be empty (index " ++ pretty i ++ ")"))
  | Some name :: rest =>
      collect_materials (S i) rest
        (if name_in name material_names then material_names
         else (material_names ++ [name])%list)
  end.

(** The outer loop over the mesh objects. *)
Fixpoint collect_mesh_objects (mesh_objects : list MeshObject)
    (material_names : list string) : outcome py_exn (list string) :=
  match mesh_objects with
  | [] => Returned material_names
  | mesh_object :: rest =>
      match collect_materials 0 (materials mesh_object) material_names with
      | Returned material_names' => collect_mesh_objects rest material_names'
      | Raised e => Raised e
      end
  end.

(** The loop over [enumerate(material_names)], entered at [index]. *)
Fixpoint add_materials (index : nat) (material_names : list string)
    : list PSK_PG_material_list_item :=
  match material_names with
  | [] => []
  | name :: rest =>
      {| material_name := name; index := index |} :: add_materials (S index) rest
  end.

(** [populate_material_list]: what the call does and the material list
    as it leaves it. The list is cleared before anything can raise. *)
Definition populate_material_list (mesh_objects : list MeshObject)
    (material_list : list PSK_PG_material_list_item)
    : outcome py_exn () * list PSK_PG_material_list_item :=
  match collect_mesh_objects mesh_objects [] with
  | Raised e => (Raised e, [])
  | Returned material_names => (Returned (), add_materials 0 material_names)
  end.

(** The material names of the mesh objects, slot after slot. *)
Definition slot_names (mesh_objects : list MeshObject) : list string :=
  omap (fun slot => slot) (List.flat_map materials mesh_objects).

(** The names of a list, each at its first occurrence. *)
Fixpoint keep_first (names : list string) : list string :=
  match names with
  | [] => []
  | name :: rest =>
      name :: List.filter (fun other => negb (String.eqb name other)) (keep_first rest)
  end.

(** [collection.move(src, dst)] of the host: the item at [src] is taken
    out and put back at [dst]; nothing happens when an index is outside
    the collection. *)
Definition collection_move {A : Type} (src dst : Z) (l : list A) : list A :=
  if ((0 <=? src)%Z && (src <? Z.of_nat (length l))%Z
      && (0 <=? dst)%Z && (dst <? Z.of_nat (length l))%Z)%bool
  then
    match l !! Z.to_nat src with
    | Some a =>
        let l' := delete (Z.to_nat src) l in
        (take (Z.to_nat dst) l' ++ a :: drop (Z.to_nat dst) l')%list
    | None => l
    end
  else l.

(** [pg.material_list] and [pg.material_list_index]. *)
Record PSK_PG_export : Type := {
  material_list : list PSK_PG_material_list_item;
  material_list_index : Z
}.

(** [PSK_OT_material_list_move_up]. *)
Definition move_up_poll (pg : PSK_PG_export) : bool :=
  (0 <? material_list_index pg)%Z.

Definition move_up_execute (pg : PSK_PG_export) : PSK_PG_export :=
  {| material_list :=
       collection_move (material_list_index pg) (material_list_index pg - 1)
         (material_list pg);
     material_list_index := material_list_index pg - 1 |}.

(** [PSK_OT_material_list_move_down]. *)
Definition move_down_poll (pg : PSK_PG_export) : bool :=
  (material_list_index pg <? Z.of_nat (length (material_list pg)) - 1)%Z.

Definition move_down_execute (pg : PSK_PG_export) : PSK_PG_export :=
  {| material_list :=
       collection_move (material_list_index pg) (material_list_index pg + 1)
         (material_list pg);
     material_list_index := material_list_index pg + 1 |}.

(** [options.material_names] of [PSK_OT_export.execute]. *)
Definition export_material_names (pg : PSK_PG_export) : list string :=
  material_name <$> material_list pg.

End PskExport.

(** * Theorems *)

(** ** The bone mapper *)

Module ImporterFacts.

Import Importer.

Section BoneIndex.

Variable lower : string → string.

Lemma names_equal_eqb mode a b :
  names_equal lower mode a b ↔
  (if String.eqb mode "CASE_INSENSITIVE"
   then String.eqb (lower a) (lower b) else String.eqb a b) = true.
Proof.
  unfold names_equal. destruct (decide (mode = "CASE_INSENSITIVE")) as [->|Hm].
  - rewrite String.eqb_refl. symmetry. apply String.eqb_eq.
  - apply String.eqb_neq in Hm. rewrite Hm. symmetry. apply String.eqb_eq.
Qed.

(** What the loop returns when it is entered at position [k]. *)
Lemma bone_index_from_spec (names : list string) k name mode :
  match bone_index_from lower k name names mode with
  | Some i =>
      ∃ n a, i = k + n ∧ names !! n = Some a ∧ names_equal lower mode a name ∧
             ∀ j b, j < n → names !! j = Some b → ¬ names_equal lower mode b name
  | None => ∀ a, a ∈ names → ¬ names_equal lower mode a name
  end.
Proof.
  revert k. induction names as [|a names IH]; intros k; simpl.
  - intros a Ha. by apply not_elem_of_nil in Ha.
  - pose proof (names_equal_eqb mode a name) as Hab.
    destruct (String.eqb mode "CASE_INSENSITIVE");
      match goal with
      | |- context [if ?c then Some k else _] => destruct c eqn:Hc
      end.
    all: try (exists 0, a; repeat split; [lia | by apply Hab | intros j b Hj; lia]).
    all: specialize (IH (S k));
      destruct (bone_index_from lower (S k) name names _) as [i|].
    all: try (destruct IH as (n & b & -> & Hn & Hb & Hfirst);
              exists (S n), b; repeat split; [lia | done | done |];
              intros [|j] c Hj Hc'; simpl in Hc';
              [ injection Hc' as <-; rewrite Hab; congruence
              | apply (Hfirst j); [lia | done] ]).
    all: intros c Hc'; apply elem_of_cons in Hc' as [->|Hc'];
      [ rewrite Hab; congruence | by apply IH ].
Qed.

Lemma bone_index_from_zero names name mode i :
  bone_index_from lower 0 name names mode = Some i ↔
  (∃ a, names !! i = Some a ∧ names_equal lower mode a name) ∧
  (∀ j b, j < i → names !! j = Some b → ¬ names_equal lower mode b name).
Proof.
  pose proof (bone_index_from_spec names 0 name mode) as Hspec.
  destruct (bone_index_from lower 0 name names mode) as [i'|]; split.
  - intros [= <-]. destruct Hspec as (n & a & -> & Hn & Ha & Hfirst). eauto.
  - intros [(a & Hi & Ha) Hfirst].
    destruct Hspec as (n & a' & -> & Hn & Ha' & Hfirst'). simpl. f_equal.
    destruct (Nat.lt_trichotomy n i) as [Hlt|[->|Hlt]]; [|done|].
    + by destruct (Hfirst n a' Hlt Hn).
    + by destruct (Hfirst' i a Hlt Hi).
  - done.
  - intros [(a & Hi & Ha) _]. destruct (Hspec a); [|done].
    by apply list_elem_of_lookup_2 in Hi.
Qed.

(** C9. For every bone name, list of armature bone names and mode
    string, [_get_armature_bone_index_for_psa_bone] returns the
    smallest index whose name equals the bone name under the mode, and
    [None] exactly when no name does; a mode string other than
    CASE_INSENSITIVE, recognised or not, compares the names exactly as
    EXACT does. *)
Theorem get_armature_bone_index_first_match
    (psa_bone_name : string) (armature_bone_names : list string) (mode : string) :
  (∀ i, _get_armature_bone_index_for_psa_bone lower psa_bone_name armature_bone_names mode
          = Some i ↔
        (∃ a, armature_bone_names !! i = Some a ∧ names_equal lower mode a psa_bone_name) ∧
        (∀ j b, j < i → armature_bone_names !! j = Some b →
                ¬ names_equal lower mode b psa_bone_name)) ∧
  (_get_armature_bone_index_for_psa_bone lower psa_bone_name armature_bone_names mode = None ↔
     ∀ a, a ∈ armature_bone_names → ¬ names_equal lower mode a psa_bone_name) ∧
  (mode ≠ "CASE_INSENSITIVE" →
     (∀ a b, names_equal lower mode a b ↔ a = b) ∧
     _get_armature_bone_index_for_psa_bone lower psa_bone_name armature_bone_names mode =
     _get_armature_bone_index_for_psa_bone lower psa_bone_name armature_bone_names "EXACT").
Proof.
  unfold _get_armature_bone_index_for_psa_bone. split; [|split].
  - intros i. apply bone_index_from_zero.
  - pose proof (bone_index_from_spec armature_bone_names 0 psa_bone_name mode) as Hspec.
    destruct (bone_index_from lower 0 psa_bone_name armature_bone_names mode) as [i|].
    + split; [done|]. intros Hnone.
      destruct Hspec as (n & a & _ & Hn & Ha & _).
      destruct (Hnone a); [|done]. by apply list_elem_of_lookup_2 in Hn.
    + done.
  - intros Hmode. split.
    + intros a b. unfold names_equal. by destruct (decide _).
    + apply String.eqb_neq in Hmode.
      generalize 0. induction armature_bone_names as [|a names IH]; intros k; [done|].
      simpl. rewrite Hmode. destruct (String.eqb a psa_bone_name); [done|]. apply IH.
Qed.

(** The index is within the list and the name there is equal under the mode. *)
Lemma get_armature_bone_index_Some names name mode i :
  _get_armature_bone_index_for_psa_bone lower name names mode = Some i →
  ∃ a, names !! i = Some a ∧ names_equal lower mode a name.
Proof. intros H. by apply bone_index_from_zero in H as [? _]. Qed.

(** In a mode that compares exactly, [list.index] of the bone name finds
    the index the mapper found. *)
Lemma py_index_first_exact_match names name mode i :
  mode ≠ "CASE_INSENSITIVE" →
  _get_armature_bone_index_for_psa_bone lower name names mode = Some i →
  py_index name names = Returned i.
Proof.
  intros Hmode%String.eqb_neq. unfold _get_armature_bone_index_for_psa_bone, py_index.
  assert (∀ k, bone_index_from lower k name names mode = (λ n, k + n) <$> list_index name names)
    as Hfrom.
  { induction names as [|a names IH]; intros k; simpl; [done|]. rewrite Hmode.
    destruct (String.eqb a name); simpl; [f_equal; lia|].
    rewrite IH. destruct (list_index name names); simpl; [f_equal; lia|done]. }
  rewrite Hfrom. destruct (list_index name names); simpl; [|done]. by intros [= ->].
Qed.

(** *** The mapping loop in a mode that compares exactly *)

Lemma map_psa_bone_exact names mode done st name :
  mode ≠ "CASE_INSENSITIVE" →
  mapped_so_far lower names mode done st →
  ∃ st', map_psa_bone lower names mode st (length done) name = Returned st' ∧
         mapped_so_far lower names mode (done ++ [name])%list st'.
Proof.
  intros Hmode (Hlater & Hclaimed & Hmapped). unfold map_psa_bone.
  assert (∀ (p : nat) n, (done ++ [name])%list !! p = Some n →
                 ((p < length done)%nat ∧ done !! p = Some n) ∨ (p = length done ∧ n = name))
    as Hsnoc.
  { intros p n Hp. destruct (decide (p < length done)) as [Hlt|Hge].
    - left. by rewrite lookup_app_l in Hp.
    - right. rewrite lookup_app_r in Hp by lia.
      destruct (p - length done) as [|d] eqn:Hd; [|done].
      injection Hp as <-. split; [lia|done]. }
  destruct (_get_armature_bone_index_for_psa_bone lower name names mode) as [i|] eqn:Hget.
  - destruct (get_armature_bone_index_Some names name mode i Hget) as (a & Ha & _).
    unfold py_getitem. rewrite Ha.
    destruct (armature_to_psa_bone_indices st !! i) as [mapped|] eqn:Hi; simpl.
    + eexists. split; [done|]. repeat split; simpl.
      * intros p Hp. rewrite length_app in Hp. simpl in Hp. apply Hlater. lia.
      * intros Hsome. apply Hclaimed in Hsome as (p & n & Hp & Hn).
        exists p, n. split; [|done]. by apply lookup_app_l_Some.
      * intros (p & n & Hp & Hn). apply Hsnoc in Hp as [[_ Hp]|[_ ->]].
        -- apply Hclaimed. eauto.
        -- rewrite Hget in Hn. injection Hn as <-. by rewrite Hi.
      * intros p n j Hp Hn Hfirst. apply Hsnoc in Hp as [[Hlt Hp]|[-> ->]].
        -- apply (Hmapped p n j Hp Hn). intros p' n' Hp' Hn'.
           apply (Hfirst p' n' Hp'). by apply lookup_app_l_Some.
        -- rewrite Hget in Hn. injection Hn as <-.
           assert (is_Some (armature_to_psa_bone_indices st !! i)) as Hsome by (by rewrite Hi).
           apply Hclaimed in Hsome as (p' & n' & Hp' & Hn').
           destruct (Hfirst p' n'); [by eapply lookup_lt_Some | by apply lookup_app_l_Some | done].
    + rewrite (py_index_first_exact_match names name mode i Hmode Hget). simpl.
      eexists. split; [done|]. repeat split; simpl.
      * intros p Hp. rewrite length_app in Hp. simpl in Hp.
        rewrite lookup_insert_ne by lia. apply Hlater. lia.
      * intros Hsome. destruct (decide (i0 = i)) as [->|Hne].
        -- exists (length done), name. split; [|done].
           rewrite lookup_app_r by lia. by rewrite Nat.sub_diag.
        -- rewrite lookup_insert_ne in Hsome by done.
           apply Hclaimed in Hsome as (p & n & Hp & Hn).
           exists p, n. split; [|done]. by apply lookup_app_l_Some.
      * intros (p & n & Hp & Hn). destruct (decide (i0 = i)) as [->|Hne].
        -- by rewrite lookup_insert_eq.
        -- rewrite lookup_insert_ne by done. apply Hsnoc in Hp as [[_ Hp]|[_ ->]].
           ++ apply Hclaimed. eauto.
           ++ rewrite Hget in Hn. by injection Hn as ->.
      * intros p n j Hp Hn Hfirst. apply Hsnoc in Hp as [[Hlt Hp]|[-> ->]].
        -- rewrite lookup_insert_ne by lia.
           apply (Hmapped p n j Hp Hn). intros p' n' Hp' Hn'.
           apply (Hfirst p' n' Hp'). by apply lookup_app_l_Some.
        -- rewrite Hget in Hn. injection Hn as <-. by rewrite lookup_insert_eq.
  - simpl. eexists. split; [done|]. repeat split; simpl.
    + intros p Hp. rewrite length_app in Hp. simpl in Hp. apply Hlater. lia.
    + intros Hsome. apply Hclaimed in Hsome as (p & n & Hp & Hn).
      exists p, n. split; [|done]. by apply lookup_app_l_Some.
    + intros (p & n & Hp & Hn). apply Hsnoc in Hp as [[_ Hp]|[_ ->]].
      * apply Hclaimed. eauto.
      * by rewrite Hget in Hn.
    + intros p n j Hp Hn Hfirst. apply Hsnoc in Hp as [[Hlt Hp]|[-> ->]].
      * apply (Hmapped p n j Hp Hn). intros p' n' Hp' Hn'.
        apply (Hfirst p' n' Hp'). by apply lookup_app_l_Some.
      * by rewrite Hget in Hn.
Qed.

Lemma map_psa_bones_from_exact names mode rest done st :
  mode ≠ "CASE_INSENSITIVE" →
  mapped_so_far lower names mode done st →
  ∃ st', map_psa_bones_from lower names mode st (length done) rest = Returned st' ∧
         mapped_so_far lower names mode (done ++ rest)%list st'.
Proof.
  intros Hmode. revert done st. induction rest as [|name rest IH]; intros done st Hst; simpl.
  - exists st. by rewrite app_nil_r.
  - destruct (map_psa_bone_exact names mode done st name Hmode Hst) as (st1 & -> & Hst1).
    simpl. specialize (IH _ _ Hst1) as (st' & Hloop & Hst').
    rewrite length_app, Nat.add_1_r in Hloop. exists st'. split; [done|].
    by rewrite <- app_assoc in Hst'.
Qed.

(** In a mode other than CASE_INSENSITIVE the mapping loop does not raise,
    and every PSA bone that has a first match which no earlier bone has
    is mapped to it. *)
Lemma bone_mapping_exact_first_match names mode psa_bones :
  mode ≠ "CASE_INSENSITIVE" →
  ∃ st, map_psa_bones_from lower names mode empty_mapping 0 psa_bones = Returned st ∧
        ∀ (p : nat) name (i : nat),
          psa_bones !! p = Some name →
          _get_armature_bone_index_for_psa_bone lower name names mode = Some i →
          (∀ (p' : nat) name', (p' < p)%nat → psa_bones !! p' = Some name' →
                       _get_armature_bone_index_for_psa_bone lower name' names mode ≠ Some i) →
          psa_to_armature_bone_indices st !! p = Some i.
Proof.
  intros Hmode.
  destruct (map_psa_bones_from_exact names mode psa_bones [] empty_mapping Hmode)
    as (st & Hloop & _ & _ & Hmapped).
  - repeat split; simpl.
    + intros [? Hsome]. by rewrite lookup_empty in Hsome.
    + by intros (p & name & Hp & _).
    + by intros p name i Hp.
  - exists st. split; [exact Hloop|exact Hmapped].
Qed.

End BoneIndex.

(** A use of C9: with the ASCII lowering and the names Root and Head, the
    bone HEAD is found at index 1 when case is ignored and not at all
    under a mode string the code does not know. *)
Lemma get_armature_bone_index_first_match_witness :
  _get_armature_bone_index_for_psa_bone ascii_lower "HEAD" ["Root"; "Head"] "CASE_INSENSITIVE"
    = Some 1 ∧
  _get_armature_bone_index_for_psa_bone ascii_lower "HEAD" ["Root"; "Head"] "exact"
    = _get_armature_bone_index_for_psa_bone ascii_lower "HEAD" ["Root"; "Head"] "EXACT".
Proof.
  destruct (get_armature_bone_index_first_match ascii_lower "HEAD" ["Root"; "Head"]
              "CASE_INSENSITIVE") as (Hsome & _ & _).
  destruct (get_armature_bone_index_first_match ascii_lower "HEAD" ["Root"; "Head"]
              "exact") as (_ & _ & Hexact).
  split.
  - apply Hsome. split.
    + exists "Head". split; reflexivity.
    + intros [|[|j]] b Hj Hb; [|lia|lia].
      injection Hb as <-. vm_compute. discriminate.
  - apply Hexact. discriminate.
Defined.

(** C3. Mapping the source bones Root, Head, head onto the target bones
    Root, Head with case ignored returns (it does not raise) this one
    result: bone 0 mapped to 0 and bone 1 to 1, bone 2 left without a
    mapping, target 1 claimed by bone 1, exactly the collision
    (2, 1, 1) and its warning, and no missing bone name. *)
Theorem bone_mapping_root_head_head :
  ∃ r, import_psa_bone_mapping ascii_lower "Armature" ["Root"; "Head"; "head"]
         ["Root"; "Head"] "CASE_INSENSITIVE" = Returned r ∧
       psa_to_armature_bone_indices (mapping r) = {[0 := 0; 1 := 1]} ∧
       psa_to_armature_bone_indices (mapping r) !! 2 = None ∧
       armature_to_psa_bone_indices (mapping r) = {[0 := 0; 1 := 1]} ∧
       duplicate_mappings (mapping r) = [(2, 1, 1)] ∧
       warnings r = [DuplicateMapping 2 "Head" 1 "Head" 1 "Head"] ∧
       missing_bone_names r = ∅.
Proof.
  eexists. split; [vm_compute; reflexivity|].
  repeat split; vm_compute; reflexivity.
Qed.

(** C2, at the input where the code departs from it. With case ignored
    the PSA bone head matches the armature bone Head at index 0, which no
    other bone has claimed, yet the mapping loop raises [ValueError]
    instead of mapping bone 0 to index 0: the index it stores is looked
    up again with [list.index], which compares exactly. With the armature
    bones Head, head the same bone is mapped to index 1, not to its first
    match 0. *)
Theorem bone_mapping_case_insensitive_lookup_is_exact :
  _get_armature_bone_index_for_psa_bone ascii_lower "head" ["Head"] "CASE_INSENSITIVE"
    = Some 0 ∧
  import_psa_bone_mapping ascii_lower "Armature" ["head"] ["Head"] "CASE_INSENSITIVE"
    = Raised ValueError ∧
  _get_armature_bone_index_for_psa_bone ascii_lower "head" ["Head"; "head"] "CASE_INSENSITIVE"
    = Some 0 ∧
  ∃ r, import_psa_bone_mapping ascii_lower "Armature" ["head"] ["Head"; "head"]
         "CASE_INSENSITIVE" = Returned r ∧
       psa_to_armature_bone_indices (mapping r) !! 0 = Some 1.
Proof.
  split; [reflexivity|]. split; [reflexivity|]. split; [reflexivity|].
  eexists. split; vm_compute; reflexivity.
Qed.

End ImporterFacts.

(** ** The PSK document *)

Module PskFacts.

Import PskData.

Section Psk.

Context {c_float Vector3 Vector2 Color Quaternion : Type}.

Abbreviation Psk := (Psk c_float Vector3 Vector2 Color Quaternion).

(** C10. [has_morph_data] is true exactly when [morph_infos] is not
    empty; two documents with the same [morph_infos] have the same
    flag, whatever their [morph_data]; with no [morph_infos] the flag
    is false. *)
Theorem has_morph_data_iff_morph_infos (self : Psk) :
  (has_morph_data _ _ _ _ _ self = true ↔ morph_infos _ _ _ _ _ self ≠ []) ∧
  (∀ other : Psk, morph_infos _ _ _ _ _ other = morph_infos _ _ _ _ _ self →
                  has_morph_data _ _ _ _ _ other = has_morph_data _ _ _ _ _ self) ∧
  (morph_infos _ _ _ _ _ self = [] → has_morph_data _ _ _ _ _ self = false).
Proof.
  unfold has_morph_data. split; [|split].
  - destruct (morph_infos _ _ _ _ _ self); simpl; split; intros H; done.
  - by intros other ->.
  - by intros ->.
Qed.

End Psk.

(** A use of C10: a fresh document given one morph delta and no morph
    info reports no morph data. *)
Lemma has_morph_data_iff_morph_infos_witness :
  let delta : MorphData (Z * Z * Z) :=
    {| position_delta := (1, 0, 0)%Z; tangent_z_delta := (0, 0, 1)%Z;
       morph_point_index := 7 |} in
  let psk : Psk Q (Z * Z * Z) (Q * Q) Z (Q * Q * Q * Q) :=
    {| points := []; wedges := []; faces := []; materials := []; weights := [];
       bones := []; extra_uvs := []; vertex_colors := []; vertex_normals := [];
       morph_infos := []; morph_data := [delta]; material_references := [] |} in
  morph_data _ _ _ _ _ psk ≠ [] ∧ has_morph_data _ _ _ _ _ psk = false.
Proof.
  intros delta psk. split; [discriminate|].
  apply (has_morph_data_iff_morph_infos psk). reflexivity.
Defined.

End PskFacts.

(** ** Sample rates and sequences *)

Module PsaExportFacts.

Import PsaExport.

Lemma Qltb_lt a b : Qltb a b = true ↔ (a < b)%Q.
Proof.
  unfold Qltb. rewrite negb_true_iff, <- not_true_iff_false, Qle_bool_iff.
  split; [apply Qnot_le_lt | apply Qlt_not_le].
Qed.

Lemma Qltb_ge a b : Qltb a b = false ↔ (b <= a)%Q.
Proof. unfold Qltb. by rewrite negb_false_iff, Qle_bool_iff. Qed.





(** *** The reversed-name pattern *)



Lemma is_slash_not_line_feed c : is_slash c = true → is_line_feed c = false.
Proof. unfold is_slash, is_line_feed. by intros ->%Ascii.eqb_eq. Qed.

Lemma append_nil_l (s : string) : "" ++ s = s.
Proof. reflexivity. Qed.

Lemma append_cons c (s t : string) : String c s ++ t = String c (s ++ t).
Proof. reflexivity. Qed.








(** *** Frames *)

Lemma py_int_inject_Z z : py_int (inject_Z z) = z.
Proof. unfold py_int. destruct (Qle_bool 0 (inject_Z z)); [apply Qfloor_Z | apply Qceiling_Z]. Qed.

(** Cutting to an integer keeps the order. *)
Lemma py_int_mono a b : (a <= b)%Q → (py_int a <= py_int b)%Z.
Proof.
  intros Hab. unfold py_int.
  destruct (Qle_bool 0 a) eqn:Ha; destruct (Qle_bool 0 b) eqn:Hb.
  - by apply Qfloor_resp_le.
  - apply Qle_bool_iff in Ha. apply not_true_iff_false in Hb. destruct Hb.
    apply Qle_bool_iff. by eapply Qle_trans.
  - apply not_true_iff_false in Ha. rewrite Qle_bool_iff in Ha. apply Qnot_le_lt in Ha.
    apply Qle_bool_iff in Hb.
    transitivity 0%Z.
    + change 0%Z with (Qceiling 0). apply Qceiling_resp_le. by apply Qlt_le_weak.
    + change 0%Z with (Qfloor 0). by apply Qfloor_resp_le.
  - by apply Qceiling_resp_le.
Qed.

Lemma py_max_spec a b : (a <= py_max a b)%Q ∧ (b <= py_max a b)%Q ∧ (py_max a b = a ∨ py_max a b = b).
Proof.
  unfold py_max. destruct (Qltb a b) eqn:H.
  - apply Qltb_lt in H. split; [by apply Qlt_le_weak|]. split; [apply Qle_refl | by right].
  - apply Qltb_ge in H. split; [apply Qle_refl|]. split; [done | by left].
Qed.

Lemma py_min_spec a b : (py_min a b <= a)%Q ∧ (py_min a b <= b)%Q ∧ (py_min a b = a ∨ py_min a b = b).
Proof.
  unfold py_min. destruct (Qltb b a) eqn:H.
  - apply Qltb_lt in H. split; [by apply Qlt_le_weak|]. split; [apply Qle_refl | by right].
  - apply Qltb_ge in H. split; [apply Qle_refl|]. split; [done | by left].
Qed.

Lemma py_max_seq_spec xs x :
  (∀ y, y ∈ x :: xs → (y <= py_max_seq x xs)%Q) ∧ py_max_seq x xs ∈ x :: xs.
Proof.
  unfold py_max_seq. revert x. induction xs as [|z xs IH]; intros x; simpl.
  - split; [|apply list_elem_of_here].
    intros y ->%list_elem_of_singleton. apply Qle_refl.
  - destruct (IH (py_max x z)) as [Hub Hin]. destruct (py_max_spec x z) as (Hx & Hz & Hor).
    split.
    + intros y [->|[->|Hy]%elem_of_cons]%elem_of_cons.
      * eapply Qle_trans; [exact Hx|]. apply Hub, list_elem_of_here.
      * eapply Qle_trans; [exact Hz|]. apply Hub, list_elem_of_here.
      * by apply Hub, list_elem_of_further.
    + apply elem_of_cons in Hin as [->|Hin].
      * destruct Hor as [->| ->]; [apply list_elem_of_here|].
        apply list_elem_of_further, list_elem_of_here.
      * by do 2 apply list_elem_of_further.
Qed.

Lemma py_min_seq_spec xs x :
  (∀ y, y ∈ x :: xs → (py_min_seq x xs <= y)%Q) ∧ py_min_seq x xs ∈ x :: xs.
Proof.
  unfold py_min_seq. revert x. induction xs as [|z xs IH]; intros x; simpl.
  - split; [|apply list_elem_of_here].
    intros y ->%list_elem_of_singleton. apply Qle_refl.
  - destruct (IH (py_min x z)) as [Hlb Hin]. destruct (py_min_spec x z) as (Hx & Hz & Hor).
    split.
    + intros y [->|[->|Hy]%elem_of_cons]%elem_of_cons.
      * eapply Qle_trans; [|exact Hx]. apply Hlb, list_elem_of_here.
      * eapply Qle_trans; [|exact Hz]. apply Hlb, list_elem_of_here.
      * by apply Hlb, list_elem_of_further.
    + apply elem_of_cons in Hin as [->|Hin].
      * destruct Hor as [->| ->]; [apply list_elem_of_here|].
        apply list_elem_of_further, list_elem_of_here.
      * by do 2 apply list_elem_of_further.
Qed.

(** *** Marker ranges *)

Lemma nla_final_frame_unmuted animation_data :
  nla_final_frame animation_data
    = py_max_seq 0 (strip_frame_end <$> unmuted_strips animation_data).
Proof.
  unfold nla_final_frame, unmuted_strips, py_max_seq. generalize 0%Q.
  induction (nla_tracks animation_data) as [|t ts IH]; intros q; simpl; [done|].
  rewrite fmap_app, fold_left_app, IH. f_equal.
  destruct (mute t); [done|]. generalize q.
  induction (strips t) as [|x xs IHs]; intros q'; simpl; [done|]. apply IHs.
Qed.

Lemma elem_of_unmuted_strips animation_data strip :
  strip ∈ unmuted_strips animation_data ↔
  ∃ nla_track, nla_track ∈ nla_tracks animation_data ∧ mute nla_track = false ∧
               strip ∈ strips nla_track.
Proof.
  unfold unmuted_strips. rewrite list_elem_of_In, in_flat_map. split.
  - intros (t & Ht & Hs). exists t. rewrite list_elem_of_In. split; [done|].
    destruct (mute t); [done|]. by rewrite list_elem_of_In.
  - intros (t & Ht & Hm & Hs). exists t. rewrite <- list_elem_of_In. split; [done|].
    rewrite Hm. by rewrite <- list_elem_of_In.
Qed.

(** The final frame is 0 or the end of a strip of a track that is not
    muted, and neither 0 nor the end of any such strip is beyond it. *)
Lemma nla_final_frame_spec animation_data :
  (0 <= nla_final_frame animation_data)%Q ∧
  (∀ strip, strip ∈ unmuted_strips animation_data →
            (strip_frame_end strip <= nla_final_frame animation_data)%Q) ∧
  (nla_final_frame animation_data = 0%Q ∨
   ∃ strip, strip ∈ unmuted_strips animation_data ∧
            nla_final_frame animation_data = strip_frame_end strip).
Proof.
  rewrite nla_final_frame_unmuted.
  destruct (py_max_seq_spec (strip_frame_end <$> unmuted_strips animation_data) 0)
    as [Hub Hin].
  split; [apply Hub, list_elem_of_here|]. split.
  - intros strip Hs. apply Hub, list_elem_of_further, list_elem_of_fmap. eauto.
  - apply elem_of_cons in Hin as [Hin|Hin]; [by left|right].
    apply list_elem_of_fmap in Hin as (strip & Heq & Hs). eauto.
Qed.

Section MarkerRanges.

Variable get_nla_strips_in_timeframe : AnimData → Z → Z → list NlaStrip.
Variable animation_data : AnimData.
Variable context : Context.

Let range_of := marker_sequence_frame_range get_nla_strips_in_timeframe animation_data context.
Let sorted_timeline_markers := sorted_by_frame (scene_timeline_markers context).

(** A range that is emitted does not end before it starts. *)
Lemma marker_sequence_frame_range_ordered name frame_start frame_end :
  range_of name = Returned (Some (frame_start, frame_end)) → (frame_start <= frame_end)%Z.
Proof.
  unfold range_of, marker_sequence_frame_range.
  destruct (marker_by_name _ name) as [marker|]; [|done]. simpl.
  destruct (py_index name _) as [i|]; [|done]. simpl.
  match goal with |- context [let '(_, _) := ?p in _] => destruct p as [a b] end.
  destruct (Qltb b a) eqn:Hlt; [done|]. intros [= <- <-].
  apply Qltb_ge in Hlt. by apply py_int_mono.
Qed.

(** What the loop leaves in the dictionary under each name. *)
Lemma marker_ranges_loop_lookup names d d' :
  marker_ranges_loop get_nla_strips_in_timeframe animation_data context names d = Returned d' →
  ∀ name,
    (name ∈ names →
     ∃ o, range_of name = Returned o ∧
          d' !! name = match o with Some range => Some range | None => d !! name end) ∧
    (name ∉ names → d' !! name = d !! name).
Proof.
  revert d. induction names as [|n names IH]; intros d; simpl.
  - intros [= <-] name. split; [by intros ?%not_elem_of_nil|done].
  - fold (range_of n). destruct (range_of n) as [o|] eqn:Hn; [|done]. simpl.
    intros Hloop name. specialize (IH _ Hloop name) as [IHin IHout].
    assert (name ≠ n →
            (match o with Some range => <[n:=range]> d | None => d end) !! name = d !! name)
      as Hne by (intros Hne; destruct o; [by rewrite lookup_insert_ne|done]).
    destruct (decide (name ∈ names)) as [Hin|Hout].
    + split; [|intros Hnot; destruct Hnot; by apply list_elem_of_further].
      intros _. destruct (IHin Hin) as (o' & Ho' & Hd'). exists o'. split; [done|].
      rewrite Hd'. destruct o' as [range|]; [done|].
      destruct (decide (name = n)) as [->|Hneq]; [|by apply Hne].
      rewrite Hn in Ho'. by injection Ho' as ->.
    + rewrite (IHout Hout). split.
      * intros [->|Hin]%elem_of_cons; [|done]. exists o. split; [done|].
        destruct o; [by rewrite lookup_insert_eq|done].
      * intros Hnot. apply Hne. intros ->. apply Hnot, list_elem_of_here.
Qed.

Lemma Qltb_irrefl a : Qltb a a = false.
Proof. apply Qltb_ge, Qle_refl. Qed.

(** A marker with a next marker and no strip between the two. *)
Lemma marker_range_single_frame name marker i next_marker :
  marker_by_name (scene_timeline_markers context) name = Returned marker →
  py_index name (marker_name <$> sorted_timeline_markers) = Returned i →
  sorted_timeline_markers !! (i + 1) = Some next_marker →
  get_nla_strips_in_timeframe animation_data (marker_frame marker) (marker_frame next_marker)
    = [] →
  range_of name = Returned (Some (marker_frame marker, marker_frame marker)).
Proof.
  intros Hmarker Hindex Hnext Hstrips. unfold range_of, marker_sequence_frame_range.
  rewrite Hmarker. simpl. fold sorted_timeline_markers. rewrite Hindex. simpl.
  rewrite Hnext, Hstrips, Qltb_irrefl. by rewrite py_int_inject_Z.
Qed.

(** The last marker. *)
Lemma marker_range_final name marker i :
  marker_by_name (scene_timeline_markers context) name = Returned marker →
  py_index name (marker_name <$> sorted_timeline_markers) = Returned i →
  sorted_timeline_markers !! (i + 1) = None →
  range_of name = Returned
    (if Qltb (nla_final_frame animation_data) (inject_Z (marker_frame marker)) then None
     else Some (marker_frame marker, py_int (nla_final_frame animation_data))).
Proof.
  intros Hmarker Hindex Hnext. unfold range_of, marker_sequence_frame_range.
  rewrite Hmarker. simpl. fold sorted_timeline_markers. rewrite Hindex. simpl.
  rewrite Hnext. destruct (Qltb _ _); [done|]. by rewrite py_int_inject_Z.
Qed.

(** A marker with a next marker, where a strip between the two starts no
    later than the marker and one ends no earlier than the next marker. *)
Lemma marker_range_spanned name marker i next_marker first last :
  marker_by_name (scene_timeline_markers context) name = Returned marker →
  py_index name (marker_name <$> sorted_timeline_markers) = Returned i →
  sorted_timeline_markers !! (i + 1) = Some next_marker →
  (marker_frame marker <= marker_frame next_marker)%Z →
  first ∈ get_nla_strips_in_timeframe animation_data (marker_frame marker)
            (marker_frame next_marker) →
  last ∈ get_nla_strips_in_timeframe animation_data (marker_frame marker)
           (marker_frame next_marker) →
  (strip_frame_start first <= inject_Z (marker_frame marker))%Q →
  (inject_Z (marker_frame next_marker) <= strip_frame_end last)%Q →
  range_of name = Returned (Some (marker_frame marker, marker_frame next_marker)).
Proof.
  intros Hmarker Hindex Hnext Hle Hfirst Hlast Hstart Hend.
  unfold range_of, marker_sequence_frame_range.
  rewrite Hmarker. simpl. fold sorted_timeline_markers. rewrite Hindex. simpl.
  rewrite Hnext.
  destruct (get_nla_strips_in_timeframe _ _ _) as [|strip rest];
    [by apply not_elem_of_nil in Hfirst|].
  destruct (py_min_seq_spec (strip_frame_start <$> rest) (strip_frame_start strip)) as [Hmin _].
  destruct (py_max_seq_spec (strip_frame_end <$> rest) (strip_frame_end strip)) as [Hmax _].
  change (strip_frame_start strip :: (strip_frame_start <$> rest))
    with (strip_frame_start <$> strip :: rest) in Hmin.
  change (strip_frame_end strip :: (strip_frame_end <$> rest))
    with (strip_frame_end <$> strip :: rest) in Hmax.
  specialize (Hmin (strip_frame_start first)). specialize (Hmax (strip_frame_end last)).
  assert (py_max (inject_Z (marker_frame marker))
            (py_min_seq (strip_frame_start strip) (strip_frame_start <$> rest))
          = inject_Z (marker_frame marker)) as ->.
  { unfold py_max. replace (Qltb _ _) with false; [done|].
    symmetry. apply Qltb_ge. eapply Qle_trans; [|exact Hstart].
    apply Hmin, list_elem_of_fmap. eauto. }
  assert (py_min (inject_Z (marker_frame next_marker))
            (py_max_seq (strip_frame_end strip) (strip_frame_end <$> rest))
          = inject_Z (marker_frame next_marker)) as ->.
  { unfold py_min. replace (Qltb _ _) with false; [done|].
    symmetry. apply Qltb_ge. eapply Qle_trans; [exact Hend|].
    apply Hmax, list_elem_of_fmap. eauto. }
  replace (Qltb _ _) with false; cycle 1.
  { symmetry. apply Qltb_ge. by rewrite <- Zle_Qle. }
  by rewrite !py_int_inject_Z.
Qed.

(** The three cases of the marker ranges on the code. For a marker that
    has a next marker, if no strip lies between the two, the range is
    the single frame of the marker. For the last marker the end frame is
    the final frame of the strips cut to an integer, where the final
    frame is the largest of 0 and the end frames of all strips of tracks
    that are not muted; the marker gives no range when it lies beyond
    that frame. The result holds, under the name of each marker it was
    asked for, exactly the range of that marker when it has one, and
    such a range has frame_start <= frame_end. *)
Theorem marker_ranges_single_frame_final_and_ordered :
  (∀ name marker i next_marker,
     marker_by_name (scene_timeline_markers context) name = Returned marker →
     py_index name (marker_name <$> sorted_timeline_markers) = Returned i →
     sorted_timeline_markers !! (i + 1) = Some next_marker →
     get_nla_strips_in_timeframe animation_data (marker_frame marker)
       (marker_frame next_marker) = [] →
     range_of name = Returned (Some (marker_frame marker, marker_frame marker))) ∧
  (∀ name marker i,
     marker_by_name (scene_timeline_markers context) name = Returned marker →
     py_index name (marker_name <$> sorted_timeline_markers) = Returned i →
     sorted_timeline_markers !! (i + 1) = None →
     range_of name = Returned
       (if Qltb (nla_final_frame animation_data) (inject_Z (marker_frame marker)) then None
        else Some (marker_frame marker, py_int (nla_final_frame animation_data)))) ∧
  ((0 <= nla_final_frame animation_data)%Q ∧
   (∀ strip, strip ∈ unmuted_strips animation_data →
             (strip_frame_end strip <= nla_final_frame animation_data)%Q) ∧
   (nla_final_frame animation_data = 0%Q ∨
    ∃ strip, strip ∈ unmuted_strips animation_data ∧
             nla_final_frame animation_data = strip_frame_end strip)) ∧
  (∀ marker_names ranges,
     get_timeline_marker_sequence_frame_ranges get_nla_strips_in_timeframe animation_data
       context marker_names = Returned ranges →
     ∀ name frame_start frame_end,
       ranges !! name = Some (frame_start, frame_end) ↔
       name ∈ marker_names ∧
       range_of name = Returned (Some (frame_start, frame_end))) ∧
  (∀ name frame_start frame_end,
     range_of name = Returned (Some (frame_start, frame_end)) →
     (frame_start <= frame_end)%Z).
Proof.
  split; [exact marker_range_single_frame|]. split; [exact marker_range_final|].
  split; [apply nla_final_frame_spec|].
  split; [|exact marker_sequence_frame_range_ordered].
  intros marker_names ranges Hranges name frame_start frame_end.
  destruct (marker_ranges_loop_lookup _ _ _ Hranges name) as [Hin Hout].
  split.
  - intros Hlookup. destruct (decide (name ∈ marker_names)) as [Hname|Hname].
    + destruct (Hin Hname) as ([range|] & Hrange & Hname'); rewrite Hname' in Hlookup.
      * by injection Hlookup as ->.
      * by rewrite lookup_empty in Hlookup.
    + rewrite (Hout Hname), lookup_empty in Hlookup. done.
  - intros [Hname Hrange]. destruct (Hin Hname) as (o & Ho & Hlookup).
    rewrite Hrange in Ho. injection Ho as <-. done.
Qed.

End MarkerRanges.

(** A use of the first case: with the markers Idle at 0 and Walk at 30 and one strip
    from 40 to 90, no strip lies between the two markers and Idle gets
    the single frame 0. *)
Lemma marker_ranges_single_frame_final_and_ordered_witness :
  let animation_data :=
    {| nla_tracks := [{| mute := false;
                         strips := [{| strip_frame_start := 40; strip_frame_end := 90 |}] |}] |} in
  let context :=
    {| scene_render_fps := 30;
       scene_timeline_markers := [{| marker_name := "Idle"; marker_frame := 0 |};
                                  {| marker_name := "Walk"; marker_frame := 30 |}] |} in
  marker_sequence_frame_range overlapping_nla_strips animation_data context "Idle"
    = Returned (Some (0, 0)%Z).
Proof.
  intros animation_data context.
  destruct (marker_ranges_single_frame_final_and_ordered overlapping_nla_strips
              animation_data context) as [Hsingle _].
  apply (Hsingle "Idle" {| marker_name := "Idle"; marker_frame := 0 |} 0
           {| marker_name := "Walk"; marker_frame := 30 |}); reflexivity.
Defined.

(** C5. The end frame of the last marker starts at 0 in the code and
    is only raised by the strips, where the comments in the code and the
    claim take the largest end frame of the strips: with the one marker
    End at -10 and the one strip from -20 to -5 on a track that is not
    muted, the largest end frame of a strip is -5, and the code gives
    the range from -10 to 0. *)
Lemma marker_range_final_frame_not_below_zero :
  let strip := {| strip_frame_start := -20; strip_frame_end := -5 |} in
  let animation_data := {| nla_tracks := [{| mute := false; strips := [strip] |}] |} in
  let context :=
    {| scene_render_fps := 30;
       scene_timeline_markers := [{| marker_name := "End"; marker_frame := -10 |}] |} in
  unmuted_strips animation_data = [strip] ∧
  py_int (strip_frame_end strip) = (-5)%Z ∧
  get_timeline_marker_sequence_frame_ranges overlapping_nla_strips animation_data context
    ["End"] = Returned {["End" := (-10, 0)%Z]}.
Proof. intros strip animation_data context. repeat split; vm_compute; reflexivity. Qed.

Section ThreeMarkers.

Variable get_nla_strips_in_timeframe : AnimData → Z → Z → list NlaStrip.
Variable animation_data : AnimData.
Variable fps : Z.
Variables name0 name1 name2 : string.

Let marker0 := {| marker_name := name0; marker_frame := 0 |}.
Let marker1 := {| marker_name := name1; marker_frame := 30 |}.
Let marker2 := {| marker_name := name2; marker_frame := 60 |}.
Let context := {| scene_render_fps := fps; scene_timeline_markers := [marker0; marker1; marker2] |}.

Hypothesis name0_name1 : name0 ≠ name1.
Hypothesis name0_name2 : name0 ≠ name2.
Hypothesis name1_name2 : name1 ≠ name2.

Lemma three_markers_lookup :
  marker_by_name (scene_timeline_markers context) name0 = Returned marker0 ∧
  marker_by_name (scene_timeline_markers context) name1 = Returned marker1 ∧
  marker_by_name (scene_timeline_markers context) name2 = Returned marker2 ∧
  py_index name0 (marker_name <$> sorted_by_frame (scene_timeline_markers context)) = Returned 0 ∧
  py_index name1 (marker_name <$> sorted_by_frame (scene_timeline_markers context)) = Returned 1 ∧
  py_index name2 (marker_name <$> sorted_by_frame (scene_timeline_markers context)) = Returned 2.
Proof.
  apply String.eqb_neq in name0_name1, name0_name2, name1_name2.
  unfold marker_by_name, py_index. simpl.
  rewrite !String.eqb_refl, ?name0_name1, ?name0_name2, ?name1_name2. simpl.
  rewrite ?String.eqb_refl, ?name0_name1, ?name0_name2, ?name1_name2. simpl.
  rewrite ?String.eqb_refl, ?name0_name1, ?name0_name2, ?name1_name2. done.
Qed.

(** C4, as the code has it. With markers at the frames 0, 30 and 60,
    under three different names: if of the strips between 0 and 30 one
    starts no later than 0 and one ends no earlier than 30, likewise for
    the strips between 30 and 60, and the final frame of the strips is at
    least 60, then the ranges are exactly (0, 30), (30, 60) and
    (60, final frame), where the final frame is the largest end frame of
    the strips of the tracks that are not muted, cut to an integer. *)
Theorem marker_ranges_of_spanned_windows :
  (∃ first last,
     first ∈ get_nla_strips_in_timeframe animation_data 0 30 ∧
     last ∈ get_nla_strips_in_timeframe animation_data 0 30 ∧
     (strip_frame_start first <= 0)%Q ∧ (30 <= strip_frame_end last)%Q) →
  (∃ first last,
     first ∈ get_nla_strips_in_timeframe animation_data 30 60 ∧
     last ∈ get_nla_strips_in_timeframe animation_data 30 60 ∧
     (strip_frame_start first <= 30)%Q ∧ (60 <= strip_frame_end last)%Q) →
  (60 <= nla_final_frame animation_data)%Q →
  get_timeline_marker_sequence_frame_ranges get_nla_strips_in_timeframe animation_data context
    [name0; name1; name2]
    = Returned (<[name2 := (60, py_int (nla_final_frame animation_data))%Z]>
                  (<[name1 := (30, 60)%Z]> (<[name0 := (0, 30)%Z]> ∅))) ∧
  ∃ strip, strip ∈ unmuted_strips animation_data ∧
           nla_final_frame animation_data = strip_frame_end strip ∧
           ∀ other, other ∈ unmuted_strips animation_data →
                    (strip_frame_end other <= strip_frame_end strip)%Q.
Proof.
  intros (first0 & last0 & Hfirst0 & Hlast0 & Hstart0 & Hend0)
         (first1 & last1 & Hfirst1 & Hlast1 & Hstart1 & Hend1) Hfinal.
  destruct three_markers_lookup as (Hm0 & Hm1 & Hm2 & Hi0 & Hi1 & Hi2).
  split.
  - unfold get_timeline_marker_sequence_frame_ranges. simpl.
    rewrite (marker_range_spanned _ _ _ name0 marker0 0 marker1 first0 last0); try done.
    simpl.
    rewrite (marker_range_spanned _ _ _ name1 marker1 1 marker2 first1 last1); try done.
    simpl.
    rewrite (marker_range_final _ _ _ name2 marker2 2); try done.
    simpl. replace (Qltb _ _) with false; [done|].
    symmetry. by apply Qltb_ge.
  - destruct (nla_final_frame_spec animation_data) as (_ & Hub & [Hzero|(strip & Hin & Heq)]).
    + rewrite Hzero in Hfinal. by apply Qle_bool_iff in Hfinal.
    + exists strip. split; [done|]. split; [done|]. intros other Hother.
      rewrite <- Heq. by apply Hub.
Qed.

End ThreeMarkers.

(** A use of C4: the markers Idle, Walk and Run at 0, 30 and 60 over one
    strip from 0 to 100. *)
Lemma marker_ranges_of_spanned_windows_witness :
  let strip := {| strip_frame_start := 0; strip_frame_end := 100 |} in
  let animation_data := {| nla_tracks := [{| mute := false; strips := [strip] |}] |} in
  let context :=
    {| scene_render_fps := 30;
       scene_timeline_markers := [{| marker_name := "Idle"; marker_frame := 0 |};
                                  {| marker_name := "Walk"; marker_frame := 30 |};
                                  {| marker_name := "Run"; marker_frame := 60 |}] |} in
  get_timeline_marker_sequence_frame_ranges overlapping_nla_strips animation_data context
    ["Idle"; "Walk"; "Run"]
    = Returned (<["Run" := (60, 100)%Z]> (<["Walk" := (30, 60)%Z]> (<["Idle" := (0, 30)%Z]> ∅))).
Proof.
  intros strip animation_data context.
  assert (py_int (nla_final_frame animation_data) = 100%Z) as Hfinal by reflexivity.
  rewrite <- Hfinal.
  apply (marker_ranges_of_spanned_windows overlapping_nla_strips animation_data 30
           "Idle" "Walk" "Run"); try discriminate.
  - exists strip, strip. repeat split; try apply list_elem_of_here; by apply Qle_bool_iff.
  - exists strip, strip. repeat split; try apply list_elem_of_here; by apply Qle_bool_iff.
Defined.

(** C4 as it is worded fails when nothing lies between the markers. With
    no strip at all the markers at 0 and 30 get the single frames (0, 0)
    and (30, 30) and the marker at 60 gets no range; with one strip from
    70 to 100, which is the largest end frame, they get (0, 0), (30, 30)
    and (60, 100). *)
Lemma marker_ranges_without_strips_between :
  let context :=
    {| scene_render_fps := 30;
       scene_timeline_markers := [{| marker_name := "Idle"; marker_frame := 0 |};
                                  {| marker_name := "Walk"; marker_frame := 30 |};
                                  {| marker_name := "Run"; marker_frame := 60 |}] |} in
  let strip := {| strip_frame_start := 70; strip_frame_end := 100 |} in
  get_timeline_marker_sequence_frame_ranges overlapping_nla_strips {| nla_tracks := [] |}
    context ["Idle"; "Walk"; "Run"]
    = Returned (<["Walk" := (30, 30)%Z]> (<["Idle" := (0, 0)%Z]> ∅)) ∧
  get_timeline_marker_sequence_frame_ranges overlapping_nla_strips
    {| nla_tracks := [{| mute := false; strips := [strip] |}] |} context ["Idle"; "Walk"; "Run"]
    = Returned (<["Run" := (60, 100)%Z]> (<["Walk" := (30, 30)%Z]> (<["Idle" := (0, 0)%Z]> ∅))).
Proof. intros context strip. split; vm_compute; reflexivity. Qed.




End PsaExportFacts.

(** ** The import operator *)

Module PsaImportFacts.

Import PsaImport.

Section Operator.

Context {PsaReader BlendData : Type}.
Variable PsaReader_init : string → outcome py_exn PsaReader.

(** Constructing the reader comes first: when it raises, [execute]
    raises, whatever is selected, and nothing is reported or changed. *)
Lemma execute_reader_raises
    (import_psa : BlendData → PsaReader → PsaImportOptions
                  → outcome py_exn (list string) * BlendData)
    (filepath : string) (pg : PSA_PG_import) (w : world BlendData) (e : py_exn) :
  PsaReader_init filepath = Raised e →
  execute PsaReader PsaReader_init BlendData import_psa filepath pg w = (Raised e, w).
Proof. intros Hreader. unfold execute. by rewrite Hreader. Qed.

(** C8, as the code has it. When no sequence is selected, [execute]
    never calls [import_psa] (its result is the same whatever
    [import_psa] is) and leaves the host data, where the actions live, as
    they are; and if the reader can be constructed from the file, it
    reports the error No sequences selected and returns CANCELLED. *)
Theorem execute_without_selection
    (import_psa : BlendData → PsaReader → PsaImportOptions
                  → outcome py_exn (list string) * BlendData)
    (filepath : string) (pg : PSA_PG_import) (w : world BlendData) :
  (∀ item, item ∈ sequence_list pg → is_selected item = false) →
  (∀ import_psa',
     execute PsaReader PsaReader_init BlendData import_psa' filepath pg w
       = execute PsaReader PsaReader_init BlendData import_psa filepath pg w) ∧
  blend_data _ (execute PsaReader PsaReader_init BlendData import_psa filepath pg w).2
    = blend_data _ w ∧
  (∀ psa_reader,
     PsaReader_init filepath = Returned psa_reader →
     execute PsaReader PsaReader_init BlendData import_psa filepath pg w
       = (Returned CANCELLED,
          {| reports := reports _ w ++ [("ERROR_INVALID_CONTEXT", "No sequences selected")];
             blend_data := blend_data _ w |})).
Proof.
  intros Hnone.
  assert (List.filter is_selected (sequence_list pg) = []) as Hfilter.
  { induction (sequence_list pg) as [|item items IH]; simpl; [done|].
    rewrite (Hnone item) by apply list_elem_of_here.
    apply IH. intros item' Hin. by apply Hnone, list_elem_of_further. }
  unfold execute. rewrite Hfilter. simpl.
  destruct (PsaReader_init filepath) as [psa_reader|e]; [|done].
  split; [done|]. split; [done|]. by intros ? [= <-].
Qed.

End Operator.

(** A use of C8: a file that can be read and two sequences, neither
    selected. *)
Lemma execute_without_selection_witness :
  let PsaReader_init (filepath : string) : outcome py_exn (list string) :=
    Returned ["Walk"; "Run"] in
  let import_psa (data : list string) (reader : list string) (options : PsaImportOptions)
      : outcome py_exn (list string) * list string :=
    (Returned [], (data ++ sequence_names options)%list) in
  let pg :=
    {| sequence_list := [{| item_action_name := "Walk"; is_selected := false |};
                         {| item_action_name := "Run"; is_selected := false |}];
       pg_should_use_fake_user := false; pg_should_stash := false;
       pg_action_name_prefix := ""; pg_should_use_action_name_prefix := false;
       pg_should_overwrite := false; pg_should_write_metadata := true;
       pg_should_write_keyframes := true; pg_should_convert_to_samples := false;
       pg_bone_mapping_mode := "CASE_INSENSITIVE" |} in
  let w := {| reports := []; blend_data := ["Idle"] |} in
  execute _ PsaReader_init _ import_psa "walk.psa" pg w
    = (Returned CANCELLED,
       {| reports := [("ERROR_INVALID_CONTEXT", "No sequences selected")];
          blend_data := ["Idle"] |}).
Proof.
  intros PsaReader_init import_psa pg w.
  destruct (execute_without_selection PsaReader_init import_psa "walk.psa" pg w)
    as (_ & _ & Hcancelled).
  - intros item [->|[->|Hin%not_elem_of_nil]%elem_of_cons]%elem_of_cons; done.
  - by apply (Hcancelled ["Walk"; "Run"]).
Defined.

(** C8 as it is worded fails when the file cannot be read: [execute]
    constructs the reader before it looks at the selection, so with no
    sequence selected the exception of the reader leaves it; it neither
    reports No sequences selected nor returns CANCELLED. *)
Lemma execute_unreadable_file_not_cancelled :
  let PsaReader_init (filepath : string) : outcome py_exn (list string) :=
    Raised (ReaderError "not a PSA file") in
  let import_psa (data : list string) (reader : list string) (options : PsaImportOptions)
      : outcome py_exn (list string) * list string :=
    (Returned [], (data ++ sequence_names options)%list) in
  let pg :=
    {| sequence_list := [];
       pg_should_use_fake_user := false; pg_should_stash := false;
       pg_action_name_prefix := ""; pg_should_use_action_name_prefix := false;
       pg_should_overwrite := false; pg_should_write_metadata := true;
       pg_should_write_keyframes := true; pg_should_convert_to_samples := false;
       pg_bone_mapping_mode := "CASE_INSENSITIVE" |} in
  let w := {| reports := []; blend_data := ["Idle"] |} in
  List.filter is_selected (sequence_list pg) = [] ∧
  execute _ PsaReader_init _ import_psa "notes.txt" pg w
    = (Raised (ReaderError "not a PSA file"), w) ∧
  (execute _ PsaReader_init _ import_psa "notes.txt" pg w).1 ≠ Returned CANCELLED.
Proof. intros PsaReader_init import_psa pg w. repeat split. discriminate. Qed.

End PsaImportFacts.

(** ** The mapping loop in every mode *)

Module BoneMappingFacts.

Import Importer BoneMapping ImporterFacts.

(** A decidable property that holds somewhere holds at a least place. *)
Lemma least_witness (P : nat → Prop) (n : nat) :
  (∀ k, Decision (P k)) → P n → ∃ m, P m ∧ ∀ k, (k < m)%nat → ¬ P k.
Proof.
  intros Hdec Hn.
  assert (∀ b, (∃ m, (m < b)%nat ∧ P m ∧ ∀ k, (k < m)%nat → ¬ P k) ∨
               (∀ k, (k < b)%nat → ¬ P k)) as Hsearch.
  { induction b as [|b [IH|IH]].
    - right. intros k Hk. lia.
    - left. destruct IH as (m & Hm & HP). exists m. split; [lia|done].
    - destruct (decide (P b)) as [Hb|Hb].
      + left. exists b. split; [lia|done].
      + right. intros k Hk. destruct (decide (k = b)) as [->|Hne]; [done|]. apply IH. lia. }
  destruct (Hsearch (S n)) as [(m & _ & Hm)|Hnone]; [by exists m|].
  destruct (Hnone n); [lia|done].
Qed.

Section Claimants.

Variable lower : string → string.
Variable names : list string.
Variable mode : string.

Let get := fun name => _get_armature_bone_index_for_psa_bone lower name names mode.

Lemma first_match_of_snoc done name p i :
  first_match_of lower names mode (done ++ [name])%list p i ↔
  first_match_of lower names mode done p i ∨ (p = length done ∧ get name = Some i).
Proof.
  unfold first_match_of. split.
  - intros (n & Hp & Hn). destruct (decide (p < length done)%nat) as [Hlt|Hge].
    + left. exists n. by rewrite lookup_app_l in Hp.
    + right. rewrite lookup_app_r in Hp by lia.
      destruct (p - length done)%nat as [|d] eqn:Hd; [|done].
      injection Hp as <-. split; [lia|done].
  - intros [(n & Hp & Hn)|[-> Hn]].
    + exists n. split; [|done]. by apply lookup_app_l_Some.
    + exists name. split; [|done]. rewrite lookup_app_r by lia. by rewrite Nat.sub_diag.
Qed.

Lemma first_match_of_lt done p i :
  first_match_of lower names mode done p i → (p < length done)%nat.
Proof. intros (n & Hp & _). by eapply lookup_lt_Some. Qed.

Lemma earliest_claimant_snoc done name p i :
  earliest_claimant lower names mode (done ++ [name])%list p i ↔
  earliest_claimant lower names mode done p i ∨
  (p = length done ∧ get name = Some i ∧
   ∀ earlier : nat, ¬ first_match_of lower names mode done earlier i).
Proof.
  unfold earliest_claimant. setoid_rewrite first_match_of_snoc. split.
  - intros [[Hp|[-> Hn]] Hfirst].
    + left. split; [done|]. intros e He Hm. apply (Hfirst e He). by left.
    + right. split; [done|]. split; [done|]. intros e Hm.
      apply (Hfirst e); [by eapply first_match_of_lt|by left].
  - intros [[Hp Hfirst]|(-> & Hn & Hfirst)].
    + split; [by left|]. intros e He [Hm|[-> _]]; [by apply (Hfirst e)|].
      apply first_match_of_lt in Hp. lia.
    + split; [by right|]. intros e He [Hm|[-> _]]; [by apply (Hfirst e)|lia].
Qed.

Lemma earliest_claimant_unique done p p' i :
  earliest_claimant lower names mode done p i →
  earliest_claimant lower names mode done p' i → p = p'.
Proof.
  intros [Hp Hfirst] [Hp' Hfirst'].
  destruct (Nat.lt_trichotomy p p') as [Hlt|[->|Hlt]]; [|done|].
  - by destruct (Hfirst' p Hlt).
  - by destruct (Hfirst p' Hlt).
Qed.

Ltac split_claims :=
  split; [intros i' p'; split
         |split; [intros p' k'; split
                 |split; [intros p' i' c'; split|]]].

Lemma earliest_claimant_lookup done p i :
  earliest_claimant lower names mode done p i → ∃ name, done !! p = Some name ∧ get name = Some i.
Proof. by intros [Hp _]. Qed.

(** One iteration keeps the state of the loop, when it does not raise. *)
Lemma map_psa_bone_claims done st name st' :
  claims_so_far lower names mode done st →
  map_psa_bone lower names mode st (length done) name = Returned st' →
  claims_so_far lower names mode (done ++ [name])%list st'.
Proof.
  intros (Harm & Hpsa & Hdup & Hnames). unfold map_psa_bone, claims_so_far.
  setoid_rewrite earliest_claimant_snoc. setoid_rewrite first_match_of_snoc.
  setoid_rewrite lookup_snoc_Some.
  rewrite fmap_app. simpl. unfold resolved_bone_name at 2. fold (get name).
  assert (∀ p' k', psa_to_armature_bone_indices st !! p' = Some k' →
            ∃ i n, (earliest_claimant lower names mode done p' i ∨
                    p' = length done ∧ get name = Some i ∧
                    ∀ earlier : nat, ¬ first_match_of lower names mode done earlier i) ∧
                   ((p' < length done)%nat ∧ done !! p' = Some n ∨ p' = length done ∧ name = n) ∧
                   py_index n names = Returned k') as Hpsa_old.
  { intros p' k' Hp. apply Hpsa in Hp as (j & n & Hj & Hn & Hk). exists j, n.
    split; [by left|]. split; [|done]. left. split; [by eapply lookup_lt_Some|done]. }
  assert (∀ p' k' i n,
            earliest_claimant lower names mode done p' i →
            ((p' < length done)%nat ∧ done !! p' = Some n ∨ p' = length done ∧ name = n) →
            py_index n names = Returned k' →
            psa_to_armature_bone_indices st !! p' = Some k') as Hpsa_new.
  { intros p' k' j n Hj [[_ Hn]|[-> _]] Hk.
    - apply Hpsa. eauto.
    - destruct Hj as [Hj _]. apply first_match_of_lt in Hj. lia. }
  destruct (get name) as [i|] eqn:Hget.
  - destruct (get_armature_bone_index_Some lower names name mode i Hget) as (a & Ha & _).
    unfold py_getitem. rewrite Ha. simpl.
    destruct (armature_to_psa_bone_indices st !! i) as [c|] eqn:Hi; simpl.
    + intros [= <-]. simpl. apply Harm in Hi as Hc.
      assert (∀ j, Some i = Some j →
                   ¬ ∀ earlier : nat, ¬ first_match_of lower names mode done earlier j) as Hno.
      { intros j [= <-] Hnone. destruct Hc as [Hc _]. by apply (Hnone c). }
      split_claims.
      * intros Hj. left. by apply Harm.
      * intros [Hj|(_ & Hj & Hnone)]; [by apply Harm|]. by destruct (Hno _ Hj).
      * apply Hpsa_old.
      * intros (j & n & [Hj|(_ & Hj & Hnone)] & Hn & Hk); [by eapply Hpsa_new|].
        by destruct (Hno _ Hj).
      * intros [Hin|Hin%list_elem_of_singleton]%elem_of_app.
        -- apply Hdup in Hin as (Hp & Hc' & Hlt). split; [by left|]. split; [by left|done].
        -- injection Hin as -> -> ->. split; [by right|]. split; [by left|].
           destruct Hc as [Hc _]. by eapply first_match_of_lt.
      * intros ([Hp|[-> Hj]] & [Hc'|(-> & _ & Hnone)] & Hlt).
        -- apply elem_of_app. left. by apply Hdup.
        -- apply first_match_of_lt in Hp. lia.
        -- apply elem_of_app. right. apply list_elem_of_singleton.
           injection Hj as <-. by rewrite (earliest_claimant_unique done c' c i).
        -- lia.
      * by rewrite Hnames.
    + destruct (py_index name names) as [k|] eqn:Hindex; [|done]. simpl. intros [= <-]. simpl.
      assert (∀ earlier : nat, ¬ first_match_of lower names mode done earlier i) as Hnone.
      { intros e He.
        assert (∃ c, earliest_claimant lower names mode done c i) as [c Hc].
        { apply (least_witness (λ e, first_match_of lower names mode done e i) e); [|done].
          intros e'. unfold first_match_of. destruct (done !! e') as [n|].
          - destruct (decide (_get_armature_bone_index_for_psa_bone lower n names mode = Some i))
              as [Hn|Hn]; [left; eauto|right]. by intros (? & [= <-] & ?).
          - right. by intros (? & ? & ?). }
        apply Harm in Hc. congruence. }
      split_claims.
      * intros Hj. destruct (decide (i = i')) as [<-|Hne].
        -- rewrite lookup_insert_eq in Hj. injection Hj as <-. by right.
        -- rewrite lookup_insert_ne in Hj by done. left. by apply Harm.
      * intros [Hj|(-> & Hj & _)].
        -- destruct (decide (i = i')) as [<-|Hne]; [|by rewrite lookup_insert_ne; [apply Harm|]].
           destruct Hj as [Hj _]. by destruct (Hnone p').
        -- injection Hj as <-. by rewrite lookup_insert_eq.
      * intros Hp. destruct (decide (length done = p')) as [<-|Hne].
        -- rewrite lookup_insert_eq in Hp. injection Hp as <-. exists i, name.
           split; [by right|]. split; [by right|done].
        -- rewrite lookup_insert_ne in Hp by done. by apply Hpsa_old.
      * intros (j & n & [Hj|(-> & Hj & _)] & Hn & Hk).
        -- rewrite lookup_insert_ne; [by eapply Hpsa_new|].
           destruct Hj as [Hj _]. apply first_match_of_lt in Hj. lia.
        -- destruct Hn as [[Hlt _]|[_ <-]]; [lia|].
           rewrite Hindex in Hk. injection Hk as <-. by rewrite lookup_insert_eq.
      * intros Hin. apply Hdup in Hin as (Hp & Hc' & Hlt). split; [by left|]. split; [by left|done].
      * intros ([Hp|[-> Hj]] & [Hc'|(-> & _ & _)] & Hlt).
        -- by apply Hdup.
        -- apply first_match_of_lt in Hp. lia.
        -- injection Hj as <-. destruct Hc' as [Hc' _]. by destruct (Hnone c').
        -- lia.
      * by rewrite Hnames.
  - simpl. intros [= <-]. simpl. split_claims.
    + intros Hj. left. by apply Harm.
    + intros [Hj|(_ & Hj & _)]; [by apply Harm|done].
    + apply Hpsa_old.
    + intros (j & n & [Hj|(_ & Hj & _)] & Hn & Hk); [by eapply Hpsa_new|done].
    + intros Hin. apply Hdup in Hin as (Hp & Hc' & Hlt). split; [by left|]. split; [by left|done].
    + intros ([Hp|[_ Hj]] & [Hc'|(_ & Hj' & _)] & Hlt); try done. by apply Hdup.
    + by rewrite Hnames.
Qed.

Lemma map_psa_bones_from_claims rest done st st' :
  claims_so_far lower names mode done st →
  map_psa_bones_from lower names mode st (length done) rest = Returned st' →
  claims_so_far lower names mode (done ++ rest)%list st'.
Proof.
  revert done st. induction rest as [|name rest IH]; intros done st Hst; simpl.
  - intros [= <-]. by rewrite app_nil_r.
  - destruct (map_psa_bone lower names mode st (length done) name) as [st1|] eqn:Hstep; [|done].
    simpl. intros Hloop. apply (map_psa_bone_claims done st name st1 Hst) in Hstep.
    rewrite <- Nat.add_1_r in Hloop.
    replace (length done + 1)%nat with (length (done ++ [name])%list) in Hloop
      by (rewrite length_app; simpl; lia).
    specialize (IH _ _ Hstep Hloop). by rewrite <- app_assoc in IH.
Qed.

Lemma claims_so_far_empty : claims_so_far lower names mode [] empty_mapping.
Proof.
  split_claims; simpl.
  - intros H. by rewrite lookup_empty in H.
  - by intros [(n & Hn & _) _].
  - intros H. by rewrite lookup_empty in H.
  - by intros (i & n & _ & Hn & _).
  - by intros H%not_elem_of_nil.
  - by intros ((n & Hn & _) & _).
  - done.
Qed.

Lemma first_match_of_app_l l l' e i :
  (e < length l)%nat →
  first_match_of lower names mode (l ++ l')%list e i ↔ first_match_of lower names mode l e i.
Proof. intros He. unfold first_match_of. by setoid_rewrite (lookup_app_l l l' e He). Qed.

Lemma earliest_claimant_app_l l l' p i :
  (p < length l)%nat →
  earliest_claimant lower names mode (l ++ l')%list p i ↔ earliest_claimant lower names mode l p i.
Proof.
  intros Hp. unfold earliest_claimant. rewrite first_match_of_app_l by done.
  split; intros [Hm Hfirst]; (split; [done|]); intros e He.
  - rewrite <- (first_match_of_app_l l l') by lia. by apply Hfirst.
  - rewrite first_match_of_app_l by lia. by apply Hfirst.
Qed.


Lemma list_index_None (x : string) (l : list string) : list_index x l = None ↔ x ∉ l.
Proof.
  induction l as [|y l IH]; simpl.
  - split; [intros _; apply not_elem_of_nil|done].
  - rewrite not_elem_of_cons. destruct (String.eqb y x) eqn:Hyx.
    + apply String.eqb_eq in Hyx as ->. split; [done|]. by intros [? _].
    + apply String.eqb_neq in Hyx. destruct (list_index x l); simpl.
      * split; [done|]. intros [_ Hl]. by apply IH in Hl.
      * split; [|done]. intros _. split; [done|by apply IH].
Qed.

Lemma py_index_Returned (x : string) (l : list string) :
  (∃ k, py_index x l = Returned k) ↔ x ∈ l.
Proof.
  unfold py_index. pose proof (list_index_None x l) as Hnone.
  destruct (list_index x l) as [k|].
  - split; [|eauto]. intros _. destruct (decide (x ∈ l)) as [|Hnot]; [done|].
    by apply Hnone in Hnot.
  - split; [by intros [? ?]|]. intros Hin. by destruct (proj1 Hnone eq_refl).
Qed.


(** The duplicate warnings of a state of the loop can be written down:
    every index in a duplicate is in range. *)
Lemma duplicate_warnings_returns done st :
  claims_so_far lower names mode done st →
  ∃ ws, duplicate_warnings (psa_bone_names st) names (duplicate_mappings st) = Returned ws ∧
        ∀ w, w ∈ ws → ∃ p pn i a c cn, w = DuplicateMapping p pn i a c cn.
Proof.
  intros (_ & _ & Hdup & Hnames). rewrite Hnames.
  assert (∀ p i c, (p, i, c) ∈ duplicate_mappings st →
            (p < length done)%nat ∧ (c < length done)%nat ∧ (i < length names)%nat) as Hrange.
  { intros p i c (Hp & [Hc _] & Hlt)%Hdup.
    split; [by eapply first_match_of_lt|]. split; [by eapply first_match_of_lt|].
    destruct Hp as (n & _ & Hn).
    destruct (get_armature_bone_index_Some lower names n mode i Hn) as (a & Ha & _).
    by eapply lookup_lt_Some. }
  clear Hdup. induction (duplicate_mappings st) as [|[[p i] c] dups IH]; simpl.
  - exists []. split; [done|]. by intros w Hw%not_elem_of_nil.
  - destruct (Hrange p i c) as (Hp & Hc & Hi); [apply list_elem_of_here|].
    destruct IH as (ws & -> & Hws).
    { intros p' i' c' Hin. by apply Hrange, list_elem_of_further. }
    unfold py_getitem. rewrite !list_lookup_fmap.
    destruct (lookup_lt_is_Some_2 done p Hp) as [pn ->].
    destruct (lookup_lt_is_Some_2 done c Hc) as [cn ->].
    destruct (lookup_lt_is_Some_2 names i Hi) as [a ->]. simpl.
    eexists. split; [done|]. intros w [->|Hw]%elem_of_cons; [|by apply Hws].
    by do 6 eexists.
Qed.

End Claimants.

Lemma import_psa_bone_mapping_Returned lower object_name psa_bones names mode r :
  import_psa_bone_mapping lower object_name psa_bones names mode = Returned r →
  map_psa_bones_from lower names mode empty_mapping 0 psa_bones = Returned (mapping r) ∧
  claims_so_far lower names mode psa_bones (mapping r) ∧
  missing_bone_names r
    = list_to_set (psa_bone_names (mapping r)) ∖ list_to_set names.
Proof.
  unfold import_psa_bone_mapping.
  destruct (map_psa_bones_from lower names mode empty_mapping 0 psa_bones) as [st|] eqn:Hloop;
    [|done].
  simpl. destruct (duplicate_warnings _ _ _) as [ws|]; [|done]. simpl. intros [= <-]. simpl.
  split; [done|]. split; [|done].
  by apply (map_psa_bones_from_claims lower names mode psa_bones [] empty_mapping st
              (claims_so_far_empty lower names mode)).
Qed.

(** X1. When the mapping loop of [import_psa] goes through, in any mode:
    an armature bone is claimed by the earliest PSA bone whose first
    match it is; exactly those earliest bones get an entry in the PSA to
    armature mapping, and the entry is what [list.index] finds for the
    name of the PSA bone; the duplicates are exactly the later bones with
    the same first match, each recorded with the earliest one. *)
Theorem bone_mapping_earliest_claimant
    (lower : string → string) (object_name : string) (psa_bones names : list string)
    (mode : string) (r : mapping_result) :
  import_psa_bone_mapping lower object_name psa_bones names mode = Returned r →
  (∀ i p : nat, armature_to_psa_bone_indices (mapping r) !! i = Some p ↔
                earliest_claimant lower names mode psa_bones p i) ∧
  (∀ p k : nat, psa_to_armature_bone_indices (mapping r) !! p = Some k ↔
                ∃ i name, earliest_claimant lower names mode psa_bones p i ∧
                          psa_bones !! p = Some name ∧ py_index name names = Returned k) ∧
  (∀ p i c : nat, (p, i, c) ∈ duplicate_mappings (mapping r) ↔
                  first_match_of lower names mode psa_bones p i ∧
                  earliest_claimant lower names mode psa_bones c i ∧ (c < p)%nat).
Proof.
  intros (_ & (Harm & Hpsa & Hdup & _) & _)%import_psa_bone_mapping_Returned. done.
Qed.

(** A use of X1: of the bones Root, Head, head mapped onto Root, Head
    with case ignored, bone 1 is the earliest to claim armature bone 1. *)
Lemma bone_mapping_earliest_claimant_witness :
  earliest_claimant ascii_lower ["Root"; "Head"] "CASE_INSENSITIVE" ["Root"; "Head"; "head"] 1 1.
Proof.
  assert (∃ r, import_psa_bone_mapping ascii_lower "Armature" ["Root"; "Head"; "head"]
                 ["Root"; "Head"] "CASE_INSENSITIVE" = Returned r ∧
               armature_to_psa_bone_indices (mapping r) !! 1 = Some 1) as (r & Hr & H1)
    by (eexists; split; vm_compute; reflexivity).
  by apply (bone_mapping_earliest_claimant _ _ _ _ _ r Hr).
Defined.

(** X2. When the mapping loop goes through, the name kept for each PSA
    bone is the name of its first match in the armature, or its own name
    when it has no match; and the names reported missing are exactly the
    names of the PSA bones without a match. *)
Theorem bone_mapping_names_and_missing
    (lower : string → string) (object_name : string) (psa_bones names : list string)
    (mode : string) (r : mapping_result) :
  import_psa_bone_mapping lower object_name psa_bones names mode = Returned r →
  psa_bone_names (mapping r) = resolved_bone_name lower names mode <$> psa_bones ∧
  (∀ (p : nat) name i a,
     psa_bones !! p = Some name →
     _get_armature_bone_index_for_psa_bone lower name names mode = Some i →
     names !! i = Some a → psa_bone_names (mapping r) !! p = Some a) ∧
  (∀ name, name ∈ missing_bone_names r ↔
           name ∈ psa_bones ∧
           _get_armature_bone_index_for_psa_bone lower name names mode = None).
Proof.
  intros (_ & (_ & _ & _ & Hnames) & Hmissing)%import_psa_bone_mapping_Returned.
  split; [done|]. split.
  - intros p name i a Hp Hi Ha. rewrite Hnames, list_lookup_fmap, Hp. simpl.
    unfold resolved_bone_name. by rewrite Hi, Ha.
  - intros name. rewrite Hmissing, elem_of_difference, !elem_of_list_to_set, Hnames,
      list_elem_of_fmap.
    split.
    + intros [(n & -> & Hn) Hnot]. unfold resolved_bone_name in *.
      destruct (_get_armature_bone_index_for_psa_bone lower n names mode) as [i|] eqn:Hi;
        [|done].
      destruct (get_armature_bone_index_Some lower names n mode i Hi) as (a & Ha & _).
      rewrite Ha in Hnot. simpl in Hnot. destruct Hnot. by eapply list_elem_of_lookup_2.
    + intros [Hin Hnone]. split.
      * exists name. split; [|done]. unfold resolved_bone_name. by rewrite Hnone.
      * intros Hname. unfold _get_armature_bone_index_for_psa_bone in Hnone.
        pose proof (bone_index_from_spec lower names 0 name mode) as Hspec.
        rewrite Hnone in Hspec. apply (Hspec name Hname).
        unfold names_equal. by destruct (decide _).
Qed.

(** A use of X2: of the bones Root, Tail, root mapped onto Root, Head
    with case ignored, the kept names are Root, Tail, Root and Tail is
    the missing name. *)
Lemma bone_mapping_names_and_missing_witness :
  ∃ r, import_psa_bone_mapping ascii_lower "Armature" ["Root"; "Tail"; "root"] ["Root"; "Head"]
         "CASE_INSENSITIVE" = Returned r ∧
       psa_bone_names (mapping r) = ["Root"; "Tail"; "Root"] ∧
       "Tail" ∈ missing_bone_names r.
Proof.
  assert (∃ r, import_psa_bone_mapping ascii_lower "Armature" ["Root"; "Tail"; "root"]
                 ["Root"; "Head"] "CASE_INSENSITIVE" = Returned r) as [r Hr]
    by (eexists; vm_compute; reflexivity).
  exists r. split; [exact Hr|].
  destruct (bone_mapping_names_and_missing _ _ _ _ _ r Hr) as (Hnames & _ & Hmissing).
  split; [by rewrite Hnames|].
  apply Hmissing. split; [|reflexivity].
  apply list_elem_of_further, list_elem_of_here.
Defined.


Section ReaderBones.

Variable decode : string → outcome py_exn string.
Variable lower : string → string.
Variable names : list string.
Variable mode : string.




End ReaderBones.



End BoneMappingFacts.

(** ** Marker ranges on every timeline *)

Module MarkerRangeFacts.

Import PsaExport PsaExportFacts.

(** *** [sorted] *)

Lemma insert_by_frame_perm m l : insert_by_frame m l ≡ₚ m :: l.
Proof.
  induction l as [|x l IH]; simpl; [done|].
  destruct (marker_frame m <=? marker_frame x)%Z; [done|].
  rewrite IH. apply Permutation_swap.
Qed.

Lemma sorted_by_frame_perm l : sorted_by_frame l ≡ₚ l.
Proof.
  induction l as [|m l IH]; simpl; [done|].
  unfold sorted_by_frame in *. simpl. by rewrite insert_by_frame_perm, IH.
Qed.

(** The frames of a sorted list do not go down. *)
Lemma insert_by_frame_ordered m l :
  (∀ (i j : nat) a b, (i ≤ j)%nat → l !! i = Some a → l !! j = Some b →
                      (marker_frame a <= marker_frame b)%Z) →
  ∀ (i j : nat) a b, (i ≤ j)%nat → insert_by_frame m l !! i = Some a →
                     insert_by_frame m l !! j = Some b →
                     (marker_frame a <= marker_frame b)%Z.
Proof.
  induction l as [|x l IH]; intros Hl i j a b Hij; simpl.
  - destruct i, j; simpl; try done. intros [= <-] [= <-]. lia.
  - assert (∀ (i j : nat) a b, (i ≤ j)%nat → l !! i = Some a → l !! j = Some b →
                               (marker_frame a <= marker_frame b)%Z) as Hl'.
    { intros i' j' a' b' Hij'. apply (Hl (S i') (S j')). lia. }
    destruct (marker_frame m <=? marker_frame x)%Z eqn:Hmx.
    + apply Z.leb_le in Hmx. destruct i as [|i], j as [|j]; simpl.
      * intros [= <-] [= <-]. lia.
      * intros [= <-] Hb. etrans; [exact Hmx|]. apply (Hl 0%nat j x b); [lia|done|done].
      * lia.
      * apply Hl. lia.
    + apply Z.leb_gt in Hmx. destruct i as [|i], j as [|j]; simpl.
      * intros [= <-] [= <-]. lia.
      * intros [= <-] Hb.
        assert (b ∈ insert_by_frame m l) as Hin by (by eapply list_elem_of_lookup_2).
        rewrite insert_by_frame_perm in Hin. apply elem_of_cons in Hin as [->|Hin]; [lia|].
        apply list_elem_of_lookup in Hin as [k Hk]. apply (Hl 0%nat (S k) x b); [lia|done|done].
      * lia.
      * apply (IH Hl'). lia.
Qed.

Lemma sorted_by_frame_ordered l (i j : nat) a b :
  (i ≤ j)%nat → sorted_by_frame l !! i = Some a → sorted_by_frame l !! j = Some b →
  (marker_frame a <= marker_frame b)%Z.
Proof.
  revert i j a b. induction l as [|m l IH]; intros i j a b.
  - by destruct i.
  - apply insert_by_frame_ordered. apply IH.
Qed.

(** *** Lookups *)

Lemma marker_by_name_Returned markers name m :
  marker_by_name markers name = Returned m → m ∈ markers ∧ marker_name m = name.
Proof.
  unfold marker_by_name.
  destruct (List.find _ markers) as [m'|] eqn:Hfind; [|done]. intros [= <-].
  apply find_some in Hfind as [Hin Heq]. rewrite list_elem_of_In.
  split; [done|]. by apply String.eqb_eq.
Qed.

Lemma marker_by_name_Raised markers name e :
  marker_by_name markers name = Raised e →
  e = KeyError name ∧ ∀ m, m ∈ markers → marker_name m ≠ name.
Proof.
  unfold marker_by_name.
  destruct (List.find _ markers) as [m'|] eqn:Hfind; [done|]. intros [= <-]. split; [done|].
  intros m Hin%list_elem_of_In. by apply String.eqb_neq, (find_none _ _ Hfind).
Qed.

Lemma list_index_Some (x : string) (l : list string) (i : nat) :
  list_index x l = Some i → l !! i = Some x ∧ ∀ k : nat, (k < i)%nat → l !! k ≠ Some x.
Proof.
  revert i. induction l as [|y l IH]; intros i; simpl; [done|].
  destruct (String.eqb y x) eqn:Hyx.
  - apply String.eqb_eq in Hyx as ->. intros [= <-]. split; [done|]. intros k Hk. lia.
  - apply String.eqb_neq in Hyx. destruct (list_index x l) as [i'|]; [|done].
    simpl. intros [= <-]. destruct (IH i' eq_refl) as [Hi Hfirst]. split; [done|].
    intros [|k] Hk; simpl; [congruence|]. apply Hfirst. lia.
Qed.

Section Ranges.

Variable get_nla_strips_in_timeframe : AnimData → Z → Z → list NlaStrip.
Variable animation_data : AnimData.
Variable context : Context.

Let range_of := marker_sequence_frame_range get_nla_strips_in_timeframe animation_data context.

(** The body of the loop raises exactly for a name that no marker has,
    and then it is a KeyError of that name. *)
Lemma marker_sequence_frame_range_returns name :
  (∃ m, m ∈ scene_timeline_markers context ∧ marker_name m = name) →
  ∃ o, range_of name = Returned o.
Proof.
  intros (m & Hin & Hname). unfold range_of, marker_sequence_frame_range.
  destruct (marker_by_name (scene_timeline_markers context) name) as [m'|e] eqn:Hm.
  - simpl.
    destruct (proj2 (BoneMappingFacts.py_index_Returned name
                       (marker_name <$> sorted_by_frame (scene_timeline_markers context))))
      as [i ->].
    { apply list_elem_of_fmap. exists m. split; [done|]. by rewrite sorted_by_frame_perm. }
    simpl.
    match goal with |- context [let '(_, _) := ?p in _] => destruct p as [a b] end.
    destruct (Qltb b a); by eexists.
  - apply marker_by_name_Raised in Hm as [_ Hnone]. by destruct (Hnone m Hin).
Qed.

Lemma marker_sequence_frame_range_raises name e :
  range_of name = Raised e →
  e = KeyError name ∧ ∀ m, m ∈ scene_timeline_markers context → marker_name m ≠ name.
Proof.
  unfold range_of, marker_sequence_frame_range.
  destruct (marker_by_name (scene_timeline_markers context) name) as [m|e'] eqn:Hm; simpl.
  - apply marker_by_name_Returned in Hm as [Hin Hname].
    destruct (proj2 (BoneMappingFacts.py_index_Returned name
                       (marker_name <$> sorted_by_frame (scene_timeline_markers context))))
      as [i ->].
    { apply list_elem_of_fmap. exists m. split; [done|]. by rewrite sorted_by_frame_perm. }
    simpl.
    match goal with |- context [let '(_, _) := ?p in _] => destruct p as [a b] end.
    by destruct (Qltb b a).
  - intros [= <-]. by apply marker_by_name_Raised.
Qed.

Lemma marker_ranges_loop_returns marker_names d :
  (∀ name, name ∈ marker_names →
           ∃ m, m ∈ scene_timeline_markers context ∧ marker_name m = name) →
  ∃ ranges, marker_ranges_loop get_nla_strips_in_timeframe animation_data context
              marker_names d = Returned ranges.
Proof.
  revert d. induction marker_names as [|name names IH]; intros d Hall; simpl; [by eexists|].
  fold (range_of name).
  destruct (marker_sequence_frame_range_returns name) as [o ->];
    [apply Hall, list_elem_of_here|].
  simpl. apply IH. intros n Hn. by apply Hall, list_elem_of_further.
Qed.

(** X7. [get_timeline_marker_sequence_frame_ranges] returns exactly when
    every name it is given is the name of a timeline marker (as in its
    caller, which passes the names of the timeline markers); otherwise
    it raises the KeyError of the first of its names that no marker
    has. *)
Theorem marker_ranges_return_iff_names_known (marker_names : list string) :
  ((∃ ranges,
      get_timeline_marker_sequence_frame_ranges get_nla_strips_in_timeframe animation_data
        context marker_names = Returned ranges) ↔
   (∀ name, name ∈ marker_names →
            ∃ m, m ∈ scene_timeline_markers context ∧ marker_name m = name)) ∧
  (∀ e,
     get_timeline_marker_sequence_frame_ranges get_nla_strips_in_timeframe animation_data
       context marker_names = Raised e →
     ∃ known name rest,
       marker_names = (known ++ name :: rest)%list ∧
       e = KeyError name ∧
       (∀ n, n ∈ known → ∃ m, m ∈ scene_timeline_markers context ∧ marker_name m = n) ∧
       ∀ m, m ∈ scene_timeline_markers context → marker_name m ≠ name) ∧
  (∀ known name rest,
     marker_names = (known ++ name :: rest)%list →
     (∀ n, n ∈ known → ∃ m, m ∈ scene_timeline_markers context ∧ marker_name m = n) →
     (∀ m, m ∈ scene_timeline_markers context → marker_name m ≠ name) →
     get_timeline_marker_sequence_frame_ranges get_nla_strips_in_timeframe animation_data
       context marker_names = Raised (KeyError name)).
Proof.
  unfold get_timeline_marker_sequence_frame_ranges. generalize (∅ : gmap string (Z * Z)).
  induction marker_names as [|name names IH]; intros d; simpl.
  - split; [|split; [done|]].
    + split; [|eauto]. by intros _ name Hin%not_elem_of_nil.
    + intros known name rest Hnil. by destruct known.
  - fold (range_of name). destruct (range_of name) as [o|e] eqn:Hname; simpl.
    + assert (∃ m, m ∈ scene_timeline_markers context ∧ marker_name m = name) as Hknown.
      { destruct (marker_by_name (scene_timeline_markers context) name) as [m|e] eqn:Hm.
        - apply marker_by_name_Returned in Hm. eauto.
        - unfold range_of, marker_sequence_frame_range in Hname. by rewrite Hm in Hname. }
      destruct (IH (match o with Some range => <[name:=range]> d | None => d end))
        as (Hiff & Hraised & Hfirst).
      split; [|split].
      * rewrite Hiff. split.
        -- intros Hall n [->|Hin]%elem_of_cons; [done|by apply Hall].
        -- intros Hall n Hin. by apply Hall, list_elem_of_further.
      * intros e He. destruct (Hraised e He) as (known & n & rest & -> & -> & Hall & Hnone).
        exists (name :: known), n, rest. split; [done|]. split; [done|]. split; [|done].
        intros n' [->|Hin]%elem_of_cons; [done|by apply Hall].
      * intros known n rest Hsplit Hall Hnone. destruct known as [|k known]; simpl in Hsplit.
        -- injection Hsplit as <- _. destruct Hknown as (m & Hin & Hm). by destruct (Hnone m).
        -- injection Hsplit as <- ->. apply (Hfirst known n rest); [done| |done].
           intros n' Hin. by apply Hall, list_elem_of_further.
    + apply marker_sequence_frame_range_raises in Hname as [-> Hnone]. split; [|split].
      * split; [by intros [? ?]|]. intros Hall.
        destruct (Hall name) as (m & Hin & Hm); [apply list_elem_of_here|].
        by destruct (Hnone m).
      * intros e [= <-]. exists [], name, names. split; [done|]. split; [done|].
        split; [|done]. by intros n Hin%not_elem_of_nil.
      * intros known n rest Hsplit Hall Hnone'. destruct known as [|k known]; simpl in Hsplit.
        -- by injection Hsplit as <- _.
        -- injection Hsplit as <- _.
           destruct (Hall name) as (m & Hin & Hm); [apply list_elem_of_here|].
           by destruct (Hnone m).
Qed.

(** X8. Every range in the result lies between the markers: it does not
    start before the marker of its name (the first marker of that name),
    it does not end before it starts, and it does not reach past any
    marker that lies later than its own. *)
Theorem marker_ranges_between_markers
    (marker_names : list string) (ranges : gmap string (Z * Z))
    (name : string) (frame_start frame_end : Z) :
  get_timeline_marker_sequence_frame_ranges get_nla_strips_in_timeframe animation_data
    context marker_names = Returned ranges →
  ranges !! name = Some (frame_start, frame_end) →
  ∃ marker,
    marker_by_name (scene_timeline_markers context) name = Returned marker ∧
    (marker_frame marker <= frame_start)%Z ∧ (frame_start <= frame_end)%Z ∧
    ∀ later, later ∈ scene_timeline_markers context →
             (marker_frame marker < marker_frame later)%Z →
             (frame_end <= marker_frame later)%Z.
Proof.
  intros Hranges Hlookup.
  destruct (marker_ranges_loop_lookup _ _ _ _ _ _ Hranges name) as [Hin Hout].
  assert (range_of name = Returned (Some (frame_start, frame_end))) as Hrange.
  { destruct (decide (name ∈ marker_names)) as [Hname|Hname].
    - destruct (Hin Hname) as ([range|] & Hrange & Hname'); rewrite Hname' in Hlookup.
      + by injection Hlookup as ->.
      + by rewrite lookup_empty in Hlookup.
    - by rewrite (Hout Hname), lookup_empty in Hlookup. }
  clear Hin Hout Hranges Hlookup.
  pose proof (marker_sequence_frame_range_ordered _ _ _ _ _ _ Hrange) as Hordered.
  unfold range_of, marker_sequence_frame_range in Hrange.
  destruct (marker_by_name (scene_timeline_markers context) name) as [marker|] eqn:Hmarker;
    [|done].
  simpl in Hrange. exists marker. split; [done|].
  apply marker_by_name_Returned in Hmarker as [Hin Hname].
  set (sorted := sorted_by_frame (scene_timeline_markers context)) in *.
  unfold py_index in Hrange.
  destruct (list_index name (marker_name <$> sorted)) as [i|] eqn:Hindex; [|done].
  simpl in Hrange. apply list_index_Some in Hindex as [Hi Hfirst].
  rewrite list_lookup_fmap in Hi.
  destruct (sorted !! i) as [first|] eqn:Hsorted; [|done]. injection Hi as Hfirst_name.
  (* the marker found by name does not lie before the first of its name in frame order *)
  assert (marker_frame first <= marker_frame marker)%Z as Hfirst_frame.
  { assert (marker ∈ sorted) as Hin' by (unfold sorted; by rewrite sorted_by_frame_perm).
    apply list_elem_of_lookup in Hin' as [k Hk].
    destruct (decide (k < i)%nat) as [Hlt|Hge].
    - destruct (Hfirst k Hlt). by rewrite list_lookup_fmap, Hk, <- Hname.
    - apply (sorted_by_frame_ordered (scene_timeline_markers context) i k); [lia|done|done]. }
  (* a later marker comes after position i *)
  assert (∀ later, later ∈ scene_timeline_markers context →
                   (marker_frame marker < marker_frame later)%Z →
                   ∃ next, sorted !! (i + 1)%nat = Some next ∧
                           (marker_frame next <= marker_frame later)%Z) as Hlater.
  { intros later Hl Hlt.
    assert (later ∈ sorted) as Hl' by (unfold sorted; by rewrite sorted_by_frame_perm).
    apply list_elem_of_lookup in Hl' as [j Hj].
    destruct (decide (j ≤ i)%nat) as [Hle|Hgt].
    - pose proof (sorted_by_frame_ordered (scene_timeline_markers context) j i later first
                    Hle Hj Hsorted). lia.
    - destruct (lookup_lt_is_Some_2 sorted (i + 1)%nat) as [next Hnext].
      { apply lookup_lt_Some in Hj. lia. }
      exists next. split; [done|].
      apply (sorted_by_frame_ordered (scene_timeline_markers context) (i + 1)%nat j);
        [lia|done|done]. }
  destruct (sorted !! (i + 1)%nat) as [next|] eqn:Hnext.
  - destruct (get_nla_strips_in_timeframe animation_data (marker_frame marker)
                (marker_frame next)) as [|strip rest].
    + rewrite Qltb_irrefl in Hrange. simpl in Hrange. rewrite py_int_inject_Z in Hrange.
      injection Hrange as <- <-. split; [lia|]. split; [lia|]. intros later Hl Hlt. lia.
    + destruct (Qltb _ _); [done|]. simpl in Hrange. injection Hrange as <- <-.
      split; [|split; [done|]].
      * rewrite <- (py_int_inject_Z (marker_frame marker)) at 1. apply py_int_mono.
        apply py_max_spec.
      * intros later Hl Hlt. destruct (Hlater later Hl Hlt) as (next' & [= <-] & Hle).
        etrans; [|exact Hle].
        rewrite <- (py_int_inject_Z (marker_frame next)) at 2. apply py_int_mono.
        apply py_min_spec.
  - destruct (Qltb _ _); [done|]. simpl in Hrange. injection Hrange as <- <-.
    rewrite py_int_inject_Z. split; [lia|]. split; [by rewrite py_int_inject_Z in Hordered|].
    intros later Hl Hlt. by destruct (Hlater later Hl Hlt) as (? & ? & _).
Qed.

End Ranges.

(** A use of X7: with the one marker Idle, the names Idle, Ghost, Idle,
    Phantom raise the KeyError of Ghost. *)
Lemma marker_ranges_return_iff_names_known_witness :
  let context :=
    {| scene_render_fps := 30;
       scene_timeline_markers := [{| marker_name := "Idle"; marker_frame := 0 |}] |} in
  get_timeline_marker_sequence_frame_ranges overlapping_nla_strips {| nla_tracks := [] |}
    context ["Idle"; "Ghost"; "Idle"; "Phantom"] = Raised (KeyError "Ghost").
Proof.
  intros context.
  apply (proj2 (proj2 (marker_ranges_return_iff_names_known overlapping_nla_strips
                         {| nla_tracks := [] |} context
                         ["Idle"; "Ghost"; "Idle"; "Phantom"]))
           ["Idle"] "Ghost" ["Idle"; "Phantom"]).
  - reflexivity.
  - intros n ->%list_elem_of_singleton. exists {| marker_name := "Idle"; marker_frame := 0 |}.
    split; [apply list_elem_of_here|reflexivity].
  - intros m ->%list_elem_of_singleton. discriminate.
Defined.

(** A use of X8: three markers and one strip from 10 to 45; the range of
    Idle does not reach past the marker Run at 60. *)
Lemma marker_ranges_between_markers_witness :
  let strip := {| strip_frame_start := 10; strip_frame_end := 45 |} in
  let animation_data := {| nla_tracks := [{| mute := false; strips := [strip] |}] |} in
  let run := {| marker_name := "Run"; marker_frame := 60 |} in
  let context :=
    {| scene_render_fps := 30;
       scene_timeline_markers := [{| marker_name := "Idle"; marker_frame := 0 |};
                                  {| marker_name := "Walk"; marker_frame := 30 |}; run] |} in
  ∃ ranges frame_start frame_end,
    get_timeline_marker_sequence_frame_ranges overlapping_nla_strips animation_data context
      ["Idle"; "Walk"; "Run"] = Returned ranges ∧
    ranges !! "Idle" = Some (frame_start, frame_end) ∧
    (frame_end <= 60)%Z.
Proof.
  intros strip animation_data run context.
  assert (∃ ranges,
            get_timeline_marker_sequence_frame_ranges overlapping_nla_strips animation_data
              context ["Idle"; "Walk"; "Run"] = Returned ranges ∧
            ranges !! "Idle" = Some (10, 30)%Z) as (ranges & Hranges & Hidle)
    by (eexists; split; vm_compute; reflexivity).
  exists ranges, 10%Z, 30%Z. split; [exact Hranges|]. split; [exact Hidle|].
  destruct (marker_ranges_between_markers overlapping_nla_strips animation_data context
              _ ranges "Idle" 10 30 Hranges Hidle) as (marker & Hmarker & _ & _ & Hlater).
  injection Hmarker as <-.
  apply (Hlater run); [|simpl; lia].
  do 2 apply list_elem_of_further. apply list_elem_of_here.
Defined.

End MarkerRangeFacts.

(** ** The action and marker lists of the export *)

Module PsaExportListFacts.

Import PsaExport PsaExportFacts PsaExportLists MarkerRangeFacts.

(** *** The data path pattern *)

Lemma strip_prefix_Some p s r : strip_prefix p s = Some r ↔ s = p ++ r.
Proof.
  revert s. induction p as [|a p IH]; intros s; simpl.
  - rewrite append_nil_l. split; [by intros [= ->]|by intros ->].
  - rewrite append_cons. destruct s as [|b s]; [done|].
    destruct (Ascii.eqb a b) eqn:Hab.
    + apply Ascii.eqb_eq in Hab as ->. rewrite IH. split; [by intros ->|by intros [= ->]].
    + apply Ascii.eqb_neq in Hab. split; [done|]. by intros [= -> _].
Qed.

Lemma until_double_quote_spec s :
  s = (until_double_quote s).1 ++ (until_double_quote s).2 ∧
  string_exists is_double_quote (until_double_quote s).1 = false ∧
  match (until_double_quote s).2 with
  | String c _ => is_double_quote c = true
  | EmptyString => True
  end.
Proof.
  induction s as [|c s (Happ & Hno & Hrest)]; simpl; [done|].
  destruct (is_double_quote c) eqn:Hc; simpl.
  - by rewrite Hc.
  - destruct (until_double_quote s) as [name rest]. simpl in *.
    rewrite append_cons, <- Happ, Hc. done.
Qed.

Lemma until_double_quote_app name rest :
  string_exists is_double_quote name = false →
  match rest with String c _ => is_double_quote c = true | EmptyString => True end →
  until_double_quote (name ++ rest) = (name, rest).
Proof.
  intros Hno Hrest. induction name as [|c name IH]; simpl in *.
  - rewrite append_nil_l. destruct rest as [|c rest]; simpl; [done|]. by rewrite Hrest.
  - apply orb_false_iff in Hno as [Hc Hno]. rewrite ?append_cons. simpl.
    by rewrite Hc, (IH Hno).
Qed.

(** The first group of a match is a bone name between double quotes
    right after pose.bones[ and right before ]. *)
Lemma data_path_bone_name_Some data_path bone_name :
  data_path_bone_name data_path = Some bone_name ↔
  bone_name ≠ "" ∧ string_exists is_double_quote bone_name = false ∧
  ∃ rest, data_path
          = "pose.bones[" ++ double_quote_string ++ bone_name ++ double_quote_string
              ++ "]" ++ rest.
Proof.
  unfold data_path_bone_name. split.
  - destruct (strip_prefix "pose.bones[" data_path) as [[|c rest]|] eqn:Hprefix; try done.
    apply strip_prefix_Some in Hprefix as ->.
    destruct (is_double_quote c) eqn:Hc; [|done]. apply Ascii.eqb_eq in Hc as ->.
    destruct (until_double_quote_spec rest) as (Happ & Hno & _).
    destruct (until_double_quote rest) as [[|n name] [|c1 [|c2 rest']]]; try done.
    simpl in *.
    destruct (is_double_quote c1) eqn:Hc1; [|done]. apply Ascii.eqb_eq in Hc1 as ->.
    destruct (is_closing_bracket c2) eqn:Hc2; [|done]. apply Ascii.eqb_eq in Hc2 as ->.
    intros [= <-]. split; [done|]. split; [done|]. exists rest'. by rewrite Happ.
  - intros (Hname & Hno & rest & ->).
    rewrite (proj2 (strip_prefix_Some "pose.bones["
                       ("pose.bones[" ++ double_quote_string ++ bone_name
                          ++ double_quote_string ++ "]" ++ rest)
                       (double_quote_string ++ bone_name ++ double_quote_string
                          ++ "]" ++ rest)) eq_refl).
    unfold double_quote_string at 1. rewrite append_cons, append_nil_l.
    change (is_double_quote (ascii_of_nat 34)) with true. simpl.
    rewrite until_double_quote_app; [|done|done].
    destruct bone_name as [|n name]; [done|].
    unfold double_quote_string. by repeat (rewrite ?append_cons, ?append_nil_l).
Qed.

Lemma any_fcurve_for_true bone_names data_paths :
  any_fcurve_for bone_names data_paths = true ↔
  ∃ data_path bone_name,
    data_path ∈ data_paths ∧ data_path_bone_name data_path = Some bone_name ∧
    bone_name ∈ bone_names.
Proof.
  induction data_paths as [|p ps IH]; simpl.
  - split; [done|]. by intros (? & ? & ?%not_elem_of_nil & _).
  - destruct (data_path_bone_name p) as [n|] eqn:Hp.
    + destruct (bool_decide (n ∈ bone_names)) eqn:Hn.
      * apply bool_decide_eq_true in Hn. split; [|done]. intros _. exists p, n.
        split; [apply list_elem_of_here|done].
      * apply bool_decide_eq_false in Hn. rewrite IH. split.
        -- intros (p' & n' & Hin & Hp' & Hn'). exists p', n'.
           split; [by apply list_elem_of_further|done].
        -- intros (p' & n' & [->|Hin]%elem_of_cons & Hp' & Hn'); [|eauto].
           rewrite Hp in Hp'. by injection Hp' as <-.
    + rewrite IH. split.
      * intros (p' & n' & Hin & Hp' & Hn'). exists p', n'.
        split; [by apply list_elem_of_further|done].
      * intros (p' & n' & [->|Hin]%elem_of_cons & Hp' & Hn'); [congruence|eauto].
Qed.

(** X9. An action is for the armature exactly when one of its f-curves
    has a data path that starts with pose.bones[, a double quote, the
    name of a bone of the armature, a double quote and ]; the name is not
    empty and has no double quote in it. An action without f-curves is
    not for any armature. *)
Theorem is_action_for_armature_iff (bone_names : list string) (a : ActionData) :
  (is_action_for_armature bone_names a = true ↔
   ∃ data_path bone_name rest,
     data_path ∈ fcurve_data_paths a ∧ bone_name ∈ bone_names ∧
     bone_name ≠ "" ∧ string_exists is_double_quote bone_name = false ∧
     data_path = "pose.bones[" ++ double_quote_string ++ bone_name ++ double_quote_string
                   ++ "]" ++ rest) ∧
  (fcurve_data_paths a = [] → is_action_for_armature bone_names a = false).
Proof.
  unfold is_action_for_armature. split.
  - destruct (decide (length (fcurve_data_paths a) = 0)) as [Hlen|Hlen].
    + apply length_zero_iff_nil in Hlen. rewrite Hlen. split; [done|].
      by intros (? & ? & ? & ?%not_elem_of_nil & _).
    + rewrite any_fcurve_for_true. setoid_rewrite data_path_bone_name_Some. split.
      * intros (p & n & Hin & (Hn & Hno & rest & Hp) & Hbone). by exists p, n, rest.
      * intros (p & n & rest & Hin & Hbone & Hn & Hno & Hp). exists p, n. eauto 10.
  - by intros ->.
Qed.

(** A use of X9: an action with a location curve of the bone Head. *)
Lemma is_action_for_armature_iff_witness :
  let a :=
    {| action := {| action_name := "Nod"; frame_range := (0, 10)%Q;
                    custom_properties := ∅; pose_markers := [] |};
       fcurve_data_paths := ["location";
                             "pose.bones[" ++ double_quote_string ++ "Head"
                               ++ double_quote_string ++ "].location"] |} in
  is_action_for_armature ["Root"; "Head"] a = true.
Proof.
  intros a. apply (is_action_for_armature_iff ["Root"; "Head"] a).
  exists ("pose.bones[" ++ double_quote_string ++ "Head" ++ double_quote_string
            ++ "].location"), "Head", ".location".
  split; [apply list_elem_of_further, list_elem_of_here|].
  split; [apply list_elem_of_further, list_elem_of_here|].
  split; [discriminate|]. split; reflexivity.
Defined.

(** *** The two lists *)

Lemma elem_of_pose_marker_items_from a pose_markers k remaining item :
  item ∈ pose_marker_items_from a pose_markers k remaining ↔
  ∃ (j : nat) pose_marker sequence,
    remaining !! j = Some pose_marker ∧
    starts_with_hash (marker_name pose_marker) = false ∧
    sequence ∈ get_sequences_from_action_pose_marker (action a) pose_markers pose_marker
                 (k + j) ∧
    item = action_item a true sequence.
Proof.
  revert k. induction remaining as [|pm rest IH]; intros k; simpl.
  - split; [by intros ?%not_elem_of_nil|]. by intros (j & ? & ? & ? & _).
  - rewrite elem_of_app, IH. split.
    + intros [Hin|(j & pm' & seq & Hj & Hhash & Hseq & ->)].
      * destruct (starts_with_hash (marker_name pm)) eqn:Hhash;
          [by apply not_elem_of_nil in Hin|].
        apply list_elem_of_fmap in Hin as (seq & -> & Hseq).
        exists 0%nat, pm, seq. by rewrite Nat.add_0_r.
      * exists (S j), pm', seq. split; [done|]. split; [done|]. split; [|done].
        by replace (k + S j)%nat with (S k + j)%nat by lia.
    + intros ([|j] & pm' & seq & Hj & Hhash & Hseq & ->); simpl in Hj.
      * injection Hj as <-. left. rewrite Hhash. apply list_elem_of_fmap.
        exists seq. split; [done|]. by rewrite Nat.add_0_r in Hseq.
      * right. exists j, pm', seq. split; [done|]. split; [done|]. split; [|done].
        by replace (S k + j)%nat with (k + S j)%nat by lia.
Qed.

Lemma marker_items_spec ranges names item :
  item ∈ marker_items ranges names ↔
  ∃ frame_start frame_end,
    marker_item_name item ∈ names ∧
    starts_with_hash (marker_item_name item) = false ∧
    ranges !! marker_item_name item = Some (frame_start, frame_end) ∧
    item = {| marker_item_name := marker_item_name item; marker_item_is_selected := false;
              marker_item_frame_start := frame_start; marker_item_frame_end := frame_end |}.
Proof.
  induction names as [|name names IH]; simpl.
  - split; [by intros ?%not_elem_of_nil|]. by intros (? & ? & ?%not_elem_of_nil & _).
  - assert ((∃ frame_start frame_end,
               marker_item_name item ∈ names ∧
               starts_with_hash (marker_item_name item) = false ∧
               ranges !! marker_item_name item = Some (frame_start, frame_end) ∧
               item = {| marker_item_name := marker_item_name item;
                         marker_item_is_selected := false;
                         marker_item_frame_start := frame_start;
                         marker_item_frame_end := frame_end |}) →
            ∃ frame_start frame_end,
              marker_item_name item ∈ name :: names ∧
              starts_with_hash (marker_item_name item) = false ∧
              ranges !! marker_item_name item = Some (frame_start, frame_end) ∧
              item = {| marker_item_name := marker_item_name item;
                        marker_item_is_selected := false;
                        marker_item_frame_start := frame_start;
                        marker_item_frame_end := frame_end |}) as Hweaken.
    { intros (fs & fe & Hin & H). exists fs, fe. split; [by apply list_elem_of_further|done]. }
    destruct (ranges !! name) as [[fs fe]|] eqn:Hname.
    + destruct (starts_with_hash name) eqn:Hhash.
      * rewrite IH. split; [done|].
        intros (fs' & fe' & [Heq|Hin]%elem_of_cons & Hh & H); [congruence|by exists fs', fe'].
      * rewrite elem_of_cons, IH. split.
        -- intros [->|H]; [|by apply Hweaken]. exists fs, fe. simpl.
           split; [apply list_elem_of_here|done].
        -- intros (fs' & fe' & [Heq|Hin]%elem_of_cons & Hh & Hr & Hitem);
             [|right; by exists fs', fe'].
           left. rewrite Hitem, Heq. rewrite Heq, Hname in Hr. by injection Hr as <- <-.
    + rewrite IH. split; [done|].
      intros (fs' & fe' & [Heq|Hin]%elem_of_cons & Hh & Hr & H); [congruence|by exists fs', fe'].
Qed.

Lemma marker_items_sublist ranges names :
  marker_item_name <$> marker_items ranges names `sublist_of` names.
Proof.
  induction names as [|name names IH]; simpl; [done|].
  destruct (ranges !! name) as [[fs fe]|]; [|by apply sublist_cons].
  destruct (starts_with_hash name); [by apply sublist_cons|]. simpl. by apply sublist_skip.
Qed.

Section UpdateLists.

Variable get_nla_strips_in_timeframe : AnimData → Z → Z → list NlaStrip.
Variable context : Context.
Variable active_object : Object.
Variable should_override_animation_data : bool.
Variable animation_data_override : option Object.
Variable actions : list ActionData.
Variable armature_bone_names : list string.

Let updated :=
  update_actions_and_timeline_markers get_nla_strips_in_timeframe context active_object
    should_override_animation_data animation_data_override actions armature_bone_names.

(** X10. [update_actions_and_timeline_markers] raises exactly when the
    active object is not an armature, and then both lists are left
    empty. Every item it puts in the marker list is not selected, has the
    name of a timeline marker, a name that does not start with #, and a
    range with frame_start <= frame_end; the items come in the order of
    the timeline markers. *)
Theorem update_marker_list :
  (updated.1 = Returned () ↔ object_type active_object = "ARMATURE") ∧
  (updated.1 ≠ Returned () →
   updated.1 = Raised (RuntimeError "Selected object must be an Armature") ∧
   updated.2 = ([], [])) ∧
  (∀ item, item ∈ updated.2.2 →
           marker_item_is_selected item = false ∧
           starts_with_hash (marker_item_name item) = false ∧
           (marker_item_frame_start item <= marker_item_frame_end item)%Z ∧
           ∃ m, m ∈ scene_timeline_markers context ∧ marker_name m = marker_item_name item) ∧
  marker_item_name <$> updated.2.2 `sublist_of` marker_name <$> scene_timeline_markers context.
Proof.
  unfold updated, update_actions_and_timeline_markers, get_animation_data_object.
  destruct (String.eqb (object_type active_object) "ARMATURE") eqn:Htype; simpl.
  - apply String.eqb_eq in Htype.
    destruct ((if should_override_animation_data then mret animation_data_override
               else mret (Some active_object)) : outcome py_exn (option Object))
      as [animation_data_object|] eqn:Hobject; [|by destruct should_override_animation_data].
    destruct (animation_data_object ≫= animation_data) as [data|]; simpl.
    + destruct (marker_ranges_loop_returns get_nla_strips_in_timeframe data context
                  (marker_name <$> scene_timeline_markers context) ∅) as [ranges Hranges].
      { intros name (m & -> & Hm)%list_elem_of_fmap. eauto. }
      unfold get_timeline_marker_sequence_frame_ranges. rewrite Hranges. simpl.
      split; [done|]. split; [done|]. split; [|apply marker_items_sublist].
      intros item (fs & fe & Hin & Hhash & Hrange & ->)%marker_items_spec. simpl in *.
      split; [done|]. split; [done|]. split.
      * destruct (marker_ranges_loop_lookup _ _ _ _ _ _ Hranges (marker_item_name item))
          as [Hlookup _].
        destruct (Hlookup Hin) as ([range|] & Hbody & Hitem); rewrite Hitem in Hrange.
        -- injection Hrange as ->.
           by apply (marker_sequence_frame_range_ordered _ _ _ _ _ _ Hbody).
        -- by rewrite lookup_empty in Hrange.
      * apply list_elem_of_fmap in Hin as (m & Hname & Hm). eauto.
    + split; [done|]. split; [done|]. split; [by intros item ?%not_elem_of_nil|].
      apply sublist_nil_l.
  - apply String.eqb_neq in Htype.
    split; [split; [done|by intros ?]|]. split; [done|].
    split; [by intros item ?%not_elem_of_nil|]. apply sublist_nil_l.
Qed.

(** X11. When the object that gives the animation data has animation
    data, the items of the action list are exactly these, all of them not
    selected: for every action with an f-curve for a bone of the
    armature, the sequences of the action itself unless its name starts
    with #, and the sequences of each of its pose markers whose name does
    not start with #, taken in frame order; an action whose own name
    starts with # still gives the items of its pose markers. *)
Theorem update_action_list (animation_data_object : Object) (data : AnimData) :
  get_animation_data_object active_object should_override_animation_data
    animation_data_override = Returned (Some animation_data_object) →
  animation_data animation_data_object = Some data →
  ∀ item,
    item ∈ updated.2.1 ↔
    ∃ a sequence,
      a ∈ actions ∧ is_action_for_armature armature_bone_names a = true ∧
      ((starts_with_hash (action_name (action a)) = false ∧
        sequence ∈ get_sequences_from_action (action a) ∧
        item = action_item a false sequence) ∨
       (∃ (i : nat) pose_marker,
          sorted_by_frame (pose_markers (action a)) !! i = Some pose_marker ∧
          starts_with_hash (marker_name pose_marker) = false ∧
          sequence ∈ get_sequences_from_action_pose_marker (action a)
                       (sorted_by_frame (pose_markers (action a))) pose_marker i ∧
          item = action_item a true sequence)).
Proof.
  intros Hobject Hdata item. unfold updated, update_actions_and_timeline_markers.
  rewrite Hobject. simpl. rewrite Hdata.
  assert (item ∈ List.flat_map items_of_action
                   (List.filter (is_action_for_armature armature_bone_names) actions) ↔
          ∃ a, a ∈ actions ∧ is_action_for_armature armature_bone_names a = true ∧
               item ∈ items_of_action a) as Hflat.
  { rewrite list_elem_of_In, in_flat_map. split.
    - intros (a & [Ha Hfor]%filter_In & Hitem). exists a.
      by rewrite !list_elem_of_In.
    - intros (a & Ha & Hfor & Hitem). exists a. rewrite filter_In, <- !list_elem_of_In. done. }
  assert (∀ a, item ∈ items_of_action a ↔
               ∃ sequence,
                 (starts_with_hash (action_name (action a)) = false ∧
                  sequence ∈ get_sequences_from_action (action a) ∧
                  item = action_item a false sequence) ∨
                 (∃ (i : nat) pose_marker,
                    sorted_by_frame (pose_markers (action a)) !! i = Some pose_marker ∧
                    starts_with_hash (marker_name pose_marker) = false ∧
                    sequence ∈ get_sequences_from_action_pose_marker (action a)
                                 (sorted_by_frame (pose_markers (action a))) pose_marker i ∧
                    item = action_item a true sequence)) as Hitems.
  { intros a. unfold items_of_action. rewrite elem_of_app, elem_of_pose_marker_items_from.
    split.
    - intros [Hin|(j & pm & seq & Hj & Hhash & Hseq & ->)].
      + destruct (starts_with_hash (action_name (action a))) eqn:Hhash;
          [by apply not_elem_of_nil in Hin|].
        apply list_elem_of_fmap in Hin as (seq & -> & Hseq). exists seq. by left.
      + exists seq. right. by exists j, pm.
    - intros (seq & [(Hhash & Hseq & ->)|(i & pm & Hi & Hhash & Hseq & ->)]).
      + left. rewrite Hhash. apply list_elem_of_fmap. eauto.
      + right. by exists i, pm, seq. }
  destruct (get_timeline_marker_sequence_frame_ranges _ _ _ _) as [ranges|e]; simpl;
    rewrite Hflat; setoid_rewrite Hitems.
  all: split;
    [ intros (a & Ha & Hfor & seq & H); by exists a, seq
    | intros (a & seq & Ha & Hfor & H); exists a; eauto ].
Qed.

End UpdateLists.

(** A use of X10: with a mesh as the active object the update raises and
    leaves both lists empty. *)
Lemma update_marker_list_witness :
  let context :=
    {| scene_render_fps := 30;
       scene_timeline_markers := [{| marker_name := "Idle"; marker_frame := 0 |}] |} in
  let mesh := {| object_type := "MESH"; animation_data := Some {| nla_tracks := [] |} |} in
  (update_actions_and_timeline_markers overlapping_nla_strips context mesh false None [] []).2
    = ([], []).
Proof.
  intros context mesh.
  apply (update_marker_list overlapping_nla_strips context mesh false None [] []).
  discriminate.
Defined.

(** A use of X11: an action whose name starts with # and that has the
    pose marker Wave at frame 5 still gives the item Wave from 5 to 20. *)
Lemma update_action_list_witness :
  let context := {| scene_render_fps := 30; scene_timeline_markers := [] |} in
  let data := {| nla_tracks := [] |} in
  let armature := {| object_type := "ARMATURE"; animation_data := Some data |} in
  let a :=
    {| action := {| action_name := "#Hidden"; frame_range := (0, 20)%Q;
                    custom_properties := ∅;
                    pose_markers := [{| marker_name := "Wave"; marker_frame := 5 |}] |};
       fcurve_data_paths := ["pose.bones[" ++ double_quote_string ++ "Head"
                               ++ double_quote_string ++ "].location"] |} in
  action_item a true ("Wave", 5, 20)%Z
    ∈ (update_actions_and_timeline_markers overlapping_nla_strips context armature false None
         [a] ["Head"]).2.1.
Proof.
  intros context data armature a.
  apply (update_action_list overlapping_nla_strips context armature false None [a] ["Head"]
           armature data); [reflexivity|reflexivity|].
  exists a, ("Wave", 5, 20)%Z. split; [apply list_elem_of_here|]. split; [reflexivity|].
  right. exists 0%nat, {| marker_name := "Wave"; marker_frame := 5 |}.
  split; [reflexivity|]. split; [reflexivity|]. split; [apply list_elem_of_here|reflexivity].
Defined.

End PsaExportListFacts.

(** ** The sequence filter and the selection operators of the PSA import *)

Module PsaImportSelectionFacts.

Import PsaImport PsaImportSelection.

Lemma clear_flags_from_zip (keep : PSA_PG_import_action_list_item → bool)
    (sequences : list PSA_PG_import_action_list_item) :
  ∀ (pre flags : list Z), length flags = length sequences →
    clear_flags_from keep (length pre) sequences (pre ++ flags)%list
    = (pre ++ zip_with (fun s f => if keep s then f else clear_filter_flag f)
                sequences flags)%list.
Proof.
  induction sequences as [|s rest IH]; intros pre flags Hlen.
  - destruct flags; [|done]. by simpl.
  - destruct flags as [|f fl]; [done|]. simpl in Hlen.
    cbn [clear_flags_from zip_with].
    replace (if keep s then (pre ++ f :: fl)%list
             else alter clear_filter_flag (length pre) (pre ++ f :: fl)%list)
      with ((pre ++ [if keep s then f else clear_filter_flag f]) ++ fl)%list.
    + replace (S (length pre))
        with (length (pre ++ [if keep s then f else clear_filter_flag f])%list)
        by (rewrite length_app; simpl; lia).
      rewrite IH by lia. by rewrite <- app_assoc.
    + rewrite <- app_assoc. simpl. destruct (keep s); [done|].
      rewrite <- (Nat.add_0_r (length pre)) at 1.
      by rewrite alter_app_r.
Qed.

Lemma invert_flags_from_map (sequences : list PSA_PG_import_action_list_item) :
  ∀ (pre flags : list Z), length flags = length sequences →
    invert_flags_from (length pre) sequences (pre ++ flags)%list
    = (pre ++ (invert_filter_flag <$> flags))%list.
Proof.
  induction sequences as [|s rest IH]; intros pre flags Hlen.
  - destruct flags; [|done]. by simpl.
  - destruct flags as [|f fl]; [done|]. simpl in Hlen.
    cbn [invert_flags_from].
    rewrite <- (Nat.add_0_r (length pre)) at 2.
    rewrite alter_app_r. simpl.
    replace (pre ++ invert_filter_flag f :: fl)%list
      with ((pre ++ [invert_filter_flag f]) ++ fl)%list by (by rewrite <- app_assoc).
    replace (S (length pre)) with (length (pre ++ [invert_filter_flag f])%list)
      by (rewrite length_app; simpl; lia).
    rewrite IH by lia. by rewrite <- app_assoc.
Qed.

Lemma zip_with_fmap_same {A B C : Type} (g : A → B → C) (h : A → B) (l : list A) :
  zip_with g l (h <$> l) = (fun a => g a (h a)) <$> l.
Proof. induction l as [|a l IH]; [done|]. rewrite fmap_cons. cbn [zip_with]. by rewrite IH. Qed.

Lemma clear_flags_from_fmap (keep : PSA_PG_import_action_list_item → bool)
    (F : PSA_PG_import_action_list_item → Z)
    (sequences : list PSA_PG_import_action_list_item) :
  clear_flags_from keep 0 sequences (F <$> sequences)
  = (fun s => if keep s then F s else clear_filter_flag (F s)) <$> sequences.
Proof.
  pose proof (clear_flags_from_zip keep sequences [] (F <$> sequences)) as H.
  simpl in H. rewrite H by (by rewrite length_fmap).
  by rewrite zip_with_fmap_same.
Qed.

Lemma invert_flags_from_fmap (F : PSA_PG_import_action_list_item → Z)
    (sequences : list PSA_PG_import_action_list_item) :
  invert_flags_from 0 sequences (F <$> sequences)
  = (fun s => invert_filter_flag (F s)) <$> sequences.
Proof.
  pose proof (invert_flags_from_map sequences [] (F <$> sequences)) as H.
  simpl in H. rewrite H by (by rewrite length_fmap).
  by rewrite <- list_fmap_compose.
Qed.

Lemma replicate_length_fmap {A B : Type} (x : B) (l : list A) :
  replicate (length l) x = (fun _ => x) <$> l.
Proof. induction l as [|a l IH]; [done|]. simpl. by rewrite IH. Qed.

Lemma visible_from_elem (test : PSA_PG_import_action_list_item → bool)
    (sequences : list PSA_PG_import_action_list_item) :
  ∀ (i j : nat),
    j ∈ visible_from i ((fun s => if test s then bitflag_filter_item else 0%Z) <$> sequences)
    ↔ (i ≤ j)%nat ∧ ∃ s, sequences !! (j - i)%nat = Some s ∧ test s = true.
Proof.
  induction sequences as [|s rest IH]; intros i j.
  - simpl. split; [by intros ?%elem_of_nil|]. by intros [_ [s [? _]]].
  - rewrite fmap_cons. cbn [visible_from].
    assert (Hrest : (S i ≤ j)%nat ∧ (∃ s', rest !! (j - S i)%nat = Some s' ∧ test s' = true)
                    ↔ (i < j)%nat ∧ ∃ s', (s :: rest) !! (j - i)%nat = Some s' ∧ test s' = true).
    { split; intros [Hle [s' [Hs' Ht]]]; (split; [lia|]); exists s'; split; try done.
      - replace (j - i)%nat with (S (j - S i)) by lia. done.
      - replace (j - i)%nat with (S (j - S i)) in Hs' by lia. done. }
    destruct (test s) eqn:Htest.
    + replace (Z.land bitflag_filter_item bitflag_filter_item =? 0)%Z with false
        by (by vm_compute).
      rewrite elem_of_cons, IH, Hrest. split.
      * intros [->|[Hlt Hex]].
        -- split; [lia|]. exists s. by rewrite Nat.sub_diag.
        -- split; [lia|done].
      * intros [Hle Hex]. destruct (decide (j = i)) as [->|Hne]; [by left|].
        right. split; [lia|done].
    + replace (Z.land 0 bitflag_filter_item =? 0)%Z with true by (by vm_compute).
      rewrite IH, Hrest. split.
      * intros [Hlt Hex]. split; [lia|done].
      * intros [Hle [s' [Hs' Ht]]]. destruct (decide (j = i)) as [->|Hne].
        -- rewrite Nat.sub_diag in Hs'. simpl in Hs'. congruence.
        -- split; [lia|]. by exists s'.
Qed.

Lemma visible_from_NoDup (flags : list Z) :
  ∀ (i : nat), NoDup (visible_from i flags)
               ∧ Forall (fun j => (i ≤ j)%nat) (visible_from i flags).
Proof.
  induction flags as [|f rest IH]; intros i; simpl.
  - split; constructor.
  - destruct (IH (S i)) as [Hs Hall].
    destruct (Z.land f bitflag_filter_item =? 0)%Z.
    + split; [done|]. eapply Forall_impl; [exact Hall|]. simpl. lia.
    + split.
      * constructor; [|done]. intros Hin.
        rewrite Forall_forall in Hall. specialize (Hall i Hin). lia.
      * constructor; [lia|]. eapply Forall_impl; [exact Hall|]. simpl. lia.
Qed.

Lemma visible_from_filter (test : PSA_PG_import_action_list_item → bool)
    (sequences : list PSA_PG_import_action_list_item) :
  ∀ (pre : list PSA_PG_import_action_list_item),
    (fun j => (pre ++ sequences)%list !! j)
      <$> visible_from (length pre)
            ((fun s => if test s then bitflag_filter_item else 0%Z) <$> sequences)
    = Some <$> List.filter test sequences.
Proof.
  induction sequences as [|s rest IH]; intros pre; [done|].
  rewrite fmap_cons. cbn [visible_from List.filter].
  specialize (IH (pre ++ [s])%list).
  rewrite <- app_assoc in IH. simpl in IH.
  replace (length (pre ++ [s])%list) with (S (length pre)) in IH
    by (rewrite length_app; simpl; lia).
  destruct (test s) eqn:Htest.
  - replace (Z.land bitflag_filter_item bitflag_filter_item =? 0)%Z with false
      by (by vm_compute).
    rewrite !fmap_cons, IH. f_equal. by rewrite list_lookup_middle.
  - replace (Z.land 0 bitflag_filter_item =? 0)%Z with true by (by vm_compute).
    exact IH.
Qed.

(** A loop of assignments [sequences[i].is_selected = value] over a list
    of positions. *)
Lemma foldl_set_is_selected (value : bool) (positions : list nat) :
  ∀ (sequences : list PSA_PG_import_action_list_item) (j : nat),
    foldl (set_is_selected value) sequences positions !! j
    = (fun s => if decide (j ∈ positions)
                then {| item_action_name := item_action_name s; is_selected := value |}
                else s) <$> (sequences !! j).
Proof.
  induction positions as [|i rest IH]; intros sequences j.
  - simpl. destruct (sequences !! j); simpl; [|done].
    destruct (decide (j ∈ [])) as [Hin|_]; [by apply elem_of_nil in Hin|done].
  - simpl. rewrite IH. unfold set_is_selected.
    destruct (decide (j = i)) as [->|Hne].
    + rewrite list_lookup_alter_eq. destruct (sequences !! i) as [s|]; simpl; [|done].
      destruct (decide (i ∈ rest)), (decide (i ∈ i :: rest)) as [|Hn]; try done;
        exfalso; apply Hn; by left.
    + rewrite list_lookup_alter_ne by (intros ->; done).
      destruct (sequences !! j) as [s|]; simpl; [|done].
      destruct (decide (j ∈ rest)) as [Hin|Hnin], (decide (j ∈ i :: rest)) as [Hin'|Hnin'];
        try done.
      * exfalso. apply Hnin'. by right.
      * apply elem_of_cons in Hin' as [?|?]; done.
Qed.

Lemma foldl_set_is_selected_length (value : bool) (positions : list nat) :
  ∀ (sequences : list PSA_PG_import_action_list_item),
    length (foldl (set_is_selected value) sequences positions) = length sequences.
Proof.
  induction positions as [|i rest IH]; intros sequences; [done|].
  simpl. rewrite IH. unfold set_is_selected. by rewrite length_alter.
Qed.

Lemma existsb_false_iff {A : Type} (f : A → bool) (l : list A) :
  existsb f l = false ↔ ∀ a, a ∈ l → f a = false.
Proof.
  induction l as [|a l IH]; simpl.
  - split; [|done]. by intros _ a ?%elem_of_nil.
  - rewrite orb_false_iff, IH. split.
    + intros [Ha Hl] b [->|Hb]%elem_of_cons; auto.
    + intros H. split; [apply H; by left|]. intros b Hb. apply H. by right.
Qed.

Section Filter.

Variable re_compile : string → option (string → bool).
Variable fnmatch : string → string → bool.

Abbreviation filter_sequences := (filter_sequences re_compile fnmatch).
Abbreviation get_visible_sequences := (get_visible_sequences re_compile fnmatch).
Abbreviation is_visible := (is_visible re_compile fnmatch).

Lemma filter_sequences_fmap (pg : sequence_filter)
    (sequences : list PSA_PG_import_action_list_item) :
  filter_sequences pg sequences
  = (fun s => if is_visible pg s then bitflag_filter_item else 0%Z) <$> sequences.
Proof.
  unfold PsaImportSelection.filter_sequences, PsaImportSelection.is_visible,
    PsaImportSelection.name_passes.
  rewrite replicate_length_fmap.
  destruct pg as [name use_regex only_selected invert]; simpl.
  destruct name as [name|]; [destruct use_regex; [destruct (re_compile name) as [m|]|]|];
    destruct only_selected, invert;
    rewrite ?clear_flags_from_fmap, ?invert_flags_from_fmap, ?clear_flags_from_fmap;
    apply list_fmap_ext; intros _ s _; simpl;
    destruct (is_selected s); try destruct (m (item_action_name s));
    try destruct (fnmatch _ _); reflexivity.
Qed.

Lemma get_visible_sequences_elem (pg : sequence_filter)
    (sequences : list PSA_PG_import_action_list_item) (i : nat) :
  i ∈ get_visible_sequences pg sequences
  ↔ ∃ s, sequences !! i = Some s ∧ is_visible pg s = true.
Proof.
  unfold PsaImportSelection.get_visible_sequences. rewrite filter_sequences_fmap.
  rewrite (visible_from_elem (is_visible pg)). rewrite Nat.sub_0_r.
  split; [by intros [_ ?]|]. intros H. split; [lia|done].
Qed.

(** X12. The filter flags of the sequence list: one flag for each
    sequence, which is bit 30 alone when the sequence passes the filter
    (name or pattern, only-selected, inverted) and 0 when it does not;
    no other bit is ever set. *)
Theorem filter_sequences_flags (pg : sequence_filter)
    (sequences : list PSA_PG_import_action_list_item) :
  length (filter_sequences pg sequences) = length sequences
  ∧ ∀ (i : nat) (s : PSA_PG_import_action_list_item), sequences !! i = Some s →
      filter_sequences pg sequences !! i
      = Some (if is_visible pg s then Z.shiftl 1 30 else 0%Z).
Proof.
  rewrite filter_sequences_fmap. split; [by rewrite length_fmap|].
  intros i s Hs. rewrite list_lookup_fmap, Hs. done.
Qed.

(** X13. The visible sequences are the sequences that pass the filter,
    each once and in the order of the list. *)
Theorem get_visible_sequences_spec (pg : sequence_filter)
    (sequences : list PSA_PG_import_action_list_item) :
  (∀ i : nat, i ∈ get_visible_sequences pg sequences
              ↔ ∃ s, sequences !! i = Some s ∧ is_visible pg s = true)
  ∧ NoDup (get_visible_sequences pg sequences)
  ∧ (fun i => sequences !! i) <$> get_visible_sequences pg sequences
    = Some <$> List.filter (is_visible pg) sequences.
Proof.
  split; [apply get_visible_sequences_elem|]. split.
  - apply (visible_from_NoDup (filter_sequences pg sequences) 0).
  - unfold PsaImportSelection.get_visible_sequences. rewrite filter_sequences_fmap.
    apply (visible_from_filter (is_visible pg) sequences []).
Qed.

(** X14. Inverting the filter shows exactly the sequences of the list
    that were hidden. *)
Theorem get_visible_sequences_invert (pg pg' : sequence_filter)
    (sequences : list PSA_PG_import_action_list_item) (i : nat)
    (Hname : sequence_filter_name pg' = sequence_filter_name pg)
    (Hregex : sequence_use_filter_regex pg' = sequence_use_filter_regex pg)
    (Hselected : sequence_filter_is_selected pg' = sequence_filter_is_selected pg)
    (Hinvert : sequence_use_filter_invert pg' = negb (sequence_use_filter_invert pg)) :
  i ∈ get_visible_sequences pg' sequences
  ↔ (i < length sequences)%nat ∧ i ∉ get_visible_sequences pg sequences.
Proof.
  rewrite !get_visible_sequences_elem.
  assert (Hvis : ∀ s, is_visible pg' s = negb (is_visible pg s)).
  { intros s. unfold PsaImportSelection.is_visible, PsaImportSelection.name_passes.
    rewrite Hname, Hregex, Hselected, Hinvert.
    by destruct (_ && _), (sequence_use_filter_invert pg). }
  split.
  - intros [s [Hs Hv]]. split; [by eapply lookup_lt_Some|].
    intros [s' [Hs' Hv']]. rewrite Hvis in Hv. simplify_eq.
    rewrite Hv' in Hv. done.
  - intros [Hlt Hnot]. destruct (lookup_lt_is_Some_2 sequences i Hlt) as [s Hs].
    exists s. split; [done|]. rewrite Hvis.
    destruct (is_visible pg s) eqn:Hv; [|done]. exfalso. apply Hnot. by exists s.
Qed.


Lemma select_execute_lookup (value : bool) (pg : sequence_filter)
    (sequences : list PSA_PG_import_action_list_item) (i : nat)
    (s : PSA_PG_import_action_list_item) :
  sequences !! i = Some s →
  foldl (set_is_selected value) sequences (get_visible_sequences pg sequences) !! i
  = Some (if is_visible pg s
          then {| item_action_name := item_action_name s; is_selected := value |}
          else s).
Proof.
  intros Hs. rewrite foldl_set_is_selected, Hs. simpl. f_equal.
  destruct (decide (i ∈ get_visible_sequences pg sequences)) as [Hin|Hnin].
  - apply get_visible_sequences_elem in Hin as [s' [Hs' Hv]]. simplify_eq. by rewrite Hv.
  - destruct (is_visible pg s) eqn:Hv; [|done]. exfalso. apply Hnin.
    apply get_visible_sequences_elem. by exists s.
Qed.

Lemma is_visible_set_selected (pg : sequence_filter) (s : PSA_PG_import_action_list_item) :
  is_visible pg {| item_action_name := item_action_name s; is_selected := is_selected s |}
  = is_visible pg s.
Proof. by destruct s. Qed.

(** X16. Select All: every sequence keeps its name, a sequence is
    selected afterwards exactly when it was selected or visible, and the
    operator is then no longer offered. *)
Theorem select_all_execute_spec (pg : sequence_filter)
    (sequences : list PSA_PG_import_action_list_item) :
  let after := select_all_execute re_compile fnmatch pg sequences in
  length after = length sequences
  ∧ (∀ (i : nat) (s : PSA_PG_import_action_list_item), sequences !! i = Some s →
       after !! i = Some {| item_action_name := item_action_name s;
                            is_selected := is_selected s || is_visible pg s |})
  ∧ select_all_poll re_compile fnmatch pg after = false.
Proof.
  simpl. unfold select_all_execute.
  assert (Hlookup : ∀ (i : nat) (s : PSA_PG_import_action_list_item),
    sequences !! i = Some s →
    foldl (set_is_selected true) sequences (get_visible_sequences pg sequences) !! i
    = Some {| item_action_name := item_action_name s;
              is_selected := is_selected s || is_visible pg s |}).
  { intros i s Hs. rewrite (select_execute_lookup true pg sequences i s Hs). f_equal.
    destruct s as [n sel]; simpl. destruct (is_visible pg _); [|by rewrite orb_false_r].
    by rewrite orb_true_r. }
  split; [apply foldl_set_is_selected_length|]. split; [exact Hlookup|].
  unfold select_all_poll. apply andb_false_iff. right.
  unfold any_visible. apply existsb_false_iff. intros i Hi.
  apply get_visible_sequences_elem in Hi as [s' [Hs' Hv']].
  rewrite Hs'.
  assert (Hlt : (i < length sequences)%nat).
  { apply lookup_lt_Some in Hs'. by rewrite foldl_set_is_selected_length in Hs'. }
  destruct (lookup_lt_is_Some_2 sequences i Hlt) as [s Hs].
  rewrite (Hlookup i s Hs) in Hs'. simplify_eq. simpl.
  destruct s as [n sel]; simpl in *. destruct sel; [done|]. simpl in *.
  destruct (is_visible pg {| item_action_name := n; is_selected := false |}) eqn:Hv;
    [done|]. congruence.
Qed.

(** X17. Deselect All: every sequence keeps its name, a sequence is
    selected afterwards exactly when it was selected and hidden, and the
    operator is then no longer offered. *)
Theorem deselect_all_execute_spec (pg : sequence_filter)
    (sequences : list PSA_PG_import_action_list_item) :
  let after := deselect_all_execute re_compile fnmatch pg sequences in
  length after = length sequences
  ∧ (∀ (i : nat) (s : PSA_PG_import_action_list_item), sequences !! i = Some s →
       after !! i = Some {| item_action_name := item_action_name s;
                            is_selected := is_selected s && negb (is_visible pg s) |})
  ∧ deselect_all_poll re_compile fnmatch pg after = false.
Proof.
  simpl. unfold deselect_all_execute.
  assert (Hlookup : ∀ (i : nat) (s : PSA_PG_import_action_list_item),
    sequences !! i = Some s →
    foldl (set_is_selected false) sequences (get_visible_sequences pg sequences) !! i
    = Some {| item_action_name := item_action_name s;
              is_selected := is_selected s && negb (is_visible pg s) |}).
  { intros i s Hs. rewrite (select_execute_lookup false pg sequences i s Hs). f_equal.
    destruct s as [n sel]; simpl. destruct (is_visible pg _); simpl.
    - by rewrite andb_false_r.
    - by rewrite andb_true_r. }
  split; [apply foldl_set_is_selected_length|]. split; [exact Hlookup|].
  unfold deselect_all_poll. apply andb_false_iff. right.
  unfold any_visible. apply existsb_false_iff. intros i Hi.
  apply get_visible_sequences_elem in Hi as [s' [Hs' Hv']].
  rewrite Hs'.
  assert (Hlt : (i < length sequences)%nat).
  { apply lookup_lt_Some in Hs'. by rewrite foldl_set_is_selected_length in Hs'. }
  destruct (lookup_lt_is_Some_2 sequences i Hlt) as [s Hs].
  rewrite (Hlookup i s Hs) in Hs'. simplify_eq. simpl.
  destruct s as [n sel]; simpl in *. destruct sel; [|done]. simpl in *.
  destruct (is_visible pg {| item_action_name := n; is_selected := true |}) eqn:Hv;
    [done|]. simpl in Hv'. congruence.
Qed.

End Filter.

Lemma get_visible_sequences_invert_witness :
  1%nat ∈ get_visible_sequences re_compile_literal fnmatch_contains
            {| sequence_filter_name := Some "Run";
               sequence_use_filter_regex := false;
               sequence_filter_is_selected := false;
               sequence_use_filter_invert := true |}
            [ {| item_action_name := "RunForward"; is_selected := true |};
              {| item_action_name := "Idle"; is_selected := false |} ]
  ↔ (1 < 2)%nat
    ∧ 1%nat ∉ get_visible_sequences re_compile_literal fnmatch_contains
                {| sequence_filter_name := Some "Run";
                   sequence_use_filter_regex := false;
                   sequence_filter_is_selected := false;
                   sequence_use_filter_invert := false |}
                [ {| item_action_name := "RunForward"; is_selected := true |};
                  {| item_action_name := "Idle"; is_selected := false |} ].
Proof.
  apply (get_visible_sequences_invert re_compile_literal fnmatch_contains
           {| sequence_filter_name := Some "Run";
              sequence_use_filter_regex := false;
              sequence_filter_is_selected := false;
              sequence_use_filter_invert := false |}
           {| sequence_filter_name := Some "Run";
              sequence_use_filter_regex := false;
              sequence_filter_is_selected := false;
              sequence_use_filter_invert := true |}
           [ {| item_action_name := "RunForward"; is_selected := true |};
             {| item_action_name := "Idle"; is_selected := false |} ] 1%nat);
    reflexivity.
Defined.


Lemma select_named_fmap (line : string) :
  ∀ (sequences : list PSA_PG_import_action_list_item) (count : nat),
    select_named line sequences count
    = ((fun s => {| item_action_name := item_action_name s;
                    is_selected := is_selected s || String.eqb (item_action_name s) line |})
         <$> sequences,
       (count + length (List.filter (fun s => String.eqb (item_action_name s) line)
                          sequences))%nat).
Proof.
  induction sequences as [|s rest IH]; intros count.
  - simpl. f_equal. lia.
  - cbn [select_named List.filter]. rewrite fmap_cons.
    destruct (String.eqb (item_action_name s) line) eqn:Heq.
    + rewrite IH. simpl. f_equal; [|lia]. by rewrite orb_true_r.
    + rewrite IH. f_equal. f_equal. destruct s as [n sel]; simpl. by rewrite orb_false_r.
Qed.

Lemma filter_fmap_length {A : Type} (p : A → bool) (f : A → A) (l : list A) :
  (∀ a, p (f a) = p a) →
  length (List.filter p (f <$> l)) = length (List.filter p l).
Proof.
  intros Hp. induction l as [|a l IH]; [done|].
  rewrite fmap_cons. cbn [List.filter]. rewrite Hp.
  destruct (p a); simpl; by rewrite IH.
Qed.

Lemma select_lines_fmap (lines : list string) :
  ∀ (sequences : list PSA_PG_import_action_list_item) (count : nat),
    select_lines lines sequences count
    = ((fun s => {| item_action_name := item_action_name s;
                    is_selected :=
                      is_selected s || existsb (String.eqb (item_action_name s)) lines |})
         <$> sequences,
       (count
        + sum_list ((fun line =>
                       length (List.filter (fun s => String.eqb (item_action_name s) line)
                                 sequences)) <$> lines))%nat).
Proof.
  induction lines as [|line rest IH]; intros sequences count.
  - simpl. f_equal; [|lia]. rewrite <- (list_fmap_id sequences) at 1.
    apply list_fmap_ext. intros _ [n sel] _. simpl. by rewrite orb_false_r.
  - cbn [select_lines]. rewrite select_named_fmap, IH. f_equal.
    + rewrite <- list_fmap_compose. apply list_fmap_ext. intros _ [n sel] _. simpl.
      by rewrite orb_assoc.
    + rewrite fmap_cons. cbn [sum_list sum_list_with]. rewrite <- Nat.add_assoc. f_equal.
      f_equal. f_equal. apply list_fmap_ext. intros _ line' _.
      by apply filter_fmap_length.
Qed.

(** X18. Select By Text List with a text block: every sequence keeps
    its name and is selected afterwards exactly when it was selected or
    its name is a line of the text; the number in the report counts one for each
    line and each sequence named as the line, so a line that is repeated
    or a sequence that was selected already is counted as well. *)
Theorem select_from_text_execute_spec (contents : string)
    (sequences : list PSA_PG_import_action_list_item) :
  select_from_text_execute (Some contents) sequences
  = (FINISHED,
     ("INFO",
      "Selected "
      ++ pretty (sum_list ((fun line =>
                              length (List.filter
                                        (fun s => String.eqb (item_action_name s) line)
                                        sequences))
                             <$> split_lines contents))
      ++ " sequence(s)"),
     (fun s => {| item_action_name := item_action_name s;
                  is_selected :=
                    is_selected s
                    || existsb (String.eqb (item_action_name s)) (split_lines contents) |})
       <$> sequences).
Proof.
  unfold select_from_text_execute. by rewrite select_lines_fmap.
Qed.

Section Load.

Variable PsaReader : Type.
Variable PsaReader_init : string → outcome py_exn PsaReader.
Variable reader_sequence_names : PsaReader → list string.
Variable reader_bone_names : PsaReader → list string.
Variable decode : string → outcome py_exn string.
Variable abspath : string → string.
Variable str_of_exception : py_exn → string.

Lemma add_sequences_decoded (raw names : list string) :
  Forall2 (fun r name => decode r = Returned name) raw names →
  ∀ (sequence_list : list PSA_PG_import_action_list_item),
    add_sequences decode raw sequence_list
    = (Returned (), (sequence_list ++ items_of_names names)%list).
Proof.
  induction 1 as [|r name raw names Hr _ IH]; intros sequence_list; simpl.
  - by rewrite app_nil_r.
  - rewrite Hr, IH. by rewrite <- app_assoc.
Qed.

Lemma add_sequences_undecodable (raw names after : list string) (bad : string) (e : py_exn) :
  Forall2 (fun r name => decode r = Returned name) raw names →
  decode bad = Raised e →
  ∀ (sequence_list : list PSA_PG_import_action_list_item),
    add_sequences decode (raw ++ bad :: after)%list sequence_list
    = (Raised e,
       (sequence_list ++ items_of_names names
        ++ [{| item_action_name := EmptyString; is_selected := true |}])%list).
Proof.
  intros Hraw Hbad. induction Hraw as [|r name raw names Hr _ IH]; intros sequence_list; simpl.
  - by rewrite Hbad.
  - rewrite Hr, IH. by rewrite <- app_assoc.
Qed.

Lemma add_bones_decoded (raw names : list string) :
  Forall2 (fun r name => decode r = Returned name) raw names →
  ∀ (bones : list string),
    add_bones decode raw bones = (Returned (), (bones ++ names)%list).
Proof.
  induction 1 as [|r name raw names Hr _ IH]; intros bones; simpl.
  - by rewrite app_nil_r.
  - rewrite Hr, IH. by rewrite <- app_assoc.
Qed.

Lemma add_bones_undecodable (raw names after : list string) (bad : string) (e : py_exn) :
  Forall2 (fun r name => decode r = Returned name) raw names →
  decode bad = Raised e →
  ∀ (bones : list string),
    add_bones decode (raw ++ bad :: after)%list bones
    = (Raised e, (bones ++ names ++ [EmptyString])%list).
Proof.
  intros Hraw Hbad. induction Hraw as [|r name raw names Hr _ IH]; intros bones; simpl.
  - by rewrite Hbad.
  - rewrite Hr, IH. by rewrite <- app_assoc.
Qed.

(** X19. Loading a file that the reader accepts and whose names all
    decode leaves no error, one selected sequence item for each sequence
    of the file and one bone for each bone, in the order of the file. *)
Theorem load_psa_file_decoded (filepath : string) (psa_reader : PsaReader)
    (sequence_names bone_names : list string)
    (Hreader : PsaReader_init (abspath filepath) = Returned psa_reader)
    (Hsequences : Forall2 (fun r name => decode r = Returned name)
                    (reader_sequence_names psa_reader) sequence_names)
    (Hbones : Forall2 (fun r name => decode r = Returned name)
                (reader_bone_names psa_reader) bone_names) :
  load_psa_file PsaReader PsaReader_init reader_sequence_names reader_bone_names
    decode abspath str_of_exception filepath
  = {| loaded_sequence_list := items_of_names sequence_names;
       loaded_bones := bone_names;
       psa_error := EmptyString |}.
Proof.
  unfold load_psa_file. rewrite Hreader.
  rewrite (add_sequences_decoded _ _ Hsequences), (add_bones_decoded _ _ Hbones). done.
Qed.

(** X20. When the name of a sequence of the file does not decode, the
    error is recorded, the sequences before it stay in the list followed
    by one more selected item with an empty name, and no bone is
    listed. *)
Theorem load_psa_file_undecodable_sequence (filepath : string) (psa_reader : PsaReader)
    (raw sequence_names after : list string) (bad : string) (e : py_exn)
    (Hreader : PsaReader_init (abspath filepath) = Returned psa_reader)
    (Hnames : reader_sequence_names psa_reader = (raw ++ bad :: after)%list)
    (Hsequences : Forall2 (fun r name => decode r = Returned name) raw sequence_names)
    (Hbad : decode bad = Raised e) :
  load_psa_file PsaReader PsaReader_init reader_sequence_names reader_bone_names
    decode abspath str_of_exception filepath
  = {| loaded_sequence_list :=
         (items_of_names sequence_names
          ++ [{| item_action_name := EmptyString; is_selected := true |}])%list;
       loaded_bones := [];
       psa_error := str_of_exception e |}.
Proof.
  unfold load_psa_file. rewrite Hreader, Hnames.
  rewrite (add_sequences_undecodable _ _ _ _ _ Hsequences Hbad). done.
Qed.

(** X21. When the name of a bone of the file does not decode, the error
    is recorded although every sequence of the file is listed, and the
    bones before it are followed by one more bone with an empty name. *)
Theorem load_psa_file_undecodable_bone (filepath : string) (psa_reader : PsaReader)
    (sequence_names raw bone_names after : list string) (bad : string) (e : py_exn)
    (Hreader : PsaReader_init (abspath filepath) = Returned psa_reader)
    (Hsequences : Forall2 (fun r name => decode r = Returned name)
                    (reader_sequence_names psa_reader) sequence_names)
    (Hnames : reader_bone_names psa_reader = (raw ++ bad :: after)%list)
    (Hbones : Forall2 (fun r name => decode r = Returned name) raw bone_names)
    (Hbad : decode bad = Raised e) :
  load_psa_file PsaReader PsaReader_init reader_sequence_names reader_bone_names
    decode abspath str_of_exception filepath
  = {| loaded_sequence_list := items_of_names sequence_names;
       loaded_bones := (bone_names ++ [EmptyString])%list;
       psa_error := str_of_exception e |}.
Proof.
  unfold load_psa_file. rewrite Hreader, Hnames.
  rewrite (add_sequences_decoded _ _ Hsequences).
  rewrite (add_bones_undecodable _ _ _ _ _ Hbones Hbad). done.
Qed.

End Load.

Lemma load_psa_file_decoded_witness :
  load_psa_file (list string * list string) example_reader fst snd
    decode_names (fun p => p) (fun _ => "error") "walk.psa"
  = {| loaded_sequence_list := items_of_names ["Walk"; "Run"];
       loaded_bones := ["Root"; "Spine"];
       psa_error := EmptyString |}.
Proof.
  apply (load_psa_file_decoded (list string * list string) example_reader fst snd
           decode_names (fun p => p) (fun _ => "error") "walk.psa"
           (["Walk"; "Run"], ["Root"; "Spine"]) ["Walk"; "Run"] ["Root"; "Spine"]).
  - reflexivity.
  - repeat constructor.
  - repeat constructor.
Defined.

Lemma load_psa_file_undecodable_sequence_witness :
  load_psa_file (list string * list string) example_reader fst snd
    decode_names (fun p => p) (fun _ => "error") "sequence.psa"
  = {| loaded_sequence_list :=
         (items_of_names ["Walk"]
          ++ [{| item_action_name := EmptyString; is_selected := true |}])%list;
       loaded_bones := [];
       psa_error := "error" |}.
Proof.
  apply (load_psa_file_undecodable_sequence (list string * list string) example_reader
           fst snd decode_names (fun p => p) (fun _ => "error") "sequence.psa"
           (["Walk"; undecodable_name; "Run"], ["Root"; "Spine"])
           ["Walk"] ["Walk"] ["Run"] undecodable_name ValueError).
  - reflexivity.
  - reflexivity.
  - repeat constructor.
  - reflexivity.
Defined.

Lemma load_psa_file_undecodable_bone_witness :
  load_psa_file (list string * list string) example_reader fst snd
    decode_names (fun p => p) (fun _ => "error") "bone.psa"
  = {| loaded_sequence_list := items_of_names ["Walk"; "Run"];
       loaded_bones := (["Root"] ++ [EmptyString])%list;
       psa_error := "error" |}.
Proof.
  apply (load_psa_file_undecodable_bone (list string * list string) example_reader
           fst snd decode_names (fun p => p) (fun _ => "error") "bone.psa"
           (["Walk"; "Run"], ["Root"; undecodable_name; "Spine"])
           ["Walk"; "Run"] ["Root"] ["Root"] ["Spine"] undecodable_name ValueError).
  - reflexivity.
  - repeat constructor.
  - reflexivity.
  - repeat constructor.
  - reflexivity.
Defined.

End PsaImportSelectionFacts.

(** ** The material list of the PSK export *)

Module PskExportFacts.

Import PskExport.

Lemma name_in_true (name : string) (names : list string) :
  name_in name names = true ↔ name ∈ names.
Proof.
  unfold name_in. induction names as [|n names IH]; simpl.
  - split; [done|]. by intros ?%elem_of_nil.
  - rewrite orb_true_iff, IH, elem_of_cons, String.eqb_eq. done.
Qed.

Lemma filter_filter_comm {A : Type} (p q : A → bool) (l : list A) :
  List.filter p (List.filter q l) = List.filter q (List.filter p l).
Proof.
  induction l as [|a l IH]; [done|]. simpl.
  destruct (p a) eqn:Hp, (q a) eqn:Hq; simpl; rewrite ?Hp, ?Hq, ?IH; done.
Qed.

Lemma filter_filter_absorb {A : Type} (p q : A → bool) (l : list A) :
  (∀ a, p a = true → q a = true) →
  List.filter p (List.filter q l) = List.filter p l.
Proof.
  intros Hpq. induction l as [|a l IH]; [done|]. simpl.
  destruct (q a) eqn:Hq; simpl.
  - destruct (p a); by rewrite IH.
  - destruct (p a) eqn:Hp; [|done]. apply Hpq in Hp. congruence.
Qed.

Lemma keep_first_filter (p : string → bool) (names : list string) :
  keep_first (List.filter p names) = List.filter p (keep_first names).
Proof.
  induction names as [|name rest IH]; [done|]. cbn [List.filter keep_first].
  destruct (p name) eqn:Hp; cbn [List.filter keep_first].
  - rewrite IH. f_equal. apply filter_filter_comm.
  - rewrite IH. symmetry. apply filter_filter_absorb.
    intros other Hother. destruct (String.eqb name other) eqn:Heq; [|done].
    apply String.eqb_eq in Heq as ->. congruence.
Qed.

Lemma elem_of_List_filter {A : Type} (p : A → bool) (l : list A) (a : A) :
  a ∈ List.filter p l ↔ a ∈ l ∧ p a = true.
Proof.
  induction l as [|b l IH]; simpl.
  - split; [by intros ?%elem_of_nil|]. by intros [?%elem_of_nil _].
  - destruct (p b) eqn:Hp; rewrite ?elem_of_cons, IH, ?elem_of_cons.
    + split; [intros [->|[? ?]]; auto|]. intros [[->|?] ?]; auto.
    + split; [intros [? ?]; auto|]. intros [[->|?] ?]; [congruence|auto].
Qed.

Lemma NoDup_List_filter {A : Type} (p : A → bool) (l : list A) :
  NoDup l → NoDup (List.filter p l).
Proof.
  induction 1 as [|a l Hnot _ IH]; simpl; [constructor|].
  destruct (p a); [|done]. constructor; [|done].
  rewrite elem_of_List_filter. by intros [? _].
Qed.

Lemma elem_of_keep_first (names : list string) (name : string) :
  name ∈ keep_first names ↔ name ∈ names.
Proof.
  induction names as [|n rest IH]; [done|]. simpl.
  rewrite !elem_of_cons, elem_of_List_filter, IH. split.
  - intros [->|[? _]]; auto.
  - intros [->|Hin]; [by left|].
    destruct (String.eqb n name) eqn:Heq.
    + apply String.eqb_eq in Heq. by left.
    + by right.
Qed.

Lemma NoDup_keep_first (names : list string) : NoDup (keep_first names).
Proof.
  induction names as [|n rest IH]; simpl; [constructor|].
  constructor; [|by apply NoDup_List_filter].
  rewrite elem_of_List_filter. intros [_ Heq]. by rewrite String.eqb_refl in Heq.
Qed.

Lemma filter_not_in_snoc (material_names : list string) (name : string)
    (names : list string) :
  List.filter (fun n => negb (name_in n (material_names ++ [name])%list)) names
  = List.filter (fun other => negb (String.eqb name other))
      (List.filter (fun n => negb (name_in n material_names)) names).
Proof.
  induction names as [|n names IH]; [done|].
  cbn [List.filter]. unfold name_in at 1. rewrite existsb_app. fold (name_in n material_names).
  cbn [existsb]. rewrite orb_false_r, (String.eqb_sym n name).
  destruct (name_in n material_names); cbn [negb orb List.filter]; [done|].
  destruct (String.eqb name n); cbn [negb]; by rewrite IH.
Qed.

(** The accumulation of the names, as the loops do it. *)
Lemma foldl_append_new (names : list string) :
  ∀ (material_names : list string),
    foldl (fun acc name => if name_in name acc then acc else (acc ++ [name])%list)
      material_names names
    = (material_names
       ++ keep_first (List.filter (fun name => negb (name_in name material_names)) names))%list.
Proof.
  induction names as [|name rest IH]; intros material_names.
  - simpl. by rewrite app_nil_r.
  - cbn [foldl List.filter]. rewrite IH.
    destruct (name_in name material_names) eqn:Hin; cbn [negb keep_first]; [done|].
    rewrite <- app_assoc. cbn [app]. f_equal. f_equal.
    by rewrite <- keep_first_filter, filter_not_in_snoc.
Qed.

Lemma collect_materials_returns (slots : list (option string)) :
  None ∉ slots →
  ∀ (i : nat) (material_names : list string),
    collect_materials i slots material_names
    = Returned (foldl (fun acc name => if name_in name acc then acc else (acc ++ [name])%list)
                  material_names (omap (fun slot => slot) slots)).
Proof.
  induction slots as [|[name|] rest IH]; intros Hfilled i material_names; simpl.
  - done.
  - apply IH. intros Hin. apply Hfilled. by right.
  - exfalso. apply Hfilled. by left.
Qed.

Lemma collect_materials_raises (filled rest : list (option string)) :
  None ∉ filled →
  ∀ (i : nat) (material_names : list string),
    collect_materials i (filled ++ None :: rest)%list material_names
    = Raised (RuntimeError
                ("Material cannot be empty (index " ++ pretty (i + length filled)%nat ++ ")")).
Proof.
  induction filled as [|[name|] filled IH]; intros Hfilled i material_names; simpl.
  - by rewrite Nat.add_0_r.
  - rewrite IH; [|intros Hin; apply Hfilled; by right].
    by replace (S i + length filled)%nat with (i + S (length filled))%nat by lia.
  - exfalso. apply Hfilled. by left.
Qed.

Lemma collect_mesh_objects_returns (mesh_objects : list MeshObject) :
  (∀ mesh_object, mesh_object ∈ mesh_objects → None ∉ materials mesh_object) →
  ∀ (material_names : list string),
    collect_mesh_objects mesh_objects material_names
    = Returned (foldl (fun acc name => if name_in name acc then acc else (acc ++ [name])%list)
                  material_names (slot_names mesh_objects)).
Proof.
  induction mesh_objects as [|mesh_object rest IH]; intros Hfilled material_names; [done|].
  cbn [collect_mesh_objects]. rewrite collect_materials_returns by (apply Hfilled; by left).
  rewrite IH by (intros m Hm; apply Hfilled; by right).
  unfold slot_names. simpl. by rewrite omap_app, foldl_app.
Qed.

Lemma add_materials_names (material_names : list string) :
  ∀ (i : nat), material_name <$> add_materials i material_names = material_names
               ∧ index <$> add_materials i material_names = seq i (length material_names).
Proof.
  induction material_names as [|name rest IH]; intros i; [done|].
  cbn [add_materials]. rewrite !fmap_cons. destruct (IH (S i)) as [-> ->]. done.
Qed.

(** X22. When no material slot of the mesh objects is empty, the
    material list is rebuilt, whatever it held before, with the material
    names of the objects, each once at its first occurrence, and every
    item carries its position as its index. *)
Theorem populate_material_list_returns (mesh_objects : list MeshObject)
    (material_list : list PSK_PG_material_list_item)
    (Hfilled : ∀ mesh_object, mesh_object ∈ mesh_objects → None ∉ materials mesh_object) :
  ∃ material_list',
    populate_material_list mesh_objects material_list = (Returned (), material_list')
    ∧ material_name <$> material_list' = keep_first (slot_names mesh_objects)
    ∧ index <$> material_list' = seq 0 (length material_list')
    ∧ NoDup (material_name <$> material_list')
    ∧ ∀ name, name ∈ (material_name <$> material_list')
              ↔ ∃ mesh_object, mesh_object ∈ mesh_objects
                               ∧ Some name ∈ materials mesh_object.
Proof.
  unfold populate_material_list.
  rewrite (collect_mesh_objects_returns mesh_objects Hfilled), foldl_append_new.
  simpl. rewrite List.forallb_filter_id by (apply List.forallb_forall; done).
  eexists. split; [done|].
  destruct (add_materials_names (keep_first (slot_names mesh_objects)) 0) as [Hnames Hindex].
  rewrite Hnames, Hindex. split; [done|].
  split; [by rewrite <- (length_fmap material_name), Hnames|].
  split; [apply NoDup_keep_first|].
  intros name. rewrite elem_of_keep_first. unfold slot_names.
  rewrite list_elem_of_omap. split.
  - intros [slot [Hin Hslot]]. simpl in Hslot. subst slot.
    apply list_elem_of_In, List.in_flat_map in Hin as [m [Hm Hin]].
    exists m. by rewrite !list_elem_of_In.
  - intros [m [Hm Hin]]. exists (Some name). split; [|done].
    apply list_elem_of_In, List.in_flat_map. exists m. by rewrite <- !list_elem_of_In.
Qed.

(** X23. At the first empty material slot the call raises a
    [RuntimeError] that names the position of the slot in its own mesh,
    and the material list is left empty. *)
Theorem populate_material_list_raises (before after : list MeshObject)
    (mesh_object : MeshObject) (filled rest : list (option string))
    (material_list : list PSK_PG_material_list_item)
    (Hbefore : ∀ earlier, earlier ∈ before → None ∉ materials earlier)
    (Hslots : materials mesh_object = (filled ++ None :: rest)%list)
    (Hfilled : None ∉ filled) :
  populate_material_list (before ++ mesh_object :: after)%list material_list
  = (Raised (RuntimeError
               ("Material cannot be empty (index " ++ pretty (length filled) ++ ")")),
     []).
Proof.
  unfold populate_material_list.
  assert (Hraise : ∀ material_names,
    collect_mesh_objects (before ++ mesh_object :: after)%list material_names
    = Raised (RuntimeError
                ("Material cannot be empty (index " ++ pretty (length filled) ++ ")"))).
  { induction before as [|m before IH]; intros material_names.
    - simpl. rewrite Hslots, (collect_materials_raises filled rest Hfilled). done.
    - cbn [app collect_mesh_objects].
      rewrite collect_materials_returns by (apply Hbefore; by left).
      apply IH. intros earlier Hin. apply Hbefore. by right. }
  by rewrite Hraise.
Qed.

Lemma collection_move_up {A : Type} (pre post : list A) (a b : A) :
  collection_move (Z.of_nat (S (length pre))) (Z.of_nat (S (length pre)) - 1)
    (pre ++ a :: b :: post)%list
  = (pre ++ b :: a :: post)%list.
Proof.
  unfold collection_move.
  assert (Hlen : length (pre ++ a :: b :: post)%list = (length pre + 2 + length post)%nat)
    by (rewrite length_app; simpl; lia).
  rewrite Hlen.
  replace ((0 <=? Z.of_nat (S (length pre)))%Z) with true by (symmetry; apply Z.leb_le; lia).
  replace ((Z.of_nat (S (length pre)) <? Z.of_nat (length pre + 2 + length post))%Z)
    with true by (symmetry; apply Z.ltb_lt; lia).
  replace ((0 <=? Z.of_nat (S (length pre)) - 1)%Z) with true
    by (symmetry; apply Z.leb_le; lia).
  replace ((Z.of_nat (S (length pre)) - 1 <? Z.of_nat (length pre + 2 + length post))%Z)
    with true by (symmetry; apply Z.ltb_lt; lia).
  simpl andb. cbv iota.
  replace (Z.to_nat (Z.of_nat (S (length pre)) - 1)) with (length pre) by lia.
  rewrite Nat2Z.id.
  replace (pre ++ a :: b :: post)%list with ((pre ++ [a]) ++ b :: post)%list
    by (by rewrite <- app_assoc).
  replace (S (length pre)) with (length (pre ++ [a])%list)
    by (rewrite length_app; simpl; lia).
  rewrite list_lookup_middle by done. rewrite delete_middle.
  rewrite <- app_assoc. simpl.
  by rewrite take_app_length, drop_app_length.
Qed.

Lemma collection_move_down {A : Type} (pre post : list A) (a b : A) :
  collection_move (Z.of_nat (length pre)) (Z.of_nat (length pre) + 1)
    (pre ++ a :: b :: post)%list
  = (pre ++ b :: a :: post)%list.
Proof.
  unfold collection_move.
  assert (Hlen : length (pre ++ a :: b :: post)%list = (length pre + 2 + length post)%nat)
    by (rewrite length_app; simpl; lia).
  rewrite Hlen.
  replace ((0 <=? Z.of_nat (length pre))%Z) with true by (symmetry; apply Z.leb_le; lia).
  replace ((Z.of_nat (length pre) <? Z.of_nat (length pre + 2 + length post))%Z)
    with true by (symmetry; apply Z.ltb_lt; lia).
  replace ((0 <=? Z.of_nat (length pre) + 1)%Z) with true
    by (symmetry; apply Z.leb_le; lia).
  replace ((Z.of_nat (length pre) + 1 <? Z.of_nat (length pre + 2 + length post))%Z)
    with true by (symmetry; apply Z.ltb_lt; lia).
  simpl andb. cbv iota.
  replace (Z.to_nat (Z.of_nat (length pre) + 1)) with (S (length pre)) by lia.
  rewrite Nat2Z.id.
  rewrite list_lookup_middle by done. rewrite delete_middle.
  replace (pre ++ b :: post)%list with ((pre ++ [b]) ++ post)%list
    by (by rewrite <- app_assoc).
  replace (S (length pre)) with (length (pre ++ [b])%list)
    by (rewrite length_app; simpl; lia).
  rewrite take_app_length, drop_app_length. by rewrite <- app_assoc.
Qed.

Lemma collection_move_outside {A : Type} (src dst : Z) (l : list A) :
  (Z.of_nat (length l) ≤ src)%Z → collection_move src dst l = l.
Proof.
  intros Hsrc. unfold collection_move.
  replace ((src <? Z.of_nat (length l))%Z) with false by (symmetry; apply Z.ltb_ge; lia).
  by rewrite andb_false_r.
Qed.

Lemma move_up_execute_swap (pre post : list PSK_PG_material_list_item)
    (a b : PSK_PG_material_list_item) :
  move_up_execute {| material_list := (pre ++ a :: b :: post)%list;
                     material_list_index := Z.of_nat (S (length pre)) |}
  = {| material_list := (pre ++ b :: a :: post)%list;
       material_list_index := Z.of_nat (length pre) |}.
Proof.
  unfold move_up_execute. cbn [material_list material_list_index].
  rewrite collection_move_up. f_equal. lia.
Qed.

Lemma move_down_execute_swap (pre post : list PSK_PG_material_list_item)
    (a b : PSK_PG_material_list_item) :
  move_down_execute {| material_list := (pre ++ a :: b :: post)%list;
                       material_list_index := Z.of_nat (length pre) |}
  = {| material_list := (pre ++ b :: a :: post)%list;
       material_list_index := Z.of_nat (S (length pre)) |}.
Proof.
  unfold move_down_execute. cbn [material_list material_list_index].
  rewrite collection_move_down. f_equal. lia.
Qed.

(** X24. Move Up and Move Down exchange the selected material with its
    neighbour and keep it selected; no other item moves, and the index
    that an item carries stays as it was. *)
Theorem material_list_move_swaps (pre post : list PSK_PG_material_list_item)
    (a b : PSK_PG_material_list_item) :
  move_up_execute {| material_list := (pre ++ a :: b :: post)%list;
                     material_list_index := Z.of_nat (S (length pre)) |}
  = {| material_list := (pre ++ b :: a :: post)%list;
       material_list_index := Z.of_nat (length pre) |}
  ∧ move_down_execute {| material_list := (pre ++ a :: b :: post)%list;
                         material_list_index := Z.of_nat (length pre) |}
    = {| material_list := (pre ++ b :: a :: post)%list;
         material_list_index := Z.of_nat (S (length pre)) |}.
Proof.
  unfold move_up_execute, move_down_execute. cbn [material_list material_list_index].
  rewrite collection_move_up, collection_move_down.
  split; f_equal; lia.
Qed.

Lemma split_at {A : Type} (l : list A) (k : nat) :
  (S k < length l)%nat →
  ∃ pre a b post, l = (pre ++ a :: b :: post)%list ∧ length pre = k.
Proof.
  intros Hk.
  destruct (lookup_lt_is_Some_2 l k ltac:(lia)) as [a Ha].
  destruct (lookup_lt_is_Some_2 l (S k) Hk) as [b Hb].
  exists (take k l), a, b, (drop (S (S k)) l). split.
  - rewrite <- (take_drop k l) at 1. f_equal.
    rewrite (drop_S l a k Ha). f_equal. by rewrite (drop_S l b (S k) Hb).
  - rewrite length_take. lia.
Qed.

(** X25. Where Move Up is offered on a material of the list (the index
    is positive and within the list), Move Down is offered after it and
    undoes it; and where Move Down is offered at an index that is not
    negative, Move Up is offered after it and undoes it. *)
Theorem material_list_move_round_trip (pg : PSK_PG_export) :
  (move_up_poll pg = true →
   (material_list_index pg < Z.of_nat (length (material_list pg)))%Z →
   move_down_poll (move_up_execute pg) = true
   ∧ move_down_execute (move_up_execute pg) = pg)
  ∧ (move_down_poll pg = true → (0 ≤ material_list_index pg)%Z →
     move_up_poll (move_down_execute pg) = true
     ∧ move_up_execute (move_down_execute pg) = pg).
Proof.
  destruct pg as [l idx]. unfold move_up_poll, move_down_poll.
  cbn [material_list material_list_index]. split.
  - intros Hpoll%Z.ltb_lt Hlt.
    destruct (split_at l (Z.to_nat idx - 1)) as [pre [a [b [post [-> Hpre]]]]]; [lia|].
    replace idx with (Z.of_nat (S (length pre))) by lia.
    rewrite move_up_execute_swap, move_down_execute_swap.
    split; [|done]. cbn [material_list material_list_index].
    apply Z.ltb_lt. rewrite length_app. simpl. lia.
  - intros Hpoll%Z.ltb_lt Hge.
    destruct (split_at l (Z.to_nat idx)) as [pre [a [b [post [-> Hpre]]]]]; [lia|].
    replace idx with (Z.of_nat (length pre)) by lia.
    rewrite move_down_execute_swap, move_up_execute_swap.
    split; [|done]. cbn [material_list_index]. apply Z.ltb_lt. lia.
Qed.

(** X26. Move Up is offered for any positive index: when the index
    points beyond the list, the list stays as it is and the index is
    lowered all the same. *)
Theorem material_list_move_up_beyond (pg : PSK_PG_export)
    (Hbeyond : (Z.of_nat (length (material_list pg)) ≤ material_list_index pg)%Z)
    (Hpositive : (0 < material_list_index pg)%Z) :
  move_up_poll pg = true
  ∧ move_up_execute pg
    = {| material_list := material_list pg;
         material_list_index := material_list_index pg - 1 |}.
Proof.
  split; [by apply Z.ltb_lt|].
  unfold move_up_execute. by rewrite collection_move_outside.
Qed.

Lemma populate_material_list_returns_witness :
  ∃ material_list',
    populate_material_list
      [ {| materials := [Some "Skin"; Some "Cloth"] |};
        {| materials := [Some "Metal"; Some "Skin"] |} ]
      [ {| material_name := "Old"; index := 4 |} ]
    = (Returned (), material_list')
    ∧ material_name <$> material_list'
      = keep_first (slot_names [ {| materials := [Some "Skin"; Some "Cloth"] |};
                                 {| materials := [Some "Metal"; Some "Skin"] |} ])
    ∧ index <$> material_list' = seq 0 (length material_list')
    ∧ NoDup (material_name <$> material_list')
    ∧ ∀ name, name ∈ (material_name <$> material_list')
              ↔ ∃ mesh_object,
                  mesh_object ∈ [ {| materials := [Some "Skin"; Some "Cloth"] |};
                                  {| materials := [Some "Metal"; Some "Skin"] |} ]
                  ∧ Some name ∈ materials mesh_object.
Proof.
  apply (populate_material_list_returns
           [ {| materials := [Some "Skin"; Some "Cloth"] |};
             {| materials := [Some "Metal"; Some "Skin"] |} ]
           [ {| material_name := "Old"; index := 4 |} ]).
  intros mesh_object Hin Hnone.
  repeat (apply elem_of_cons in Hin as [->|Hin];
          [simpl in Hnone;
           repeat (apply elem_of_cons in Hnone as [Hnone|Hnone]; [discriminate|]);
           by apply elem_of_nil in Hnone|]).
  by apply elem_of_nil in Hin.
Defined.

Lemma populate_material_list_raises_witness :
  populate_material_list
    ([ {| materials := [Some "Skin"; Some "Cloth"] |} ]
     ++ {| materials := [Some "Metal"; None; Some "Skin"] |}
        :: [ {| materials := [None] |} ])%list
    [ {| material_name := "Old"; index := 4 |} ]
  = (Raised (RuntimeError
               ("Material cannot be empty (index " ++ pretty (length [Some "Metal"]) ++ ")")),
     []).
Proof.
  apply (populate_material_list_raises
           [ {| materials := [Some "Skin"; Some "Cloth"] |} ]
           [ {| materials := [None] |} ]
           {| materials := [Some "Metal"; None; Some "Skin"] |}
           [Some "Metal"] [Some "Skin"]).
  - intros earlier Hin Hnone. apply elem_of_cons in Hin as [->|Hin].
    + simpl in Hnone.
      repeat (apply elem_of_cons in Hnone as [Hnone|Hnone]; [discriminate|]).
      by apply elem_of_nil in Hnone.
    + by apply elem_of_nil in Hin.
  - reflexivity.
  - intros Hnone. apply elem_of_cons in Hnone as [Hnone|Hnone]; [discriminate|].
    by apply elem_of_nil in Hnone.
Defined.

Lemma material_list_move_round_trip_witness :
  move_down_execute
    (move_up_execute
       {| material_list := [ {| material_name := "Skin"; index := 0 |};
                             {| material_name := "Cloth"; index := 1 |};
                             {| material_name := "Metal"; index := 2 |} ];
          material_list_index := 2 |})
  = {| material_list := [ {| material_name := "Skin"; index := 0 |};
                          {| material_name := "Cloth"; index := 1 |};
                          {| material_name := "Metal"; index := 2 |} ];
       material_list_index := 2 |}
  ∧ move_up_execute
      (move_down_execute
         {| material_list := [ {| material_name := "Skin"; index := 0 |};
                               {| material_name := "Cloth"; index := 1 |};
                               {| material_name := "Metal"; index := 2 |} ];
            material_list_index := 0 |})
    = {| material_list := [ {| material_name := "Skin"; index := 0 |};
                            {| material_name := "Cloth"; index := 1 |};
                            {| material_name := "Metal"; index := 2 |} ];
         material_list_index := 0 |}.
Proof.
  split.
  - apply (proj1 (material_list_move_round_trip
                    {| material_list := [ {| material_name := "Skin"; index := 0 |};
                                          {| material_name := "Cloth"; index := 1 |};
                                          {| material_name := "Metal"; index := 2 |} ];
                       material_list_index := 2 |})).
    + reflexivity.
    + simpl. lia.
  - apply (proj2 (material_list_move_round_trip
                    {| material_list := [ {| material_name := "Skin"; index := 0 |};
                                          {| material_name := "Cloth"; index := 1 |};
                                          {| material_name := "Metal"; index := 2 |} ];
                       material_list_index := 0 |})).
    + reflexivity.
    + simpl. lia.
Defined.

Lemma material_list_move_up_beyond_witness :
  move_up_poll {| material_list := [ {| material_name := "Skin"; index := 0 |} ];
                  material_list_index := 3 |} = true
  ∧ move_up_execute {| material_list := [ {| material_name := "Skin"; index := 0 |} ];
                       material_list_index := 3 |}
    = {| material_list := [ {| material_name := "Skin"; index := 0 |} ];
         material_list_index := 3 - 1 |}.
Proof.
  apply (material_list_move_up_beyond
           {| material_list := [ {| material_name := "Skin"; index := 0 |} ];
              material_list_index := 3 |}); simpl; lia.
Defined.

End PskExportFacts.
